(** * diff: comparing two files or two directory trees

    A shallow embedding of [diff.go]: the byte comparator [cmpFiles], the
    directory reconciliation of [diffDirs], the dispatch of [main], and the
    goroutines with their shared wait group, followed by the properties of
    the program that the specification states. *)

From Stdlib.Strings Require Import Byte.
From stdpp Require Import gmap strings list.


(** ** The operating system boundary *)

(** What a directory listing tells about one child ([fs.DirEntry]). *)
Record DirEntry := mkDirEntry { Name : string; IsDir : bool }.

(** What a path leads to: a regular file with its bytes, or a directory with
    the size the system reports for it and its listing. *)
Inductive node :=
| Regular (data : list byte)
| Directory (dsize : nat) (entries : list DirEntry).

(** The error values a call can give besides [nil] (rendered as [None]). *)
Inductive error := EOF | EISDIR | ENOTDIR | ENOENT.

(** An open file: its name, what it was opened on, and the read position. *)
Record File := mkFile { fname : string; inode : node; offset : nat }.

(** What [Stat] tells about a path or an open file ([fs.FileInfo]). *)
Record FileInfo := mkFileInfo { Size : nat; Mode_IsDir : bool }.

Definition info (nd : node) : FileInfo :=
  match nd with
  | Regular data => mkFileInfo (length data) false
  | Directory dsize _ => mkFileInfo dsize true
  end.

(** [f.Stat()]: an open file can always be asked. *)
Definition File_Stat (f : File) : FileInfo + error := inl (info (inode f)).

(** A read that delivered the bytes [d] overwrites the front of the buffer
    and leaves the rest of it as it was. *)
Definition fill (b d : list byte) : list byte := d ++ drop (length d) b.

(** [f.Read(b)]: up to [len(b)] bytes from the read position; [0, io.EOF] at
    the end of the file; an error on a directory. Gives the byte count, the
    error, the buffer and the file after the call. *)
Definition Read (f : File) (b : list byte) : (nat * option error) * list byte * File :=
  match inode f with
  | Directory _ _ => ((0, Some EISDIR), b, f)
  | Regular data =>
      let d := take (length b) (drop (offset f) data) in
      match d, b with
      | [], _ :: _ => ((0, Some EOF), b, f)
      | _, _ => ((length d, None), fill b d,
                 mkFile (fname f) (inode f) (offset f + length d))
      end
  end.

#[global] Instance byte_eq_dec : EqDecision byte := Byte.byte_eq_dec.

(** [bytes.Equal] *)
Fixpoint bytes_Equal (a b : list byte) : bool :=
  match a, b with
  | [], [] => true
  | x :: a', y :: b' => Byte.eqb x y && bytes_Equal a' b'
  | _, _ => false
  end.

(** [make([]byte, n)] *)
Definition make (n : nat) : list byte := replicate n x00.

(** ** Goroutines, events and the monad of a goroutine's body *)

Inductive task :=
| DiffFiles (file1 file2 : string)
| DiffDirs (dir1 dir2 : string) (recursive : bool).

(** What a goroutine does that the rest of the world can see. *)
Inductive event :=
| EvStat (path : string)
| EvReadDir (path : string)
| EvOpen (path : string)
| EvRead (path : string) (n : nat)
| EvClose (path : string)
| EvPrint (line : string)
| EvPrintDefaults
| EvLog
| EvAdd
| EvGo (t : task)
| EvDone
| EvWait.

(** How a body ends: it returns, the process is terminated with an exit
    status ([os.Exit], [log.Fatal]), or the bound put on a loop ran out. *)
Inductive result (A : Type) :=
| Ret (a : A)
| Halt (code : Z)
| Spin.
Arguments Ret {A} a.
Arguments Halt {A} code.
Arguments Spin {A}.

Definition M (A : Type) : Type := list event * result A.

Definition ret {A} (a : A) : M A := ([], Ret a).

Definition bind {A B} (k : A → M B) (m : M A) : M B :=
  match m with
  | (t, Ret a) => let '(t', r) := k a in (t ++ t', r)
  | (t, Halt c) => (t, Halt c)
  | (t, Spin) => (t, Spin)
  end.

#[global] Instance M_ret : MRet M := @ret.
#[global] Instance M_bind : MBind M := @bind.

Definition emit (e : event) : M unit := ([e], Ret tt).

(** [log.Fatal]: a line on the log, then exit status 1. *)
Definition log_Fatal {A} : M A := ([EvLog], Halt 1).

(** [os.Exit] *)
Definition os_Exit {A} (code : Z) : M A := ([], Halt code).

(** [checkErr] on the outcome of a call. *)
Definition checkErr {A} (r : A + error) : M A :=
  match r with
  | inl a => ret a
  | inr _ => log_Fatal
  end.

(** [defer]: the event happens when the body returns; a terminated process
    runs no deferred call. *)
Definition defer {A} (e : event) (m : M A) : M A :=
  a ← m; emit e;; ret a.

Definition events {A} (m : M A) : list event := fst m.
Definition outcome {A} (m : M A) : result A := snd m.

(** ** The byte comparator *)

(** Number of bytes to read at once from a file. *)
Definition CHUNK_SIZE : nat := 4 * 1024.

(** What one turn of the loop decides once both reads are back. *)
Inductive verdict := Equal | Differ | Fatal | Next.

(** Lines 76 to 100: the body of the loop after the two reads. The buffers
    are resliced to their full length before they are compared. *)
Definition cmpChunk (n1 : nat) (err1 : option error) (n2 : nat) (err2 : option error)
    (b1 b2 : list byte) : verdict :=
  match err1, err2 with
  | Some EOF, Some EOF => Equal
  | Some EOF, None => Differ
  | None, Some EOF => Differ
  | Some _, _ | _, Some _ => Fatal
  | None, None =>
      if negb (n1 =? n2) then Differ
      else
        let b1 := if n1 <? CHUNK_SIZE then take CHUNK_SIZE b1 else b1 in
        let b2 := if n1 <? CHUNK_SIZE then take CHUNK_SIZE b2 else b2 in
        if negb (bytes_Equal b1 b2) then Differ else Next
  end.

(** The loop of [cmpFiles], at most [fuel] turns of it. *)
Fixpoint cmpLoop (fuel : nat) (f1 f2 : File) (b1 b2 : list byte) : M bool :=
  match fuel with
  | O => ([], Spin)
  | S fuel =>
      let '((n1, err1), b1, f1) := Read f1 b1 in
      let '((n2, err2), b2, f2) := Read f2 b2 in
      emit (EvRead (fname f1) n1);;
      emit (EvRead (fname f2) n2);;
      match cmpChunk n1 err1 n2 err2 b1 b2 with
      | Equal => ret true
      | Differ => ret false
      | Fatal => log_Fatal
      | Next => cmpLoop fuel f1 f2 b1 b2
      end
  end.

(** ** What the program is linked against *)

(** [color.New(attr)] of github.com/fatih/color: the sequence that switches
    the colour on and the one that resets it; both are empty where colour is
    disabled. *)
Record Color := mkColor { start : string; reset : string }.

(** [c.SprintFunc()] *)
Definition SprintFunc (c : Color) (s : string) : string :=
  start c +:+ s +:+ reset c.

(** The end of a line. *)
Definition nl : string := String (Ascii.ascii_of_nat 10) EmptyString.

(** [for _, x := range l] over a state that the body updates. *)
Fixpoint range {A S : Type} (body : S → A → M S) (l : list A) (s : S) : M S :=
  match l with
  | [] => mret s
  | x :: l => s' ← body s x; range body l s'
  end.

(** The entry of the maps that track which files have been checked. *)
Record d := mkd { e : DirEntry; c : bool }.

(** ** Goroutines running together *)

(** A goroutine of the pool: who started it (0 is [main], [S i] the
    goroutine at place [i] of the pool), what it runs, what is left of its
    body, and whether it has called [wg.Done]. *)
Record goroutine := mkGoroutine {
  parent : nat;
  what : task;
  rest : M unit;
  signalled : bool
}.

(** The process: the counter of the wait group [wg], what is left of
    [main], the goroutines started so far (oldest first), who did what so
    far (oldest first), and the exit status once the process has ended. *)
Record state := mkState {
  wg : Z;
  mainG : M unit;
  pool : list goroutine;
  history : list (nat * event);
  status : option Z
}.

Definition running (s : state) (who : nat) : option (M unit) :=
  match who with
  | O => Some (mainG s)
  | S i => rest <$> pool s !! i
  end.

(** Goroutine [who] goes on with [m]. *)
Definition advance (who : nat) (m : M unit) (s : state) : state :=
  match who with
  | O => mkState (wg s) m (pool s) (history s) (status s)
  | S i =>
      mkState (wg s) (mainG s)
        (alter (λ g, mkGoroutine (parent g) (what g) m (signalled g)) i (pool s))
        (history s) (status s)
  end.

Definition mark (who : nat) (l : list goroutine) : list goroutine :=
  match who with
  | O => l
  | S i => alter (λ g, mkGoroutine (parent g) (what g) (rest g) true) i l
  end.

Definition exit (code : Z) (s : state) : state :=
  mkState (wg s) (mainG s) (pool s) (history s) (Some code).

Section Program.

(** The file system the program runs on: what each path leads to. *)
Variable fsys : string → option node.

(** [path.Join] of the standard library. *)
Variable path_Join : string → string → string.

(** [color.FgHiRed], [color.FgHiYellow] and [color.FgHiMagenta]. *)
Variables FgHiRed FgHiYellow FgHiMagenta : Color.

Definition red := SprintFunc FgHiRed.
Definition yellow := SprintFunc FgHiYellow.
Definition magenta := SprintFunc FgHiMagenta.

(** [os.Open] *)
Definition os_Open (name : string) : M File :=
  emit (EvOpen name);;
  checkErr (match fsys name with
            | Some nd => inl (mkFile name nd 0)
            | None => inr ENOENT
            end).

(** [cmpFiles] compares two files byte for byte and returns whether they
    are equal or not. The loop cannot take more turns than there are
    chunks in the first file, plus the turn that meets the end. *)
Definition cmpFiles (file1 file2 : string) : M bool :=
  f1 ← os_Open file1;
  defer (EvClose file1) (
    stat1 ← checkErr (File_Stat f1);
    f2 ← os_Open file2;
    defer (EvClose file2) (
      stat2 ← checkErr (File_Stat f2);
      if negb (Size stat1 =? Size stat2) then ret false
      else cmpLoop (S (S (Size stat1 `div` CHUNK_SIZE)))
             f1 f2 (make CHUNK_SIZE) (make CHUNK_SIZE))).

(** [diffFiles] compares two files and outputs whether they are
    different. *)
Definition diffFiles (file1 file2 : string) : M unit :=
  same ← cmpFiles file1 file2;
  (if negb same
   then emit (EvPrint ("Files " +:+ file1 +:+ " and " +:+ file2 +:+ " "
                       +:+ red "differ" +:+ nl))
   else mret tt);;
  emit EvDone.

(** [os.ReadDir] *)
Definition os_ReadDir (name : string) : M (list DirEntry) :=
  emit (EvReadDir name);;
  checkErr (match fsys name with
            | Some (Directory _ entries) => inl entries
            | Some (Regular _) => inr ENOTDIR
            | None => inr ENOENT
            end).

(** [os.Stat] *)
Definition os_Stat (name : string) : M FileInfo :=
  emit (EvStat name);;
  checkErr (match fsys name with
            | Some nd => inl (info nd)
            | None => inr ENOENT
            end).

(** Lines 127 to 134: the map from the names of a listing to its entries,
    none of them checked. *)
Definition fileSet (files : list DirEntry) : gmap string d :=
  foldl (λ m f, <[Name f := mkd f false]> m) ∅ files.

Definition onlyIn (dir name : string) : string :=
  yellow "Only in" +:+ " " +:+ dir +:+ ": " +:+ name +:+ nl.

Definition commonSubdirs (path1 path2 : string) : string :=
  "Common subdirectories: " +:+ path1 +:+ " and " +:+ path2 +:+ nl.

Definition isAWhile (path1 type1 path2 type2 : string) : string :=
  path1 +:+ " is a " +:+ magenta type1 +:+ " while " +:+ path2
  +:+ " is a " +:+ magenta type2 +:+ nl.

(** Lines 137 to 166: one entry of the first directory. *)
Definition inFirst (dir1 dir2 : string) (recursive : bool)
    (fileSet2 : gmap string d) (f : DirEntry) : M (gmap string d) :=
  let name := Name f in
  match fileSet2 !! name with
  | Some f2 =>
      let path1 := path_Join dir1 name in
      let path2 := path_Join dir2 name in
      (if negb (IsDir f) && negb (IsDir (e f2)) then
         emit EvAdd;; emit (EvGo (DiffFiles path1 path2))
       else if IsDir f && IsDir (e f2) then
         if recursive then
           emit EvAdd;; emit (EvGo (DiffDirs path1 path2 true))
         else emit (EvPrint (commonSubdirs path1 path2))
       else if IsDir f && negb (IsDir (e f2)) then
         emit (EvPrint (isAWhile path1 "directory" path2 "file"))
       else
         emit (EvPrint (isAWhile path1 "file" path2 "directory")));;
      mret (<[name := mkd (e f2) true]> fileSet2)
  | None =>
      emit (EvPrint (onlyIn dir1 name));;
      mret fileSet2
  end.

(** Lines 169 to 175: one entry of the second directory. A name the map
    does not hold reads as not checked. *)
Definition inSecond (dir2 : string) (fileSet2 : gmap string d)
    (f : DirEntry) : M (gmap string d) :=
  let name := Name f in
  (if negb (default false (c <$> fileSet2 !! name))
   then emit (EvPrint (onlyIn dir2 name))
   else mret tt);;
  mret fileSet2.

(** [diffDirs] compares two directories (recursively if specified) and
    outputs which items are different. *)
Definition diffDirs (dir1 dir2 : string) (recursive : bool) : M unit :=
  files1 ← os_ReadDir dir1;
  files2 ← os_ReadDir dir2;
  let fileSet1 := fileSet files1 in
  let fileSet2 := fileSet files2 in
  fileSet2 ← range (inFirst dir1 dir2 recursive) files1 fileSet2;
  range (inSecond dir2) files2 fileSet2;;
  emit EvDone.

(** What a goroutine runs. *)
Definition body (t : task) : M unit :=
  match t with
  | DiffFiles file1 file2 => diffFiles file1 file2
  | DiffDirs dir1 dir2 recursive => diffDirs dir1 dir2 recursive
  end.

(** An index out of range panics: the runtime prints the panic and the
    process exits with status 2. *)
Definition index (args : list string) (i : nat) : M string :=
  match args !! i with
  | Some a => mret a
  | None => ([EvLog], Halt 2)
  end.

(** [main], given what [pflag.Parse] made of the command line: the two
    flags and the positional arguments [pflag.Args()]. *)
Definition main (help recursive : bool) (args : list string) : M unit :=
  (if help || negb (length args =? 2) then
     emit (EvPrint ("Usage: diff [flags] path1 path2" +:+ nl));;
     emit EvPrintDefaults;;
     os_Exit 0
   else mret tt);;
  path1 ← index args 0;
  path2 ← index args 1;
  stat1 ← os_Stat path1;
  stat2 ← os_Stat path2;
  if negb (Mode_IsDir stat1) && negb (Mode_IsDir stat2) then
    emit EvAdd;;
    emit (EvGo (DiffFiles path1 path2));;
    emit EvWait
  else if Mode_IsDir stat1 && Mode_IsDir stat2 then
    emit EvAdd;;
    emit (EvGo (DiffDirs path1 path2 recursive));;
    emit EvWait
  else
    emit (EvPrint ("Cannot compare between a file and a directory." +:+ nl));;
    os_Exit 1.

(** What an event of goroutine [who] does to the process: [wg.Add(1)]
    and [wg.Done()] move the counter (a counter below zero panics), [go]
    starts a goroutine; the rest touches nothing that is shared. *)
Definition perform (who : nat) (ev : event) (s : state) : state :=
  let h := history s ++ [(who, ev)] in
  match ev with
  | EvAdd => mkState (wg s + 1) (mainG s) (pool s) h (status s)
  | EvDone =>
      if (wg s - 1 <? 0)%Z
      then mkState (wg s - 1) (mainG s) (pool s) h (Some 2%Z)
      else mkState (wg s - 1) (mainG s) (mark who (pool s)) h (status s)
  | EvGo t =>
      mkState (wg s) (mainG s)
        (pool s ++ [mkGoroutine who t (body t) false]) h (status s)
  | _ => mkState (wg s) (mainG s) (pool s) h (status s)
  end.

(** One step of the process, taken by goroutine [who]: its next event,
    where [wg.Wait()] can only be passed with the counter at zero; at the
    end of a body, a terminated process or the return of [main] ends the
    process. No step is possible otherwise. *)
Definition step (who : nat) (s : state) : option state :=
  match status s with
  | Some _ => None
  | None =>
      match running s who with
      | Some (ev :: es, r) =>
          match ev with
          | EvWait =>
              if (wg s =? 0)%Z then Some (perform who ev (advance who (es, r) s))
              else None
          | _ => Some (perform who ev (advance who (es, r) s))
          end
      | Some ([], Halt code) => Some (exit code s)
      | Some ([], Ret _) =>
          match who with
          | O => Some (exit 0 s)
          | S _ => None
          end
      | Some ([], Spin) => None
      | None => None
      end
  end.

(** The steps of a schedule, one after the other. *)
Fixpoint run (schedule : list nat) (s : state) : option state :=
  match schedule with
  | [] => Some s
  | who :: schedule => s' ← step who s; run schedule s'
  end.

(** The process as it starts. *)
Definition init (help recursive : bool) (args : list string) : state :=
  mkState 0 (main help recursive args) [] [] None.

Definition reachable (help recursive : bool) (args : list string) (s : state) : Prop :=
  ∃ schedule, run schedule (init help recursive args) = Some s.

End Program.


(** ** Words for the statements *)

(** The reads of a run of the loop: the byte counts of both reads, turn by
    turn. *)
Definition reads (name1 name2 : string) (ns : list (nat * nat)) : list event :=
  ns ≫= λ n, [EvRead name1 n.1; EvRead name2 n.2].

(** The turn of the loop in the words of the specification: the buffers are
    compared on their valid prefix, the bytes just read, and on nothing
    else. *)
Definition cmpChunk_validPrefix (n1 : nat) (err1 : option error) (n2 : nat)
    (err2 : option error) (b1 b2 : list byte) : verdict :=
  match err1, err2 with
  | Some EOF, Some EOF => Equal
  | Some EOF, None => Differ
  | None, Some EOF => Differ
  | Some _, _ | _, Some _ => Fatal
  | None, None =>
      if negb (n1 =? n2) then Differ
      else if negb (bytes_Equal (take n1 b1) (take n2 b2)) then Differ
      else Next
  end.

(** The loop with that turn. *)
Fixpoint cmpLoop_validPrefix (fuel : nat) (f1 f2 : File) (b1 b2 : list byte) : M bool :=
  match fuel with
  | O => ([], Spin)
  | S fuel =>
      let '((n1, err1), b1, f1) := Read f1 b1 in
      let '((n2, err2), b2, f2) := Read f2 b2 in
      emit (EvRead (fname f1) n1);;
      emit (EvRead (fname f2) n2);;
      match cmpChunk_validPrefix n1 err1 n2 err2 b1 b2 with
      | Equal => ret true
      | Differ => ret false
      | Fatal => log_Fatal
      | Next => cmpLoop_validPrefix fuel f1 f2 b1 b2
      end
  end.

(** How a matched pair of entries can be typed. *)
Inductive kind := BothFiles | BothDirectories | LeftDirRightFile | LeftFileRightDir.

(** The classes of the reconciliation, each with the name it is about. *)
Inductive classification :=
| OnlyInLeft (name : string)
| OnlyInRight (name : string)
| Matched (name : string) (k : kind).

Definition kindOf (left right : bool) : kind :=
  match left, right with
  | false, false => BothFiles
  | true, true => BothDirectories
  | true, false => LeftDirRightFile
  | false, true => LeftFileRightDir
  end.

Definition names (files : list DirEntry) : list string := Name <$> files.

(** The entry of a listing under a name (the last one, should the listing
    repeat the name). *)
Definition entryOf (files : list DirEntry) (name : string) : option DirEntry :=
  last (filter (λ f, Name f = name) files).

(** The classification of one entry of the left listing, given how names
    are looked up on the right. *)
Definition classify (look : string → option DirEntry) (f : DirEntry) : classification :=
  match look (Name f) with
  | Some f2 => Matched (Name f) (kindOf (IsDir f) (IsDir f2))
  | None => OnlyInLeft (Name f)
  end.

(** The reconciliation as a partition: every entry of the left listing is
    matched or only on the left, by whether the right listing has its name;
    then every entry of the right listing whose name the left listing
    lacks is only on the right. *)
Definition reconcile (files1 files2 : list DirEntry) : list classification :=
  (classify (entryOf files2) <$> files1)
  ++ (OnlyInRight <$> filter (λ n, n ∉ names files1) (names files2)).

Definition nameOf (cl : classification) : string :=
  match cl with
  | OnlyInLeft name | OnlyInRight name | Matched name _ => name
  end.

Section Acting.

Variable path_Join : string → string → string.
Variables FgHiYellow FgHiMagenta : Color.

(** What the scheduler does with a classification. *)
Definition act (dir1 dir2 : string) (recursive : bool) (cl : classification) : list event :=
  match cl with
  | OnlyInLeft name => [EvPrint (onlyIn FgHiYellow dir1 name)]
  | OnlyInRight name => [EvPrint (onlyIn FgHiYellow dir2 name)]
  | Matched name k =>
      let path1 := path_Join dir1 name in
      let path2 := path_Join dir2 name in
      match k with
      | BothFiles => [EvAdd; EvGo (DiffFiles path1 path2)]
      | BothDirectories =>
          if recursive then [EvAdd; EvGo (DiffDirs path1 path2 true)]
          else [EvPrint (commonSubdirs path1 path2)]
      | LeftDirRightFile =>
          [EvPrint (isAWhile FgHiMagenta path1 "directory" path2 "file")]
      | LeftFileRightDir =>
          [EvPrint (isAWhile FgHiMagenta path1 "file" path2 "directory")]
      end
  end.

End Acting.




(** The fields [e] of a map, which the first loop never changes. *)
Definition entries_of (m : gmap string d) (name : string) : option DirEntry :=
  e <$> m !! name.

(** The map after the first loop: the names of the left listing are
    checked. *)
Definition checked (files1 : list DirEntry) (m : gmap string d) (name : string) : option d :=
  (λ x, mkd (e x) (c x || bool_decide (name ∈ names files1))) <$> m !! name.

(** An event that neither touches the wait group nor starts a goroutine. *)
Definition plain (ev : event) : bool :=
  match ev with
  | EvAdd | EvGo _ | EvDone | EvWait => false
  | _ => true
  end.

(** The exit status a body ends the process with when [main] runs it to
    its end. *)
Definition exitCode (r : result unit) : option Z :=
  match r with
  | Ret _ => Some 0%Z
  | Halt code => Some code
  | Spin => None
  end.

(** ** The shape of bodies, for the invariant of the wait group *)

(** Events that are plain or come as [wg.Add(1)] directly followed by
    [go]. *)
Fixpoint paired (es : list event) : bool :=
  match es with
  | [] => true
  | EvAdd :: EvGo _ :: es' => paired es'
  | EvAdd :: _ | EvGo _ :: _ | EvDone :: _ | EvWait :: _ => false
  | _ :: es' => paired es'
  end.

(** What is left of the body of a goroutine that has not called [wg.Done]
    yet, at a point where no [wg.Add] waits for its [go]: paired events,
    then [wg.Done] as the last event of a body that returns; a body that
    does not return never calls it. *)
Fixpoint tailOk (es : list event) (r : result unit) : Prop :=
  match es with
  | [] => r ≠ Ret tt
  | EvDone :: es' => es' = [] ∧ r = Ret tt
  | EvAdd :: EvGo _ :: es' => tailOk es' r
  | EvAdd :: _ | EvGo _ :: _ | EvWait :: _ => False
  | _ :: es' => tailOk es' r
  end.

(** The same between [wg.Add(1)] and its [go]. *)
Definition goOk (m : M unit) : Prop :=
  match m.1 with
  | EvGo _ :: es' => tailOk es' m.2
  | es => tailOk es m.2
  end.

(** What is left of [main]: paired events, and nothing after
    [wg.Wait]. *)
Fixpoint mainTail (es : list event) : Prop :=
  match es with
  | [] => True
  | EvWait :: es' => es' = []
  | EvAdd :: EvGo _ :: es' => mainTail es'
  | EvAdd :: _ | EvGo _ :: _ | EvDone :: _ => False
  | _ :: es' => mainTail es'
  end.

Definition mainOk (m : M unit) : Prop :=
  match m.1 with
  | EvGo _ :: es' => mainTail es'
  | es => mainTail es
  end.

(** One for a [wg.Add(1)] whose [go] is still to come. *)
Definition owed (m : M unit) : Z :=
  match m.1 with
  | EvGo _ :: _ => 1
  | _ => 0
  end.

(** What a goroutine of the pool holds of the counter: one until it calls
    [wg.Done], and what it owes. *)
Definition weight (g : goroutine) : Z :=
  (if signalled g then 0 else 1) + owed (rest g).

Definition pending (l : list goroutine) : Z :=
  foldr (λ g acc, (weight g + acc)%Z) 0%Z l.

Definition finished (g : goroutine) : Prop :=
  signalled g = true ∧ rest g = ([], Ret tt).

(** The invariant of the process. *)
Record invariant (s : state) : Prop := mkInvariant {
  inv_wg : wg s = (owed (mainG s) + pending (pool s))%Z;
  inv_main : mainOk (mainG s);
  inv_pool : Forall (λ g, if signalled g then rest g = ([], Ret tt)
                          else goOk (rest g)) (pool s);
  inv_wait : (0, EvWait) ∈ history s →
             (mainG s).1 = [] ∧ Forall finished (pool s)
}.

Definition pairedM {A} (m : M A) : Prop := paired (events m) = true.

Definition bodyOk (m : M unit) : Prop := tailOk (events m) (outcome m).

(** ** A small tree to run the program on *)

Definition demo_Join (dir name : string) : string := dir +:+ "/" +:+ name.

Definition noColor : Color := mkColor "" "".

Definition demo_fs (path : string) : option node :=
  if decide (path = "l") then
    Some (Directory 4096 [mkDirEntry "a.txt" false; mkDirEntry "b" true;
                          mkDirEntry "sub" true; mkDirEntry "x" false])
  else if decide (path = "r") then
    Some (Directory 4096 [mkDirEntry "a.txt" false; mkDirEntry "b" false;
                          mkDirEntry "sub" true; mkDirEntry "y" false])
  else if decide (path = "l/a.txt") then Some (Regular [x01; x02; x03])
  else if decide (path = "r/a.txt") then Some (Regular [x01; x02; x04])
  else if decide (path = "l/b") then Some (Directory 4096 [])
  else if decide (path = "r/b") then Some (Regular [])
  else if decide (path = "l/sub") then Some (Directory 4096 [mkDirEntry "inner" false])
  else if decide (path = "r/sub") then Some (Directory 4096 [mkDirEntry "inner" false])
  else if decide (path = "l/sub/inner") then Some (Regular [x0a])
  else if decide (path = "r/sub/inner") then Some (Regular [x0b])
  else if decide (path = "l/x") then Some (Regular [])
  else if decide (path = "r/y") then Some (Regular [x01])
  else None.

(** The claim that a directory task calls [wg.Done] only once the tasks it
    started have finished. *)
Definition done_after_children (fsys : string → option node)
    (path_Join : string → string → string) (FgHiRed FgHiYellow FgHiMagenta : Color)
    (help recursive : bool) (args : list string) : Prop :=
  ∀ s i g j h,
    reachable fsys path_Join FgHiRed FgHiYellow FgHiMagenta help recursive args s →
    pool s !! i = Some g → pool s !! j = Some h → parent h = S i →
    signalled g = true → finished h.

#[global] Instance task_eq_dec : EqDecision task.
Proof. solve_decision. Defined.

#[global] Instance event_eq_dec : EqDecision event.
Proof. solve_decision. Defined.

(** ** Where the goroutines and the events of a process come from *)

(** The events of a body that are [go] statements start these tasks. *)
Definition starts (m : M unit) (t : task) : Prop := EvGo t ∈ events m.

(** What [cmpFiles] on two paths may do: open, read and close these two,
    and log a fault. *)
Definition touches (file1 file2 : string) (ev : event) : Prop :=
  match ev with
  | EvOpen path | EvRead path _ | EvClose path => path = file1 ∨ path = file2
  | EvLog => True
  | _ => False
  end.

Definition allM {A} (P : event → Prop) (m : M A) : Prop := Forall P (events m).

Section Provenance.

Variable fsys : string → option node.
Variable path_Join : string → string → string.
Variables FgHiRed FgHiYellow FgHiMagenta : Color.

(** Every goroutine of the pool runs an allowed task and is somewhere in its
    body, [main] is somewhere in its own, and every event of the history is
    an event of the body of who did it. *)
Record provenance (allowed : task → Prop) (main0 : M unit) (s : state) : Prop :=
  mkProvenance {
    prov_main : ∃ pre, events main0 = pre ++ (mainG s).1;
    prov_pool :
      Forall (λ g, allowed (what g)
                   ∧ ∃ pre, events (body fsys path_Join FgHiRed FgHiYellow FgHiMagenta
                                      (what g)) = pre ++ (rest g).1) (pool s);
    prov_history :
      ∀ who ev, (who, ev) ∈ history s →
        match who with
        | O => ev ∈ events main0
        | S i => ∃ g, pool s !! i = Some g
                      ∧ ev ∈ events (body fsys path_Join FgHiRed FgHiYellow FgHiMagenta
                                       (what g))
        end
  }.

End Provenance.

(** A task that compares two entries of the compared directories that are
    files in both listings. *)
Definition filePair (path_Join : string → string → string) (dir1 dir2 : string)
    (files1 files2 : list DirEntry) (t : task) : Prop :=
  ∃ f f2, f ∈ files1 ∧ f2 ∈ files2 ∧ Name f2 = Name f
          ∧ IsDir f = false ∧ IsDir f2 = false
          ∧ t = DiffFiles (path_Join dir1 (Name f)) (path_Join dir2 (Name f)).

(** What a run that is not recursive may do: list the two directories, start
    comparisons of file pairs, open and read the files of such pairs. *)
Definition flat (path_Join : string → string → string) (dir1 dir2 : string)
    (files1 files2 : list DirEntry) (ev : event) : Prop :=
  match ev with
  | EvReadDir path => path = dir1 ∨ path = dir2
  | EvGo (DiffDirs d1 d2 recursive) => d1 = dir1 ∧ d2 = dir2 ∧ recursive = false
  | EvGo (DiffFiles file1 file2) =>
      filePair path_Join dir1 dir2 files1 files2 (DiffFiles file1 file2)
  | EvOpen path | EvRead path _ =>
      ∃ file1 file2, filePair path_Join dir1 dir2 files1 files2 (DiffFiles file1 file2)
                     ∧ (path = file1 ∨ path = file2)
  | _ => True
  end.

(** ** Words for more statements *)

(** A read of one of two files. *)
Definition isRead (file1 file2 : string) (ev : event) : Prop :=
  ∃ n, ev = EvRead file1 n ∨ ev = EvRead file2 n.

(** A body that ends does so by returning or by [log.Fatal]. *)
Definition fatalOnly {A} (m : M A) : Prop :=
  match outcome m with
  | Ret _ => True
  | Halt code => code = 1%Z
  | Spin => False
  end.

(** Whether a path leads to a directory. *)
Definition isDirectory (o : option node) : bool :=
  match o with
  | Some (Directory _ _) => true
  | _ => false
  end.

(** Two paths reached from the two roots by the same names. *)
Inductive aligned (path_Join : string → string → string) (root1 root2 : string) :
    string → string → Prop :=
| aligned_root : aligned path_Join root1 root2 root1 root2
| aligned_child path1 path2 name :
    aligned path_Join root1 root2 path1 path2 →
    aligned path_Join root1 root2 (path_Join path1 name) (path_Join path2 name).

(** A task on aligned paths that has the flag of the command line. *)
Definition alignedTask (path_Join : string → string → string) (root1 root2 : string)
    (recursive : bool) (t : task) : Prop :=
  match t with
  | DiffFiles file1 file2 => aligned path_Join root1 root2 file1 file2
  | DiffDirs dir1 dir2 r => aligned path_Join root1 root2 dir1 dir2 ∧ r = recursive
  end.

(** A path that is one of two aligned paths. *)
Definition alignedPath (path_Join : string → string → string) (root1 root2 : string)
    (path : string) : Prop :=
  ∃ path1 path2, aligned path_Join root1 root2 path1 path2
                 ∧ (path = path1 ∨ path = path2).

(** ** The history of a process, goroutine by goroutine *)

(** What goroutine [who] has done so far, in order. *)
Definition projection (who : nat) (h : list (nat * event)) : list event :=
  snd <$> filter (λ x, x.1 = who) h.

(** The tasks that events start and the lines that they print. *)
Definition goes (es : list event) : list task :=
  omap (λ ev, match ev with EvGo t => Some t | _ => None end) es.

Definition lines (es : list event) : list string :=
  omap (λ ev, match ev with EvPrint line => Some line | _ => None end) es.

(** The tasks started so far and the lines printed so far, in order. *)
Definition started (h : list (nat * event)) : list task := goes (snd <$> h).

Definition printed (h : list (nat * event)) : list string := lines (snd <$> h).

Section Tracking.

Variable fsys : string → option node.
Variable path_Join : string → string → string.
Variables FgHiRed FgHiYellow FgHiMagenta : Color.

(** The history and the goroutines tell the same story: what a goroutine
    has done and what is left of it make up its body, in this order, and so
    for [main]; the goroutines of the pool are the tasks started, in the
    order of their [go]; and a process that has ended has done so for a
    reason. *)
Record tracked (main0 : M unit) (s : state) : Prop := mkTracked {
  trk_main : main0 = (projection 0 (history s) ++ (mainG s).1, (mainG s).2);
  trk_pool :
    ∀ i g, pool s !! i = Some g →
      body fsys path_Join FgHiRed FgHiYellow FgHiMagenta (what g)
      = (projection (S i) (history s) ++ (rest g).1, (rest g).2);
  trk_bound : ∀ who ev, (who, ev) ∈ history s → who ≤ length (pool s);
  trk_started : what <$> pool s = started (history s);
  trk_status :
    ∀ code, status s = Some code →
      (mainG s = ([], Ret tt) ∧ code = 0%Z)
      ∨ mainG s = ([], Halt code)
      ∨ (∃ i g, pool s !! i = Some g ∧ rest g = ([], Halt code))
      ∨ (code = 2%Z ∧ (wg s < 0)%Z)
}.

End Tracking.

(** * Properties *)

(** ** The byte comparator *)

Lemma CHUNK_SIZE_pos : 0 < CHUNK_SIZE.
Proof. unfold CHUNK_SIZE. lia. Qed.

#[local] Opaque CHUNK_SIZE.

Lemma bytes_Equal_true (a b : list byte) : bytes_Equal a b = true ↔ a = b.
Proof.
  revert b. induction a as [|x a IH]; intros [|y b]; simpl; try (split; [discriminate|congruence]); try done.
  rewrite andb_true_iff, IH. split.
  - intros [H ->]. by rewrite (Byte.byte_dec_bl _ _ H).
  - intros [= -> ->]. split; [by apply Byte.byte_dec_lb | done].
Qed.

Lemma bytes_Equal_refl (a : list byte) : bytes_Equal a a = true.
Proof. by apply bytes_Equal_true. Qed.

Lemma bytes_Equal_false (a b : list byte) : bytes_Equal a b = false ↔ a ≠ b.
Proof.
  rewrite <- bytes_Equal_true. destruct (bytes_Equal a b); split; congruence.
Qed.

Lemma bytes_Equal_sym (a b : list byte) : bytes_Equal a b = bytes_Equal b a.
Proof.
  destruct (bytes_Equal a b) eqn:E; symmetry.
  - apply bytes_Equal_true. symmetry. by apply bytes_Equal_true.
  - apply bytes_Equal_false. intros ->. apply bytes_Equal_false in E. done.
Qed.

Lemma length_fill (b d : list byte) : length d ≤ length b → length (fill b d) = length b.
Proof. intros H. unfold fill. rewrite length_app, length_drop. lia. Qed.

Lemma fill_inj (b d1 d2 : list byte) :
  length d1 = length d2 → fill b d1 = fill b d2 → d1 = d2.
Proof. unfold fill. intros Hl H. by apply app_inj_1 in H as [? _]. Qed.

Lemma take_fill (b d : list byte) : take (length d) (fill b d) = d.
Proof. unfold fill. by rewrite take_app_length. Qed.


Lemma emit_then {A} (ev : event) (m : M A) :
  (emit ev;; m) = (ev :: events m, outcome m).
Proof. by destruct m as [t r]. Qed.

Lemma ret_then {A B} (a : A) (k : A → M B) : (mret a ≫= k) = k a.
Proof. unfold mret, mbind, M_ret, M_bind, ret, bind. by destruct (k a). Qed.

Lemma Read_regular name A o b :
  0 < length b →
  Read (mkFile name (Regular A) o) b =
  match drop o A with
  | [] => ((0, Some EOF), b, mkFile name (Regular A) o)
  | _ :: _ =>
      let d := take (length b) (drop o A) in
      ((length d, None), fill b d, mkFile name (Regular A) (o + length d))
  end.
Proof.
  intros Hb. unfold Read. simpl.
  destruct b as [|x b]; [simpl in Hb; lia|].
  destruct (drop o A) as [|y r]; [by rewrite take_nil|]. done.
Qed.

Lemma cmpLoop_S fuel f1 f2 b1 b2 :
  cmpLoop (S fuel) f1 f2 b1 b2 =
  let '((n1, err1), b1', f1') := Read f1 b1 in
  let '((n2, err2), b2', f2') := Read f2 b2 in
  emit (EvRead (fname f1') n1);;
  emit (EvRead (fname f2') n2);;
  match cmpChunk n1 err1 n2 err2 b1' b2' with
  | Equal => ret true
  | Differ => ret false
  | Fatal => log_Fatal
  | Next => cmpLoop fuel f1' f2' b1' b2'
  end.
Proof. reflexivity. Qed.

Lemma cmpChunk_data (b1 b2 : list byte) n1 n2 :
  length b1 = CHUNK_SIZE → length b2 = CHUNK_SIZE →
  cmpChunk n1 None n2 None b1 b2 =
  if bool_decide (n1 = n2 ∧ b1 = b2) then Next else Differ.
Proof.
  intros H1 H2. unfold cmpChunk.
  destruct (Nat.eqb_spec n1 n2) as [->|Hn]; simpl.
  - assert (take CHUNK_SIZE b1 = b1) as E1 by (apply take_ge; lia).
    assert (take CHUNK_SIZE b2 = b2) as E2 by (apply take_ge; lia).
    destruct (n2 <? CHUNK_SIZE); rewrite ?E1, ?E2;
      (destruct (bytes_Equal b1 b2) eqn:E; simpl;
       [apply bytes_Equal_true in E; by rewrite bool_decide_eq_true_2
       |apply bytes_Equal_false in E; rewrite bool_decide_eq_false_2; [done|tauto]]).
  - rewrite bool_decide_eq_false_2; [done|tauto].
Qed.


Lemma take_length_take {A} n (l : list A) : take (length (take n l)) l = take n l.
Proof.
  rewrite length_take.
  destruct (Nat.min_spec n (length l)) as [[? ->]|[? ->]]; [done|].
  by rewrite !take_ge by lia.
Qed.

Lemma cmpLoop_eof name1 name2 A B o1 o2 b k :
  0 < length b → drop o1 A = [] ∨ drop o2 B = [] →
  cmpLoop (S k) (mkFile name1 (Regular A) o1) (mkFile name2 (Regular B) o2) b b
  = (reads name1 name2 [(length (take (length b) (drop o1 A)),
                         length (take (length b) (drop o2 B)))],
     Ret (bool_decide (drop o1 A = drop o2 B))).
Proof.
  intros Hb Hnil. rewrite cmpLoop_S, !Read_regular by done.
  destruct (drop o1 A) as [|x r1], (drop o2 B) as [|y r2];
    rewrite ?take_nil; try done.
  destruct Hnil; discriminate.
Qed.

Lemma cmpLoop_regular k : ∀ name1 name2 A B o1 o2 b,
  length b = CHUNK_SIZE →
  length (drop o1 A) ≤ k * CHUNK_SIZE →
  ∃ ns, cmpLoop (S k) (mkFile name1 (Regular A) o1) (mkFile name2 (Regular B) o2) b b
        = (reads name1 name2 ns, Ret (bool_decide (drop o1 A = drop o2 B)))
      ∧ Forall (λ n, n.1 ≤ CHUNK_SIZE ∧ n.2 ≤ CHUNK_SIZE) ns
      ∧ 0 < length ns
      ∧ (∀ i, length (drop o1 A) = length (drop o2 B) →
              drop o1 A !! i ≠ drop o2 B !! i →
              length ns * CHUNK_SIZE ≤ i + CHUNK_SIZE).
Proof.
  pose proof CHUNK_SIZE_pos as HC.
  induction k as [|k IH]; intros name1 name2 A B o1 o2 b Hb Hk.
  all: destruct (decide (drop o1 A = [] ∨ drop o2 B = [])) as [Hnil|Hnn].
  1,3: rewrite cmpLoop_eof by (done || lia); eexists; split; [done|];
       split_and!; [repeat constructor; simpl; rewrite length_take; lia
                   |simpl; lia|simpl; lia].
  { destruct (drop o1 A); [tauto|simpl in Hk; lia]. }
  rewrite cmpLoop_S, !Read_regular by lia.
  destruct (drop o1 A) as [|x r1] eqn:E1; [tauto|].
  destruct (drop o2 B) as [|y r2] eqn:E2; [tauto|].
  cbv zeta.
  set (d1 := take (length b) (x :: r1)).
  set (d2 := take (length b) (y :: r2)).
  assert (length d1 ≤ length b) as Hd1 by (unfold d1; rewrite length_take; lia).
  assert (length d2 ≤ length b) as Hd2 by (unfold d2; rewrite length_take; lia).
  assert (take (length d1) (x :: r1) = d1) as Ht1.
  { apply take_length_take. }
  assert (take (length d2) (y :: r2) = d2) as Ht2.
  { apply take_length_take. }
  assert (length d1 = length b `min` length (x :: r1)) as Hl1 by apply length_take.
  assert (length d2 = length b `min` length (y :: r2)) as Hl2 by apply length_take.
  assert (x :: r1 = y :: r2 → d1 = d2) as Hd by (unfold d1, d2; congruence).
  clearbody d1 d2.
  cbv beta iota. rewrite !emit_then. cbn [fname events outcome fst snd].
  rewrite cmpChunk_data by (rewrite length_fill; lia).
  case_bool_decide as Hsame.
  - (* the chunks agree: the loop goes on *)
    destruct Hsame as [Hn Hf]. apply fill_inj in Hf; [|done]. subst d2.
    destruct (IH name1 name2 A B (o1 + length d1) (o2 + length d1) (fill b d1))
      as (ns & Heq & Hall & Hpos & Hbound).
    { rewrite length_fill; lia. }
    { rewrite <- drop_drop, E1, length_drop. cbn [length] in *. lia. }
    rewrite Heq. simpl.
    rewrite <- !drop_drop, E1, E2 in Hbound |- *.
    exists ((length d1, length d1) :: ns). split_and!.
    + f_equal. f_equal. apply bool_decide_ext.
      rewrite <- (take_drop (length d1) (x :: r1)) at 2.
      rewrite <- (take_drop (length d1) (y :: r2)) at 2.
      rewrite Ht1, Ht2.
      split; [by intros ->|]. by intros ?%app_inv_head.
    + constructor; [simpl; lia|done].
    + simpl. lia.
    + intros i Hl Hi.
      assert (length d1 ≤ i) as Hge.
      { destruct (decide (i < length d1)) as [Hlt|]; [|lia].
        destruct Hi. rewrite <- (lookup_take_lt (x :: r1) (length d1) i) by done.
        rewrite <- (lookup_take_lt (y :: r2) (length d1) i) by done.
        by rewrite Ht1, Ht2. }
      assert (length d1 = CHUNK_SIZE) as HdC.
      { destruct (decide (length d1 = CHUNK_SIZE)) as [|Hne]; [done|].
        destruct Hi. rewrite !lookup_ge_None_2; [done|lia..]. }
      specialize (Hbound (i - CHUNK_SIZE)).
      rewrite !lookup_drop, !length_drop, HdC in Hbound.
      replace (CHUNK_SIZE + (i - CHUNK_SIZE)) with i in Hbound by lia.
      cbn [length] in *. specialize (Hbound ltac:(lia) Hi). lia.
  - exists [(length d1, length d2)]. simpl. split_and!.
    + f_equal. f_equal. symmetry. apply bool_decide_eq_false_2.
      intros Heq. destruct Hsame. rewrite (Hd Heq). done.
    + repeat constructor; simpl; lia.
    + lia.
    + intros. lia.
Qed.

Lemma os_Open_some fsys name nd :
  fsys name = Some nd → os_Open fsys name = ([EvOpen name], Ret (mkFile name nd 0)).
Proof. intros H. unfold os_Open. by rewrite H. Qed.

Lemma bind_events {A B} (t : list event) (a : A) (k : A → M B) :
  ((t, Ret a) ≫= k) = (t ++ events (k a), outcome (k a)).
Proof. unfold mbind, M_bind, bind. by destruct (k a). Qed.

Lemma defer_ret {A} ev t (a : A) : defer ev (t, Ret a) = (t ++ [ev], Ret a).
Proof. unfold defer. rewrite bind_events. by rewrite emit_then. Qed.

Lemma length_make n : length (make n) = n.
Proof. apply length_replicate. Qed.

Lemma fuel_enough n : n ≤ S (n `div` CHUNK_SIZE) * CHUNK_SIZE.
Proof.
  pose proof CHUNK_SIZE_pos.
  pose proof (Nat.mul_succ_div_gt n CHUNK_SIZE ltac:(lia)). lia.
Qed.

Lemma cmpFiles_regular fsys file1 file2 A B :
  fsys file1 = Some (Regular A) → fsys file2 = Some (Regular B) →
  ∃ ns, cmpFiles fsys file1 file2
        = ([EvOpen file1; EvOpen file2] ++ reads file1 file2 ns
             ++ [EvClose file2; EvClose file1],
           Ret (bool_decide (A = B)))
      ∧ Forall (λ n, n.1 ≤ CHUNK_SIZE ∧ n.2 ≤ CHUNK_SIZE) ns
      ∧ (length A ≠ length B → ns = [])
      ∧ (length A = length B → 0 < length ns)
      ∧ (∀ i, length A = length B → A !! i ≠ B !! i →
              length ns * CHUNK_SIZE ≤ i + CHUNK_SIZE).
Proof.
  intros H1 H2. unfold cmpFiles.
  rewrite (os_Open_some _ _ _ H1), bind_events.
  rewrite (os_Open_some _ _ _ H2). cbn [File_Stat checkErr inode info].
  rewrite ret_then, bind_events. cbn [File_Stat checkErr inode info].
  rewrite ret_then. cbn [Size].
  destruct (Nat.eqb_spec (length A) (length B)) as [Hl|Hl]; cbn [negb].
  - destruct (cmpLoop_regular (S (length A `div` CHUNK_SIZE)) file1 file2 A B 0 0
                (make CHUNK_SIZE)) as (ns & Heq & Hall & Hpos & Hbound).
    { apply length_make. }
    { rewrite drop_0. apply fuel_enough. }
    rewrite !drop_0 in Heq, Hbound. rewrite Heq.
    repeat (rewrite defer_ret; cbn [events outcome fst snd]).
    exists ns. split_and!; [|done|done|done|done].
    f_equal. cbn [app]. by rewrite <- !app_assoc.
  - exists []. split_and!; [|done|done|done|lia].
    unfold ret. repeat (rewrite defer_ret; cbn [events outcome fst snd]).
    cbn. f_equal. f_equal.
    symmetry. apply bool_decide_eq_false_2. by intros ->.
Qed.

(** C1. For two regular files holding the byte sequences [A] and [B],
    [cmpFiles] returns, and it returns true if and only if [A] and [B] have
    the same length and the same byte at every position; so it returns true
    for two empty files, false for an empty file against one that is not,
    and false for two files that differ in their last byte only. *)
Theorem cmpFiles_true_iff_identical fsys file1 file2 A B :
  fsys file1 = Some (Regular A) → fsys file2 = Some (Regular B) →
  (outcome (cmpFiles fsys file1 file2) = Ret true
   ↔ length A = length B ∧ ∀ i, A !! i = B !! i)
  ∧ (outcome (cmpFiles fsys file1 file2) = Ret false
     ↔ ¬ (length A = length B ∧ ∀ i, A !! i = B !! i))
  ∧ (A = [] → B = [] → outcome (cmpFiles fsys file1 file2) = Ret true)
  ∧ (A = [] → B ≠ [] → outcome (cmpFiles fsys file1 file2) = Ret false)
  ∧ (∀ l x y, A = l ++ [x] → B = l ++ [y] → x ≠ y →
       outcome (cmpFiles fsys file1 file2) = Ret false).
Proof.
  intros H1 H2.
  destruct (cmpFiles_regular fsys file1 file2 A B H1 H2) as (ns & -> & _).
  cbn [outcome snd].
  assert (A = B ↔ length A = length B ∧ ∀ i, A !! i = B !! i) as Hiff.
  { split; [by intros ->|]. intros [_ Hi]. by apply list_eq. }
  split_and!.
  - rewrite <- Hiff. split; [intros [= E]; by apply bool_decide_eq_true in E|].
    intros E. by rewrite bool_decide_eq_true_2.
  - rewrite <- Hiff. split; [intros [= E]; by apply bool_decide_eq_false in E|].
    intros E. by rewrite bool_decide_eq_false_2.
  - intros -> ->. done.
  - intros -> HB. by rewrite bool_decide_eq_false_2.
  - intros l x y -> -> Hxy. rewrite bool_decide_eq_false_2; [done|].
    intros E. apply app_inv_head in E. congruence.
Qed.

(** C10. [cmpFiles] is symmetric: on two regular files it returns the same
    boolean whichever of the two is given first. *)
Theorem cmpFiles_symmetric fsys file1 file2 A B :
  fsys file1 = Some (Regular A) → fsys file2 = Some (Regular B) →
  ∃ v : bool, outcome (cmpFiles fsys file1 file2) = Ret v
            ∧ outcome (cmpFiles fsys file2 file1) = Ret v.
Proof.
  intros H1 H2.
  destruct (cmpFiles_regular fsys file1 file2 A B H1 H2) as (ns & -> & _).
  destruct (cmpFiles_regular fsys file2 file1 B A H2 H1) as (ns' & -> & _).
  exists (bool_decide (A = B)). split; [done|]. cbn.
  f_equal. apply bool_decide_ext. split; congruence.
Qed.

(** C5. [cmpFiles] does not read past the first difference. When the
    sizes differ it returns false after opening the files, without a single
    read. When the sizes agree and the first chunks differ it returns false
    after one read of each file. In general, when the files differ at
    position [i], the turns of the loop are at most the chunks up to and
    including the one position [i] is in, and no read is larger than a
    chunk. *)
Theorem cmpFiles_short_circuit fsys file1 file2 A B :
  fsys file1 = Some (Regular A) → fsys file2 = Some (Regular B) →
  (length A ≠ length B →
   cmpFiles fsys file1 file2
   = ([EvOpen file1; EvOpen file2; EvClose file2; EvClose file1], Ret false))
  ∧ (length A = length B → take CHUNK_SIZE A ≠ take CHUNK_SIZE B →
     ∃ n1 n2, n1 ≤ CHUNK_SIZE ∧ n2 ≤ CHUNK_SIZE
       ∧ cmpFiles fsys file1 file2
         = ([EvOpen file1; EvOpen file2; EvRead file1 n1; EvRead file2 n2;
             EvClose file2; EvClose file1], Ret false))
  ∧ (∀ i, length A = length B → A !! i ≠ B !! i →
     ∃ ns, cmpFiles fsys file1 file2
           = ([EvOpen file1; EvOpen file2] ++ reads file1 file2 ns
                ++ [EvClose file2; EvClose file1], Ret false)
         ∧ Forall (λ n, n.1 ≤ CHUNK_SIZE ∧ n.2 ≤ CHUNK_SIZE) ns
         ∧ length ns * CHUNK_SIZE ≤ i + CHUNK_SIZE).
Proof.
  intros H1 H2. pose proof CHUNK_SIZE_pos as HC.
  destruct (cmpFiles_regular fsys file1 file2 A B H1 H2)
    as (ns & -> & Hall & Hnone & Hpos & Hbound).
  split_and!.
  - intros Hl. rewrite (Hnone Hl). cbn. f_equal. f_equal.
    apply bool_decide_eq_false_2. by intros ->.
  - intros Hl Hne. specialize (Hpos Hl).
    assert (A ≠ B) as HAB by (by intros ->).
    destruct ns as [|[n1 n2] [|n ns]]; [simpl in Hpos; lia| |].
    + exists n1, n2. apply Forall_cons in Hall as [[? ?] _].
      split_and!; [done..|]. cbn. by rewrite bool_decide_eq_false_2.
    + destruct Hne. apply list_eq. intros i.
      destruct (decide (i < CHUNK_SIZE)) as [Hi|Hi].
      * rewrite !lookup_take_lt by done.
        destruct (decide (A !! i = B !! i)) as [|Hd]; [done|].
        specialize (Hbound i Hl Hd). simpl in Hbound. lia.
      * rewrite !lookup_take_ge by lia. done.
  - intros i Hl Hi. exists ns. split_and!; [|done|by apply Hbound].
    f_equal. f_equal. apply bool_decide_eq_false_2. by intros ->.
Qed.

(** ** The bound on the loop is never reached *)

Lemma cmpLoop_no_spin k : ∀ f1 f2 b1 b2,
  length b1 = CHUNK_SIZE →
  match inode f1 with
  | Regular data => length (drop (offset f1) data) ≤ k * CHUNK_SIZE
  | Directory _ _ => True
  end →
  outcome (cmpLoop (S k) f1 f2 b1 b2) ≠ Spin.
Proof.
  pose proof CHUNK_SIZE_pos as HC.
  induction k as [|k IH]; intros [name1 [A|sz es] o1] f2 b1 b2 Hb Hk;
    cbn [inode offset] in Hk; rewrite cmpLoop_S.
  - rewrite Read_regular by lia.
    destruct (drop o1 A) as [|x r1] eqn:E1; [|simpl in Hk; lia].
    destruct (Read f2 b2) as [[[n2 [[]|]] b2'] f2']; by cbn.
  - unfold Read at 1. cbn [inode].
    destruct (Read f2 b2) as [[[n2 [[]|]] b2'] f2']; by cbn.
  - rewrite Read_regular by lia.
    destruct (drop o1 A) as [|x r1] eqn:E1.
    { destruct (Read f2 b2) as [[[n2 [[]|]] b2'] f2']; by cbn. }
    cbv zeta.
    destruct (Read f2 b2) as [[[n2 err2] b2'] f2']. cbv beta iota.
    rewrite !emit_then. cbn [outcome snd].
    destruct (cmpChunk _ _ _ _ _ _); try done.
    apply IH.
    + rewrite length_fill; [lia|rewrite length_take; lia].
    + cbn [inode offset]. rewrite <- drop_drop, E1, length_drop, length_take.
      cbn [length] in *. lia.
  - unfold Read at 1. cbn [inode].
    destruct (Read f2 b2) as [[[n2 [[]|]] b2'] f2']; by cbn.
Qed.

Lemma outcome_bind {A B} (m : M A) (k : A → M B) :
  outcome (m ≫= k) = match outcome m with
                     | Ret a => outcome (k a)
                     | Halt code => Halt code
                     | Spin => Spin
                     end.
Proof. destruct m as [es [a| |]]; try done. by rewrite bind_events. Qed.

Lemma outcome_defer {A} ev (m : M A) : outcome (defer ev m) = outcome m.
Proof. unfold defer. rewrite outcome_bind. by destruct (outcome m). Qed.

(** [cmpFiles] returns or ends the process, whatever the two paths lead
    to. *)
Lemma cmpFiles_no_spin fsys file1 file2 : outcome (cmpFiles fsys file1 file2) ≠ Spin.
Proof.
  unfold cmpFiles, os_Open. rewrite outcome_bind.
  destruct (fsys file1) as [nd1|]; [|done]. cbn [emit checkErr].
  rewrite emit_then. cbn [outcome snd ret].
  rewrite outcome_defer, outcome_bind. cbn [File_Stat checkErr ret outcome snd inode].
  rewrite outcome_bind.
  destruct (fsys file2) as [nd2|]; [|done]. cbn [emit checkErr].
  rewrite emit_then. cbn [outcome snd ret].
  rewrite outcome_defer, outcome_bind. cbn [File_Stat checkErr ret outcome snd inode].
  destruct (negb _); [done|].
  apply cmpLoop_no_spin; [apply length_make|]. cbn [inode offset].
  destruct nd1 as [A|sz es]; [|done]. rewrite drop_0. cbn [info Size]. apply fuel_enough.
Qed.

(** ** The valid prefix of the buffers *)

Lemma fname_Read f b : fname (Read f b).2 = fname f.
Proof.
  destruct f as [name [A|sz es] o]; unfold Read; cbn [inode offset fname]; [|done].
  by destruct (take (length b) (drop o A)), b.
Qed.

Lemma Read_EOF f b n b' f' : Read f b = ((n, Some EOF), b', f') → n = 0.
Proof.
  destruct f as [name [A|sz es] o]; unfold Read; cbn [inode offset fname]; [|done].
  destruct (take (length b) (drop o A)), b; by intros [= <-].
Qed.

(** What a read does to the buffer, whatever the file: the bytes it
    delivered are at the front, the rest is untouched; and the buffer
    matters to nothing but itself. *)
Lemma Read_fill (f : File) (b : list byte) :
  ∃ dd err f', length dd ≤ length b
    ∧ Read f b = ((length dd, err), fill b dd, f')
    ∧ ∀ b', length b' = length b → Read f b' = ((length dd, err), fill b' dd, f').
Proof.
  destruct f as [name [A|sz es] o]; unfold Read; cbn [inode offset fname].
  - destruct b as [|x b].
    + exists [], None, (mkFile name (Regular A) (o + 0)). split_and!; [done|by rewrite take_0|].
      intros [|? ?] ?; [by rewrite take_0|done].
    + destruct (take (length (x :: b)) (drop o A)) as [|y dd] eqn:E.
      * exists [], (Some EOF), (mkFile name (Regular A) o). split_and!; [simpl; lia|done|].
        intros [|x' b'] Hl; [done|]. rewrite Hl, E. done.
      * exists (y :: dd), None, (mkFile name (Regular A) (o + length (y :: dd))).
        split_and!; [|done|].
        { rewrite <- E, length_take. lia. }
        intros [|x' b'] Hl; [done|]. rewrite Hl, E. done.
  - exists [], (Some EISDIR), (mkFile name (Directory sz es) o).
    split_and!; [simpl; lia|done|done].
Qed.

Lemma cmpChunk_fill (b dd1 dd2 : list byte) err1 err2 :
  length b = CHUNK_SIZE → length dd1 ≤ length b → length dd2 ≤ length b →
  cmpChunk (length dd1) err1 (length dd2) err2 (fill b dd1) (fill b dd2)
  = cmpChunk_validPrefix (length dd1) err1 (length dd2) err2 (fill b dd1) (fill b dd2)
  ∧ (cmpChunk (length dd1) err1 (length dd2) err2 (fill b dd1) (fill b dd2) = Next
     → fill b dd1 = fill b dd2)
  ∧ ∀ b', cmpChunk_validPrefix (length dd1) err1 (length dd2) err2 (fill b' dd1) (fill b' dd2)
          = cmpChunk_validPrefix (length dd1) err1 (length dd2) err2 (fill b dd1) (fill b dd2).
Proof.
  intros Hb H1 H2.
  destruct err1 as [[]|], err2 as [[]|]; try done.
  rewrite cmpChunk_data by (rewrite length_fill; lia).
  unfold cmpChunk_validPrefix.
  destruct (Nat.eqb_spec (length dd1) (length dd2)) as [Hl|Hl]; cbn [negb].
  - split_and!.
    + rewrite !take_fill.
      destruct (bytes_Equal dd1 dd2) eqn:E; cbn [negb].
      * apply bytes_Equal_true in E as ->. by rewrite bool_decide_eq_true_2.
      * apply bytes_Equal_false in E. rewrite bool_decide_eq_false_2; [done|].
        intros [_ Hf]. by apply fill_inj in Hf.
    + case_bool_decide; [tauto|done].
    + intros b'. by rewrite !take_fill.
  - split_and!; [|by rewrite bool_decide_eq_false_2 by tauto|done].
    rewrite bool_decide_eq_false_2; [done|tauto].
Qed.

Lemma cmpLoop_validPrefix_S fuel f1 f2 b1 b2 :
  cmpLoop_validPrefix (S fuel) f1 f2 b1 b2 =
  let '((n1, err1), b1', f1') := Read f1 b1 in
  let '((n2, err2), b2', f2') := Read f2 b2 in
  emit (EvRead (fname f1') n1);;
  emit (EvRead (fname f2') n2);;
  match cmpChunk_validPrefix n1 err1 n2 err2 b1' b2' with
  | Equal => ret true
  | Differ => ret false
  | Fatal => log_Fatal
  | Next => cmpLoop_validPrefix fuel f1' f2' b1' b2'
  end.
Proof. reflexivity. Qed.

Lemma cmpLoop_refines fuel : ∀ f1 f2 b,
  length b = CHUNK_SIZE →
  cmpLoop fuel f1 f2 b b = cmpLoop_validPrefix fuel f1 f2 b b.
Proof.
  induction fuel as [|fuel IH]; intros f1 f2 b Hb; [done|].
  rewrite cmpLoop_S, cmpLoop_validPrefix_S.
  destruct (Read_fill f1 b) as (dd1 & err1 & f1' & Hd1 & -> & _).
  destruct (Read_fill f2 b) as (dd2 & err2 & f2' & Hd2 & -> & _).
  cbv beta iota.
  destruct (cmpChunk_fill b dd1 dd2 err1 err2 Hb Hd1 Hd2) as (<- & Hnext & _).
  destruct (cmpChunk _ _ _ _ _ _) eqn:E; try done.
  rewrite <- (Hnext eq_refl). rewrite IH; [done|]. rewrite length_fill; lia.
Qed.

Lemma cmpLoop_validPrefix_stale fuel : ∀ f1 f2 b b',
  length b = CHUNK_SIZE → length b' = CHUNK_SIZE →
  cmpLoop_validPrefix fuel f1 f2 b b = cmpLoop_validPrefix fuel f1 f2 b' b'.
Proof.
  induction fuel as [|fuel IH]; intros f1 f2 b b' Hb Hb'; [done|].
  rewrite !cmpLoop_validPrefix_S.
  destruct (Read_fill f1 b) as (dd1 & err1 & f1' & Hd1 & -> & ->); [|lia].
  destruct (Read_fill f2 b) as (dd2 & err2 & f2' & Hd2 & -> & ->); [|lia].
  cbv beta iota.
  destruct (cmpChunk_fill b dd1 dd2 err1 err2 Hb Hd1 Hd2) as (Hsame & Hnext & Hst).
  destruct (cmpChunk_fill b' dd1 dd2 err1 err2 Hb') as (Hsame' & Hnext' & _); [lia..|].
  rewrite (Hst b') in Hsame' |- *.
  destruct (cmpChunk_validPrefix _ _ _ _ _ _) eqn:E; try done.
  rewrite <- (Hnext Hsame), <- (Hnext' Hsame').
  rewrite (IH _ _ (fill b dd1) (fill b' dd1)); [done|rewrite length_fill; lia..].
Qed.

(** C3. In every turn of the loop of [cmpFiles] the verdict is the one of
    the valid prefix of the buffers. The loop started on equal buffers, as
    [cmpFiles] starts it, is the loop that compares the bytes just read and
    nothing else; what the buffers held before does not change its result;
    a turn whose two reads both deliver [n] bytes, fewer than a chunk, goes
    on exactly when these bytes are equal; and a turn whose reads deliver
    different byte counts says the files differ: the loop returns false
    right after these two reads. *)
Theorem cmpFiles_valid_prefix_decides fuel f1 f2 (b : list byte) :
  length b = CHUNK_SIZE →
  cmpLoop fuel f1 f2 b b = cmpLoop_validPrefix fuel f1 f2 b b
  ∧ cmpLoop fuel f1 f2 b b = cmpLoop fuel f1 f2 (make CHUNK_SIZE) (make CHUNK_SIZE)
  ∧ (∀ dd1 dd2 : list byte,
       length dd1 = length dd2 → length dd1 < CHUNK_SIZE →
       cmpChunk (length dd1) None (length dd2) None (fill b dd1) (fill b dd2)
       = if bytes_Equal dd1 dd2 then Next else Differ)
  ∧ (∀ n1 n2 (b1 b2 : list byte),
       n1 ≠ n2 → cmpChunk n1 None n2 None b1 b2 = Differ)
  ∧ (∀ g1 g2 b1 b2 n1 err1 b1' g1' n2 err2 b2' g2',
       Read g1 b1 = ((n1, err1), b1', g1') →
       Read g2 b2 = ((n2, err2), b2', g2') →
       n1 ≠ n2 →
       err1 = None ∨ err1 = Some EOF → err2 = None ∨ err2 = Some EOF →
       cmpLoop (S fuel) g1 g2 b1 b2
       = ([EvRead (fname g1) n1; EvRead (fname g2) n2], Ret false)).
Proof.
  intros Hb. split_and!.
  - by apply cmpLoop_refines.
  - rewrite !cmpLoop_refines by (done || apply length_make).
    apply cmpLoop_validPrefix_stale; [done|apply length_make].
  - intros dd1 dd2 Hl Hlt.
    destruct (cmpChunk_fill b dd1 dd2 None None Hb) as (-> & _ & _); [lia..|].
    unfold cmpChunk_validPrefix. rewrite Hl, Nat.eqb_refl. cbn [negb].
    rewrite <- Hl at 1. rewrite !take_fill. by destruct (bytes_Equal dd1 dd2).
  - intros n1 n2 b1 b2 Hn. unfold cmpChunk.
    destruct (Nat.eqb_spec n1 n2); [done|]. done.
  - intros g1 g2 b1 b2 n1 err1 b1' g1' n2 err2 b2' g2' H1 H2 Hn He1 He2.
    pose proof (fname_Read g1 b1) as E1. pose proof (fname_Read g2 b2) as E2.
    rewrite cmpLoop_S, H1, H2. rewrite H1 in E1. rewrite H2 in E2.
    cbn [snd] in E1, E2. rewrite E1, E2, !emit_then.
    destruct He1 as [->| ->], He2 as [->| ->]; cbn [cmpChunk].
    + by destruct (Nat.eqb_spec n1 n2).
    + done.
    + done.
    + apply Read_EOF in H1, H2. congruence.
Qed.

(** ** The reconciliation of two listings *)

Lemma fileSet_snoc files f :
  fileSet (files ++ [f]) = <[Name f := mkd f false]> (fileSet files).
Proof. unfold fileSet. by rewrite foldl_app. Qed.

Lemma entryOf_snoc files f name :
  entryOf (files ++ [f]) name
  = if decide (Name f = name) then Some f else entryOf files name.
Proof.
  unfold entryOf. rewrite filter_app, filter_cons, filter_nil.
  case_decide; [by rewrite last_snoc|by rewrite app_nil_r].
Qed.

Lemma fileSet_lookup files name :
  fileSet files !! name = (λ f, mkd f false) <$> entryOf files name.
Proof.
  induction files as [|f files IH] using rev_ind; [done|].
  rewrite fileSet_snoc, entryOf_snoc, lookup_insert. by case_decide.
Qed.

Lemma entryOf_Some files name f :
  entryOf files name = Some f → f ∈ files ∧ Name f = name.
Proof.
  unfold entryOf. intros H%last_Some_elem_of.
  by apply list_elem_of_filter in H as [? ?].
Qed.

Lemma entryOf_is_Some files name :
  is_Some (entryOf files name) ↔ name ∈ names files.
Proof.
  induction files as [|f files IH] using rev_ind.
  - unfold entryOf, names. simpl. split; [by intros [? ?]|by intros ?%elem_of_nil].
  - rewrite entryOf_snoc. unfold names in *. rewrite fmap_app, elem_of_app. simpl.
    rewrite list_elem_of_singleton. case_decide as E.
    + split; [by right|by eexists].
    + rewrite IH. split; [by left|]. intros [?|?]; [done|congruence].
Qed.

Lemma entryOf_NoDup files f :
  NoDup (names files) → f ∈ files → entryOf files (Name f) = Some f.
Proof.
  induction files as [|g files IH] using rev_ind; [by intros _ ?%elem_of_nil|].
  unfold names. rewrite fmap_app, elem_of_app, list_elem_of_singleton. simpl.
  intros [Hnd [Hnotin _]]%NoDup_app Hf. rewrite entryOf_snoc.
  case_decide as E.
  - destruct Hf as [Hf| ->]; [|done].
    destruct (Hnotin (Name f)); [by apply list_elem_of_fmap_2|].
    rewrite E. by apply list_elem_of_singleton.
  - destruct Hf as [Hf| ->]; [by apply IH|done].
Qed.

Section Reconciliation.

Variable fsys : string → option node.
Variable path_Join : string → string → string.
Variables FgHiYellow FgHiMagenta : Color.

#[local] Abbreviation inFirst := (inFirst path_Join FgHiYellow FgHiMagenta).
#[local] Abbreviation inSecond := (inSecond FgHiYellow).
#[local] Abbreviation act := (act path_Join FgHiYellow FgHiMagenta).

Lemma inFirst_eq dir1 dir2 recursive (m : gmap string d) f :
  inFirst dir1 dir2 recursive m f
  = (act dir1 dir2 recursive (classify (entries_of m) f),
     Ret (match m !! Name f with
          | Some f2 => <[Name f := mkd (e f2) true]> m
          | None => m
          end)).
Proof.
  unfold inFirst, classify, entries_of.
  destruct (m !! Name f) as [[f2 c2]|]; cbn [fmap option_fmap option_map e]; [|done].
  destruct (IsDir f), (IsDir f2), recursive; done.
Qed.

Lemma range_inFirst dir1 dir2 recursive files1 : ∀ m : gmap string d,
  ∃ m', range (inFirst dir1 dir2 recursive) files1 m
        = ((classify (entries_of m) <$> files1) ≫= act dir1 dir2 recursive, Ret m')
      ∧ ∀ name, m' !! name = checked files1 m name.
Proof.
  induction files1 as [|f files1 IH]; intros m.
  - exists m. split; [done|]. intros name. unfold checked, names.
    rewrite fmap_nil, bool_decide_eq_false_2 by apply not_elem_of_nil.
    destruct (m !! name) as [[? ?]|]; [|done]. simpl. by rewrite orb_false_r.
  - cbn [range]. rewrite inFirst_eq, bind_events.
    set (m1 := match m !! Name f with
               | Some f2 => <[Name f := mkd (e f2) true]> m
               | None => m
               end).
    assert (∀ name, m1 !! name
              = (λ x, mkd (e x) (c x || bool_decide (name = Name f))) <$> m !! name) as Hm1.
    { intros name. unfold m1. destruct (m !! Name f) as [f2|] eqn:E.
      - rewrite lookup_insert. case_decide as En.
        + subst name. rewrite E. simpl. rewrite bool_decide_eq_true_2 by done.
          by rewrite orb_true_r.
        + rewrite bool_decide_eq_false_2 by done.
          destruct (m !! name) as [[? ?]|]; [|done]. simpl. by rewrite orb_false_r.
      - case_bool_decide as En.
        + subst name. by rewrite E.
        + destruct (m !! name) as [[? ?]|]; [|done]. simpl. by rewrite orb_false_r. }
    destruct (IH m1) as (m' & -> & Hm'). exists m'. split.
    + cbn [events outcome fst snd fmap list_fmap mbind list_bind]. do 3 f_equal.
      apply list_fmap_ext. intros _ g _. unfold classify, entries_of.
      rewrite Hm1. by destruct (m !! Name g).
    + intros name. rewrite Hm'. unfold checked. rewrite Hm1.
      destruct (m !! name) as [[? ?]|]; [|done]. simpl. f_equal. f_equal.
      rewrite <- orb_assoc. f_equal. unfold names. cbn [fmap list_fmap].
      apply eq_true_iff_eq. rewrite orb_true_iff, !bool_decide_eq_true, elem_of_cons.
      done.
Qed.

Lemma inSecond_eq dir2 (m : gmap string d) f :
  inSecond dir2 m f
  = (if default false (c <$> m !! Name f) then []
     else [EvPrint (onlyIn FgHiYellow dir2 (Name f))], Ret m).
Proof.
  unfold inSecond. by destruct (default false (c <$> m !! Name f)).
Qed.

Lemma range_inSecond dir2 (m : gmap string d) files2 :
  range (inSecond dir2) files2 m
  = (files2 ≫= (λ f, if default false (c <$> m !! Name f) then []
                      else [EvPrint (onlyIn FgHiYellow dir2 (Name f))]),
     Ret m).
Proof.
  induction files2 as [|f files2 IH]; [done|].
  cbn [range]. by rewrite inSecond_eq, bind_events, IH.
Qed.

Lemma os_ReadDir_dir name sz files :
  fsys name = Some (Directory sz files) →
  os_ReadDir fsys name = ([EvReadDir name], Ret files).
Proof. intros H. unfold os_ReadDir. by rewrite H. Qed.

Lemma second_loop dir1 dir2 recursive files1 files2 (m' : gmap string d) :
  (∀ name, m' !! name = checked files1 (fileSet files2) name) →
  ∀ l, l ⊆ files2 →
  l ≫= (λ f, if default false (c <$> m' !! Name f) then []
              else [EvPrint (onlyIn FgHiYellow dir2 (Name f))])
  = (OnlyInRight <$> filter (λ n, n ∉ names files1) (names l))
      ≫= act dir1 dir2 recursive.
Proof.
  intros Hm'. induction l as [|f l IH]; intros Hl; [done|].
  assert (f ∈ files2) as Hf by (apply Hl; left).
  rewrite bind_cons, IH by (intros x Hx; apply Hl; by right).
  unfold names. rewrite fmap_cons, filter_cons.
  rewrite Hm'. unfold checked. rewrite fileSet_lookup.
  destruct (entryOf files2 (Name f)) as [f2|] eqn:E.
  - cbn [fmap option_fmap option_map default c orb].
    case_bool_decide; case_decide; done.
  - assert (is_Some (entryOf files2 (Name f))) as [? ?]; [|congruence].
    apply entryOf_is_Some. by apply list_elem_of_fmap_2.
Qed.

Lemma diffDirs_trace dir1 dir2 recursive sz1 files1 sz2 files2 :
  fsys dir1 = Some (Directory sz1 files1) →
  fsys dir2 = Some (Directory sz2 files2) →
  diffDirs fsys path_Join FgHiYellow FgHiMagenta dir1 dir2 recursive
  = ([EvReadDir dir1; EvReadDir dir2]
       ++ (reconcile files1 files2 ≫= act dir1 dir2 recursive) ++ [EvDone],
     Ret tt).
Proof.
  intros H1 H2. unfold diffDirs.
  rewrite (os_ReadDir_dir _ _ _ H1), bind_events.
  rewrite (os_ReadDir_dir _ _ _ H2), bind_events.
  destruct (range_inFirst dir1 dir2 recursive files1 (fileSet files2))
    as (m' & -> & Hm').
  rewrite bind_events, range_inSecond, bind_events.
  cbn [events outcome fst snd emit]. f_equal. cbn [app]. do 2 f_equal.
  unfold reconcile. rewrite bind_app, <- app_assoc. f_equal; [|f_equal].
  - f_equal. apply list_fmap_ext. intros _ f _. unfold classify, entries_of.
    rewrite fileSet_lookup. by destruct (entryOf files2 (Name f)).
  - by apply (second_loop dir1 dir2 recursive files1 files2 m' Hm').
Qed.

End Reconciliation.




Lemma entryOf_None files name : entryOf files name = None ↔ name ∉ names files.
Proof.
  rewrite <- entryOf_is_Some, <- eq_None_not_Some. done.
Qed.

Lemma reconcile_OnlyInLeft files1 files2 name :
  OnlyInLeft name ∈ reconcile files1 files2 ↔ name ∈ names files1 ∧ name ∉ names files2.
Proof.
  unfold reconcile. rewrite elem_of_app, !list_elem_of_fmap. split.
  - intros [(f & Hc & Hf)|(? & [=] & _)]. unfold classify in Hc.
    destruct (entryOf files2 (Name f)) eqn:E; [done|]. injection Hc as ->.
    split; [by apply list_elem_of_fmap_2|by apply entryOf_None].
  - intros [(f & -> & Hf)%list_elem_of_fmap Hn%entryOf_None]. left. exists f.
    unfold classify. by rewrite Hn.
Qed.

Lemma reconcile_OnlyInRight files1 files2 name :
  OnlyInRight name ∈ reconcile files1 files2 ↔ name ∈ names files2 ∧ name ∉ names files1.
Proof.
  unfold reconcile. rewrite elem_of_app, !list_elem_of_fmap. split.
  - intros [(f & Hc & Hf)|(? & [= <-] & Hn)].
    + unfold classify in Hc. by destruct (entryOf files2 (Name f)).
    + by apply list_elem_of_filter in Hn as [? ?].
  - intros [? ?]. right. exists name. split; [done|]. by apply list_elem_of_filter.
Qed.

Lemma reconcile_Matched files1 files2 name k :
  Matched name k ∈ reconcile files1 files2
  ↔ ∃ f f2, f ∈ files1 ∧ Name f = name ∧ entryOf files2 name = Some f2
            ∧ k = kindOf (IsDir f) (IsDir f2).
Proof.
  unfold reconcile. rewrite elem_of_app, !list_elem_of_fmap. split.
  - intros [(f & Hc & Hf)|(? & [=] & _)]. unfold classify in Hc.
    destruct (entryOf files2 (Name f)) as [f2|] eqn:E; [|done].
    injection Hc as -> ->. by exists f, f2.
  - intros (f & f2 & Hf & <- & E & ->). left. exists f. split; [|done].
    unfold classify. by rewrite E.
Qed.


Lemma nameOf_reconcile files1 files2 :
  nameOf <$> reconcile files1 files2
  = names files1 ++ filter (λ n, n ∉ names files1) (names files2).
Proof.
  unfold reconcile. rewrite fmap_app, <- !list_fmap_compose. f_equal.
  - apply list_fmap_ext. intros _ f _. unfold classify. simpl.
    by destruct (entryOf files2 (Name f)).
  - by rewrite list_fmap_id.
Qed.

Lemma NoDup_reconcile files1 files2 :
  NoDup (names files1) → NoDup (names files2) →
  NoDup (nameOf <$> reconcile files1 files2).
Proof.
  intros H1 H2. rewrite nameOf_reconcile. apply NoDup_app. split_and!; [done| |].
  - intros n Hn [Hnot _]%list_elem_of_filter. done.
  - by apply NoDup_filter.
Qed.


(** ** The report lines *)

Lemma list_ascii_of_string_app (s1 s2 : string) :
  String.list_ascii_of_string (s1 +:+ s2)
  = String.list_ascii_of_string s1 ++ String.list_ascii_of_string s2.
Proof. induction s1 as [|a s1 IH]; [done|]. simpl. by rewrite IH. Qed.

Lemma last_letter_differs {A} (l k s : list A) (x y : A) :
  x ≠ y → (l ++ [x]) ++ s ≠ (k ++ [y]) ++ s.
Proof.
  intros Hxy H. apply app_inj_2 in H as [H _]; [|done].
  apply app_inj_2 in H as [_ H]; [congruence|done].
Qed.

Lemma isAWhile_distinguishable FgHiMagenta (p1 p2 q1 q2 : string) :
  isAWhile FgHiMagenta p1 "directory" p2 "file"
  ≠ isAWhile FgHiMagenta q1 "file" q2 "directory".
Proof.
  unfold isAWhile, magenta, SprintFunc. intros H.
  apply (f_equal String.list_ascii_of_string) in H.
  rewrite !list_ascii_of_string_app in H.
  change (String.list_ascii_of_string "file")
    with (String.list_ascii_of_string "fil" ++ String.list_ascii_of_string "e") in H.
  change (String.list_ascii_of_string "directory")
    with (String.list_ascii_of_string "director" ++ String.list_ascii_of_string "y") in H.
  rewrite !app_assoc in H.
  rewrite <- (app_assoc _ (String.list_ascii_of_string (reset FgHiMagenta))
                (String.list_ascii_of_string nl)) in H.
  symmetry in H.
  rewrite <- (app_assoc _ (String.list_ascii_of_string (reset FgHiMagenta))
                (String.list_ascii_of_string nl)) in H.
  by apply last_letter_differs in H.
Qed.

Lemma classify_in_reconcile files1 files2 f :
  f ∈ files1 → classify (entryOf files2) f ∈ reconcile files1 files2.
Proof.
  intros Hf. unfold reconcile. apply elem_of_app. left. by apply list_elem_of_fmap_2.
Qed.

(** C9. The report of a type mismatch tells the order. For a name that is
    a directory on the left and a file on the right, the line says that the
    left path is a directory while the right path is a file; for the
    opposite pair it says the reverse; and no line of the first form is a
    line of the second form, whatever the paths. *)
Theorem type_mismatch_order_sensitive fsys path_Join FgHiYellow FgHiMagenta
    dir1 dir2 recursive sz1 files1 sz2 files2 f f2 :
  fsys dir1 = Some (Directory sz1 files1) →
  fsys dir2 = Some (Directory sz2 files2) →
  f ∈ files1 → entryOf files2 (Name f) = Some f2 →
  (IsDir f = true → IsDir f2 = false →
   EvPrint (path_Join dir1 (Name f) +:+ " is a "
            +:+ SprintFunc FgHiMagenta "directory" +:+ " while "
            +:+ path_Join dir2 (Name f) +:+ " is a "
            +:+ SprintFunc FgHiMagenta "file" +:+ nl)
   ∈ events (diffDirs fsys path_Join FgHiYellow FgHiMagenta dir1 dir2 recursive))
  ∧ (IsDir f = false → IsDir f2 = true →
     EvPrint (path_Join dir1 (Name f) +:+ " is a "
              +:+ SprintFunc FgHiMagenta "file" +:+ " while "
              +:+ path_Join dir2 (Name f) +:+ " is a "
              +:+ SprintFunc FgHiMagenta "directory" +:+ nl)
     ∈ events (diffDirs fsys path_Join FgHiYellow FgHiMagenta dir1 dir2 recursive))
  ∧ (∀ p1 p2 q1 q2,
       isAWhile FgHiMagenta p1 "directory" p2 "file"
       ≠ isAWhile FgHiMagenta q1 "file" q2 "directory").
Proof.
  intros H1 H2 Hf E.
  rewrite (diffDirs_trace fsys path_Join FgHiYellow FgHiMagenta _ _ _ sz1 files1 sz2 files2)
    by done.
  cbn [events fst].
  pose proof (classify_in_reconcile files1 files2 f Hf) as Hcl.
  unfold classify in Hcl. rewrite E in Hcl.
  split_and!.
  - intros Hd Hd2. rewrite Hd, Hd2 in Hcl.
    apply elem_of_app. right. apply elem_of_app. left.
    apply list_elem_of_bind. eexists. split; [|exact Hcl]. simpl. left.
  - intros Hd Hd2. rewrite Hd, Hd2 in Hcl.
    apply elem_of_app. right. apply elem_of_app. left.
    apply list_elem_of_bind. eexists. split; [|exact Hcl]. simpl. left.
  - apply isAWhile_distinguishable.
Qed.


(** ** The process *)

Section Process.

Variable fsys : string → option node.
Variable path_Join : string → string → string.
Variables FgHiRed FgHiYellow FgHiMagenta : Color.

#[local] Abbreviation step := (step fsys path_Join FgHiRed FgHiYellow FgHiMagenta).
#[local] Abbreviation run := (run fsys path_Join FgHiRed FgHiYellow FgHiMagenta).

Lemma run_app schedule1 schedule2 s :
  run (schedule1 ++ schedule2) s = run schedule1 s ≫= run schedule2.
Proof.
  revert s. induction schedule1 as [|who schedule1 IH]; intros s; [done|].
  simpl. destruct (step who s) as [s'|]; [apply IH|done].
Qed.

(** A [main] that starts nothing runs alone: the pool stays empty, the
    history is a prefix of its events, and the process can only end with the
    status of [main]. *)
Lemma run_alone schedule : ∀ es r h s,
  forallb plain es = true →
  run schedule (mkState 0 (es, r) [] h None) = Some s →
  pool s = [] ∧ wg s = 0%Z
  ∧ ∃ es1 es2, es = es1 ++ es2 ∧ history s = h ++ ((λ ev, (0, ev)) <$> es1)
      ∧ mainG s = (es2, r)
      ∧ (status s = None ∨ (es2 = [] ∧ status s = exitCode r)).
Proof.
  induction schedule as [|who schedule IH]; intros es r h s Hplain Hrun.
  - injection Hrun as <-. split_and!; [done..|].
    exists [], es. split_and!; [done|by rewrite app_nil_r|done|by left].
  - simpl in Hrun. destruct who as [|i]; [|done].
    destruct es as [|ev es]; cbn in Hrun.
    + destruct r as [[]|code|]; cbn in Hrun; [| |done].
      * destruct schedule; [|done]. injection Hrun as <-.
        split_and!; [done..|]. exists [], []. split_and!; [done|by rewrite app_nil_r|done|by right].
      * destruct schedule; [|done]. injection Hrun as <-.
        split_and!; [done..|]. exists [], []. split_and!; [done|by rewrite app_nil_r|done|by right].
    + cbn in Hplain. apply andb_true_iff in Hplain as [Hev Hplain].
      assert (step 0 (mkState 0 (ev :: es, r) [] h None)
              = Some (mkState 0 (es, r) [] (h ++ [(0, ev)]) None)) as Hstep
        by (by destruct ev).
      unfold step in Hstep. cbn in Hstep. rewrite Hstep in Hrun. cbn in Hrun.
      destruct (IH _ _ _ _ Hplain Hrun) as (Hp & Hw & es1 & es2 & -> & Hh & Hm & Hs).
      split_and!; [done..|]. exists (ev :: es1), es2.
      split_and!; [done| |done..]. rewrite Hh, <- app_assoc. done.
Qed.

Lemma run_to_exit es (code : Z) h :
  forallb plain es = true →
  run (replicate (S (length es)) 0) (mkState 0 (es, Halt code) [] h None)
  = Some (mkState 0 ([], Halt code) [] (h ++ ((λ ev, (0, ev)) <$> es)) (Some code)).
Proof.
  revert h. induction es as [|ev es IH]; intros h Hplain.
  - cbn. by rewrite app_nil_r.
  - cbn in Hplain. apply andb_true_iff in Hplain as [Hev Hplain].
    assert (step 0 (mkState 0 (ev :: es, Halt code) [] h None)
            = Some (mkState 0 (es, Halt code) [] (h ++ [(0, ev)]) None)) as Hstep
      by (by destruct ev).
    cbn [length replicate]. change (run (0 :: ?l) ?s) with (step 0 s ≫= run l).
    rewrite Hstep. cbn [mbind option_bind]. rewrite IH by done.
    by rewrite <- app_assoc.
Qed.

End Process.

Lemma main_usage fsys (help recursive : bool) args :
  help = true ∨ length args ≠ 2 →
  main fsys help recursive args
  = ([EvPrint ("Usage: diff [flags] path1 path2" +:+ nl); EvPrintDefaults], Halt 0).
Proof.
  intros H. unfold main.
  assert (help || negb (length args =? 2) = true) as ->; [|done].
  destruct H as [->|H]; [done|]. apply orb_true_iff. right.
  by destruct (Nat.eqb_spec (length args) 2).
Qed.

Lemma main_mixed fsys (recursive : bool) path1 path2 nd1 nd2 :
  fsys path1 = Some nd1 → fsys path2 = Some nd2 →
  Mode_IsDir (info nd1) ≠ Mode_IsDir (info nd2) →
  main fsys false recursive [path1; path2]
  = ([EvStat path1; EvStat path2;
      EvPrint ("Cannot compare between a file and a directory." +:+ nl)], Halt 1).
Proof.
  intros H1 H2 Hne. unfold main, os_Stat. cbn. rewrite H1, H2. cbn.
  by destruct (Mode_IsDir (info nd1)), (Mode_IsDir (info nd2)).
Qed.

(** C6. With a number of positional arguments other than two, [main] does
    what it does when help is requested: it prints the usage and the flags
    and exits with status 0. The process ends with status 0, starts no
    goroutine, and the usage is all it ever does. *)
Theorem wrong_argument_count_is_help fsys path_Join FgHiRed FgHiYellow FgHiMagenta
    (help recursive : bool) (args : list string) :
  length args ≠ 2 →
  main fsys help recursive args
  = ([EvPrint ("Usage: diff [flags] path1 path2" +:+ nl); EvPrintDefaults], Halt 0)
  ∧ (∀ recursive' args',
       main fsys true recursive' args' = main fsys help recursive args)
  ∧ run fsys path_Join FgHiRed FgHiYellow FgHiMagenta [0; 0; 0]
      (init fsys help recursive args)
    = Some (mkState 0 ([], Halt 0) []
              [(0, EvPrint ("Usage: diff [flags] path1 path2" +:+ nl));
               (0, EvPrintDefaults)] (Some 0%Z))
  ∧ (∀ s, reachable fsys path_Join FgHiRed FgHiYellow FgHiMagenta help recursive args s →
       pool s = []
       ∧ (status s = None ∨ status s = Some 0%Z)
       ∧ ∀ who ev, (who, ev) ∈ history s →
           ev = EvPrint ("Usage: diff [flags] path1 path2" +:+ nl)
           ∨ ev = EvPrintDefaults).
Proof.
  intros Hargs.
  pose proof (main_usage fsys help recursive args (or_intror Hargs)) as Hmain.
  split_and!.
  - done.
  - intros recursive' args'. rewrite Hmain. by apply main_usage; left.
  - unfold init. rewrite Hmain. by apply (run_to_exit fsys path_Join FgHiRed FgHiYellow FgHiMagenta [_; _] 0%Z []).
  - intros s [schedule Hrun]. unfold init in Hrun. rewrite Hmain in Hrun.
    apply run_alone in Hrun as (Hp & _ & es1 & es2 & Hes & Hh & _ & Hs); [|done].
    split_and!; [done| |].
    + destruct Hs as [?|[_ ?]]; [by left|by right].
    + intros who ev Hin. rewrite Hh in Hin. cbn in Hin.
      apply list_elem_of_fmap in Hin as (ev' & [= -> ->] & Hin).
      assert (ev' ∈ es1 ++ es2) as Hin' by (apply elem_of_app; by left).
      rewrite <- Hes in Hin'.
      repeat (apply elem_of_cons in Hin' as [->|Hin']); [by left|by right|].
      by apply elem_of_nil in Hin'.
Qed.

(** C7. With a file and a directory as the two paths (and help not
    requested), [main] stats both, prints that it cannot compare a file and
    a directory, and exits with status 1. The process starts no goroutine
    and opens or reads no file: the two stats and the message are all it
    ever does. *)
Theorem file_against_directory_is_rejected fsys path_Join FgHiRed FgHiYellow FgHiMagenta
    (recursive : bool) path1 path2 nd1 nd2 :
  fsys path1 = Some nd1 → fsys path2 = Some nd2 →
  Mode_IsDir (info nd1) ≠ Mode_IsDir (info nd2) →
  main fsys false recursive [path1; path2]
  = ([EvStat path1; EvStat path2;
      EvPrint ("Cannot compare between a file and a directory." +:+ nl)], Halt 1)
  ∧ run fsys path_Join FgHiRed FgHiYellow FgHiMagenta [0; 0; 0; 0]
      (init fsys false recursive [path1; path2])
    = Some (mkState 0 ([], Halt 1) []
              [(0, EvStat path1); (0, EvStat path2);
               (0, EvPrint ("Cannot compare between a file and a directory." +:+ nl))]
              (Some 1%Z))
  ∧ (∀ s, reachable fsys path_Join FgHiRed FgHiYellow FgHiMagenta
            false recursive [path1; path2] s →
       pool s = []
       ∧ (status s = None ∨ status s = Some 1%Z)
       ∧ ∀ who ev, (who, ev) ∈ history s →
           ev = EvStat path1 ∨ ev = EvStat path2
           ∨ ev = EvPrint ("Cannot compare between a file and a directory." +:+ nl)).
Proof.
  intros H1 H2 Hne.
  pose proof (main_mixed fsys recursive path1 path2 nd1 nd2 H1 H2 Hne) as Hmain.
  split_and!.
  - done.
  - unfold init. rewrite Hmain. by apply (run_to_exit fsys path_Join FgHiRed FgHiYellow FgHiMagenta [_; _; _] 1%Z []).
  - intros s [schedule Hrun]. unfold init in Hrun. rewrite Hmain in Hrun.
    apply run_alone in Hrun as (Hp & _ & es1 & es2 & Hes & Hh & _ & Hs); [|done].
    split_and!; [done| |].
    + destruct Hs as [?|[_ ?]]; [by left|by right].
    + intros who ev Hin. rewrite Hh in Hin. cbn in Hin.
      apply list_elem_of_fmap in Hin as (ev' & [= -> ->] & Hin).
      assert (ev' ∈ es1 ++ es2) as Hin' by (apply elem_of_app; by left).
      rewrite <- Hes in Hin'.
      repeat (apply elem_of_cons in Hin' as [->|Hin']); [tauto..|].
      by apply elem_of_nil in Hin'.
Qed.

(** ** The shape of the bodies *)

Lemma paired_app_both (a b : list event) :
  (paired a = true → paired (a ++ b) = paired b)
  ∧ (∀ ev, paired (ev :: a) = true → paired ((ev :: a) ++ b) = paired b).
Proof.
  induction a as [|x a [IH1 IH2]].
  - split; [done|]. intros ev H. by destruct ev.
  - split; [apply IH2|]. intros ev H.
    destruct ev; try (by apply (IH2 x)); try done.
    destruct x; try done. by apply IH1.
Qed.

Lemma paired_app (a b : list event) :
  paired a = true → paired b = true → paired (a ++ b) = true.
Proof. intros Ha Hb. by rewrite (proj1 (paired_app_both a b) Ha). Qed.

Lemma tailOk_app_both (a b : list event) r :
  (paired a = true → tailOk (a ++ b) r ↔ tailOk b r)
  ∧ (∀ ev, paired (ev :: a) = true → tailOk ((ev :: a) ++ b) r ↔ tailOk b r).
Proof.
  induction a as [|x a [IH1 IH2]].
  - split; [done|]. intros ev H. by destruct ev.
  - split; [apply IH2|]. intros ev H.
    destruct ev; try (by apply (IH2 x)); try done.
    destruct x; try done. by apply IH1.
Qed.

Lemma tailOk_app (a b : list event) r :
  paired a = true → tailOk b r → tailOk (a ++ b) r.
Proof. intros Ha Hb. by apply (proj1 (tailOk_app_both a b r) Ha). Qed.

Lemma tailOk_not_owed es r : tailOk es r → owed (es, r) = 0%Z.
Proof. by destruct es as [|[] ?]. Qed.

Lemma mainTail_not_owed es r : mainTail es → owed (es, r) = 0%Z.
Proof. by destruct es as [|[] ?]. Qed.

Lemma pairedM_ret {A} (a : A) : pairedM (mret a).
Proof. done. Qed.

Lemma pairedM_emit ev : plain ev = true → pairedM (emit ev).
Proof. by destruct ev. Qed.

Lemma pairedM_go t : pairedM (emit EvAdd;; emit (EvGo t)).
Proof. done. Qed.

Lemma pairedM_checkErr {A} (r : A + error) : pairedM (checkErr r).
Proof. by destruct r. Qed.

Lemma pairedM_bind {A B} (m : M A) (k : A → M B) :
  pairedM m → (∀ a, pairedM (k a)) → pairedM (m ≫= k).
Proof.
  destruct m as [es [a| |]]; unfold pairedM; cbn [events fst]; intros Hm Hk; try done.
  rewrite bind_events. cbn [events fst]. apply paired_app; [done|apply Hk].
Qed.

Lemma bodyOk_bind {A} (m : M A) (k : A → M unit) :
  pairedM m → (∀ a, bodyOk (k a)) → bodyOk (m ≫= k).
Proof.
  destruct m as [es [a| |]]; unfold pairedM, bodyOk; cbn [events fst]; intros Hm Hk.
  - rewrite bind_events. cbn [events outcome fst snd]. apply tailOk_app; [done|apply Hk].
  - cbn. rewrite <- (app_nil_r es). by apply tailOk_app.
  - cbn. rewrite <- (app_nil_r es). by apply tailOk_app.
Qed.

Lemma bodyOk_done : bodyOk (emit EvDone).
Proof. done. Qed.

Lemma pairedM_cmpLoop fuel : ∀ f1 f2 b1 b2, pairedM (cmpLoop fuel f1 f2 b1 b2).
Proof.
  induction fuel as [|fuel IH]; intros f1 f2 b1 b2; [done|].
  rewrite cmpLoop_S.
  destruct (Read f1 b1) as [[[n1 err1] b1'] f1'].
  destruct (Read f2 b2) as [[[n2 err2] b2'] f2'].
  apply pairedM_bind; [by apply pairedM_emit|]. intros _.
  apply pairedM_bind; [by apply pairedM_emit|]. intros _.
  by destruct (cmpChunk n1 err1 n2 err2 b1' b2').
Qed.

Lemma pairedM_defer {A} ev (m : M A) : plain ev = true → pairedM m → pairedM (defer ev m).
Proof.
  intros Hev Hm. unfold defer. apply pairedM_bind; [done|]. intros a.
  apply pairedM_bind; [by apply pairedM_emit|]. intros _. apply pairedM_ret.
Qed.

Lemma pairedM_cmpFiles fsys file1 file2 : pairedM (cmpFiles fsys file1 file2).
Proof.
  unfold cmpFiles, os_Open.
  apply pairedM_bind.
  { apply pairedM_bind; [by apply pairedM_emit|]. intros _. apply pairedM_checkErr. }
  intros f1. apply pairedM_defer; [done|].
  apply pairedM_bind; [apply pairedM_checkErr|]. intros stat1.
  apply pairedM_bind.
  { apply pairedM_bind; [by apply pairedM_emit|]. intros _. apply pairedM_checkErr. }
  intros f2. apply pairedM_defer; [done|].
  apply pairedM_bind; [apply pairedM_checkErr|]. intros stat2.
  destruct (negb _); [done|apply pairedM_cmpLoop].
Qed.

Lemma pairedM_range {A S} (body : S → A → M S) (l : list A) :
  (∀ s x, pairedM (body s x)) → ∀ s, pairedM (range body l s).
Proof.
  intros Hbody. induction l as [|x l IH]; intros s; [done|].
  cbn [range]. apply pairedM_bind; [apply Hbody|apply IH].
Qed.

Section Bodies.

Variable fsys : string → option node.
Variable path_Join : string → string → string.
Variables FgHiRed FgHiYellow FgHiMagenta : Color.

Lemma bodyOk_diffFiles file1 file2 : bodyOk (diffFiles fsys FgHiRed file1 file2).
Proof.
  unfold diffFiles. apply bodyOk_bind; [apply pairedM_cmpFiles|]. intros same.
  apply bodyOk_bind; [|intros _; apply bodyOk_done].
  destruct (negb same); [by apply pairedM_emit|apply pairedM_ret].
Qed.

Lemma pairedM_os_ReadDir name : pairedM (os_ReadDir fsys name).
Proof.
  unfold os_ReadDir. apply pairedM_bind; [by apply pairedM_emit|]. intros _.
  apply pairedM_checkErr.
Qed.

Lemma bodyOk_diffDirs dir1 dir2 recursive :
  bodyOk (diffDirs fsys path_Join FgHiYellow FgHiMagenta dir1 dir2 recursive).
Proof.
  unfold diffDirs.
  apply bodyOk_bind; [apply pairedM_os_ReadDir|]. intros files1.
  apply bodyOk_bind; [apply pairedM_os_ReadDir|]. intros files2.
  apply bodyOk_bind.
  { apply pairedM_range. intros m f. rewrite inFirst_eq. unfold pairedM.
    cbn [events fst]. destruct (classify _ f) as [?|?|? []]; try done.
    by destruct recursive. }
  intros m'. apply bodyOk_bind; [|intros _; apply bodyOk_done].
  apply pairedM_range. intros m f. rewrite inSecond_eq. unfold pairedM.
  cbn [events fst]. by destruct (default false _).
Qed.

Lemma bodyOk_body t :
  bodyOk (body fsys path_Join FgHiRed FgHiYellow FgHiMagenta t).
Proof. destruct t; [apply bodyOk_diffFiles|apply bodyOk_diffDirs]. Qed.

Lemma mainTail_main help recursive args :
  mainTail (events (main fsys help recursive args)).
Proof.
  destruct (decide (help = true ∨ length args ≠ 2)) as [H|H].
  { by rewrite main_usage. }
  assert (help = false) as -> by (destruct help; tauto).
  destruct args as [|path1 [|path2 [|? ?]]]; try (simpl in H; destruct H; right; lia).
  unfold main, os_Stat. cbn.
  destruct (fsys path1) as [nd1|]; [|done]. cbn.
  destruct (fsys path2) as [nd2|]; [|done]. cbn.
  by destruct (Mode_IsDir (info nd1)), (Mode_IsDir (info nd2)).
Qed.

End Bodies.

(** ** The invariant of the wait group *)

Lemma weight_nonneg g : (0 ≤ weight g)%Z.
Proof.
  unfold weight, owed. destruct (signalled g), (rest g) as [[|[] ?] ?]; simpl; lia.
Qed.

Lemma pending_nonneg l : (0 ≤ pending l)%Z.
Proof.
  induction l as [|g l IH]; simpl; [lia|]. pose proof (weight_nonneg g). lia.
Qed.

Lemma pending_app l g : pending (l ++ [g]) = (pending l + weight g)%Z.
Proof. induction l as [|x l IH]; simpl; lia. Qed.

Lemma pending_alter (f : goroutine → goroutine) l i g :
  l !! i = Some g →
  pending (alter f i l) = (pending l - weight g + weight (f g))%Z.
Proof.
  revert i. induction l as [|x l IH]; intros [|i] H; try done.
  - injection H as ->. simpl. lia.
  - specialize (IH i H). unfold alter in *. simpl in *. rewrite IH. lia.
Qed.

Lemma pending_zero l : pending l = 0%Z → Forall (λ g, weight g = 0%Z) l.
Proof.
  induction l as [|g l IH]; simpl; [constructor|]. intros H.
  pose proof (weight_nonneg g). pose proof (pending_nonneg l).
  constructor; [lia|apply IH; lia].
Qed.

Lemma weight_zero g :
  (if signalled g then rest g = ([], Ret tt) else goOk (rest g)) →
  weight g = 0%Z → finished g.
Proof.
  unfold weight, finished. destruct (signalled g); [done|].
  intros _ H. unfold owed in H. destruct (rest g) as [[|[] ?] ?]; simpl in H; lia.
Qed.

Lemma preserve_exit code s : invariant s → invariant (exit code s).
Proof. intros [? ? ? ?]. by constructor. Qed.

Section Invariant.

Variable fsys : string → option node.
Variable path_Join : string → string → string.
Variables FgHiRed FgHiYellow FgHiMagenta : Color.

#[local] Abbreviation body := (body fsys path_Join FgHiRed FgHiYellow FgHiMagenta).
#[local] Abbreviation perform := (perform fsys path_Join FgHiRed FgHiYellow FgHiMagenta).
#[local] Abbreviation step := (step fsys path_Join FgHiRed FgHiYellow FgHiMagenta).
#[local] Abbreviation run := (run fsys path_Join FgHiRed FgHiYellow FgHiMagenta).

Lemma weight_new who t : weight (mkGoroutine who t (body t) false) = 1%Z.
Proof.
  unfold weight. cbn [signalled rest].
  pose proof (bodyOk_body fsys path_Join FgHiRed FgHiYellow FgHiMagenta t) as H.
  unfold bodyOk in H. destruct (body t) as [es r]. by rewrite (tailOk_not_owed es r).
Qed.

Lemma goOk_new who t :
  goOk (rest (mkGoroutine who t (body t) false)).
Proof.
  pose proof (bodyOk_body fsys path_Join FgHiRed FgHiYellow FgHiMagenta t) as H.
  unfold bodyOk, goOk in *. cbn [rest]. destruct (body t) as [[|[] ?] r]; done.
Qed.

(** A step of [main]. *)
Lemma preserve_main s ev es r :
  invariant s → mainG s = (ev :: es, r) → (ev = EvWait → wg s = 0%Z) →
  invariant (perform 0 ev (advance 0 (es, r) s)).
Proof.
  intros [Hwg Hmain Hpool Hwait] Hm Hw.
  destruct s as [n m l h st]. cbn [wg mainG pool history status] in *. subst m.
  assert ((0, EvWait) ∈ h → False) as Hnot.
  { intros Hin. by destruct (Hwait Hin) as [? _]. }
  unfold mainOk in Hmain. cbn [fst snd] in Hmain.
  destruct ev; simpl in Hmain; unfold perform, advance;
    cbn [wg mainG pool history status];
    try (constructor; cbn [wg mainG pool history status];
         [ rewrite Hwg; unfold owed at 1; cbn [fst];
           by rewrite (mainTail_not_owed es r Hmain)
         | unfold mainOk; cbn [fst]; by destruct es as [|[] ?]
         | done
         | intros [Hin|Hin%list_elem_of_singleton]%elem_of_app; [by destruct Hnot|done] ]).
  - (* wg.Add(1) *)
    destruct es as [|[] es]; try done. constructor; cbn [wg mainG pool history status].
    + rewrite Hwg. unfold owed. cbn [fst]. lia.
    + done.
    + done.
    + intros [Hin|Hin%list_elem_of_singleton]%elem_of_app; [by destruct Hnot|done].
  - (* go *)
    constructor; cbn [wg mainG pool history status].
    + rewrite Hwg, pending_app, weight_new. unfold owed at 1. cbn [fst].
      rewrite (mainTail_not_owed es r Hmain). lia.
    + unfold mainOk. cbn [fst]. by destruct es as [|[] ?].
    + apply Forall_app. split; [done|]. constructor; [apply goOk_new|constructor].
    + intros [Hin|Hin%list_elem_of_singleton]%elem_of_app; [by destruct Hnot|done].
  - (* wg.Done() *)
    done.
  - (* wg.Wait() *)
    subst es. specialize (Hw eq_refl). rewrite Hw in Hwg |- *.
    constructor; cbn [wg mainG pool history status].
    + unfold owed in *. cbn [fst] in *. lia.
    + done.
    + done.
    + intros _. split; [done|].
      unfold owed in Hwg. cbn [fst] in Hwg.
      assert (pending l = 0%Z) as Hz by lia. apply pending_zero in Hz.
      apply Forall_forall. intros g Hg.
      apply weight_zero; [by apply (proj1 (Forall_forall _ _) Hpool)|].
      by apply (proj1 (Forall_forall _ _) Hz).
Qed.

Lemma alter_alter {A} (f1 f2 : A → A) (l : list A) i :
  alter f2 i (alter f1 i l) = alter (f2 ∘ f1) i l.
Proof.
  revert i. induction l as [|x l IH]; intros [|i]; try done.
  unfold alter in *. simpl. by rewrite IH.
Qed.

Lemma pending_lookup_le l i g : l !! i = Some g → (weight g ≤ pending l)%Z.
Proof.
  revert i. induction l as [|x l IH]; intros [|i] H; try done.
  - injection H as ->. simpl. pose proof (pending_nonneg l). lia.
  - simpl in *. specialize (IH i H). pose proof (weight_nonneg x). lia.
Qed.

(** A step of a goroutine of the pool. *)
Lemma preserve_pool s i g ev es r :
  invariant s → pool s !! i = Some g → rest g = (ev :: es, r) →
  invariant (perform (S i) ev (advance (S i) (es, r) s)).
Proof.
  intros [Hwg Hmain Hpool Hwait] Hg Hrest.
  destruct s as [n m l h st]. cbn [wg mainG pool history status] in *.
  pose proof (Forall_lookup_1 _ _ _ _ Hpool Hg) as Hok. cbn beta in Hok.
  destruct g as [pa t rs sg]. cbn [rest signalled] in *. subst rs.
  destruct sg; [done|]. unfold goOk in Hok. cbn [fst snd] in Hok.
  assert ((0, EvWait) ∈ h → False) as Hnot.
  { intros Hin. destruct (Hwait Hin) as [_ Hfin].
    by destruct (Forall_lookup_1 _ _ _ _ Hfin Hg) as [? ?]. }
  assert (∀ ev', (0, EvWait) ∈ h ++ [(S i, ev')] → False) as Hnot'.
  { intros ev' [Hin|Hin%list_elem_of_singleton]%elem_of_app; [by apply Hnot|done]. }
  assert ((0 ≤ owed m)%Z) as Hom by (unfold owed; destruct m as [[|[] ?] ?]; simpl; lia).
  set (upd := λ g0 : goroutine,
         mkGoroutine (parent g0) (what g0) (es, r) (signalled g0)).
  destruct ev; simpl in Hok; unfold perform, advance;
    cbn [wg mainG pool history status]; fold upd;
    try (constructor; cbn [wg mainG pool history status];
         [ rewrite Hwg, (pending_alter upd l i _ Hg); unfold weight, upd, owed;
           cbn [signalled rest fst parent what];
           change (match es with EvGo _ :: _ => 1%Z | _ => 0%Z end) with (owed (es, r));
           rewrite (tailOk_not_owed es r Hok); lia
         | done
         | apply Forall_alter; [done|]; intros x Hx _; rewrite Hg in Hx;
           injection Hx as <-; unfold upd, goOk; cbn [signalled rest fst snd];
           by destruct es as [|[] ?]
         | intros Hin; by destruct (Hnot' _ Hin) ]).
  - (* wg.Add(1) *)
    destruct es as [|[] es]; try done. constructor; cbn [wg mainG pool history status].
    + rewrite Hwg, (pending_alter upd l i _ Hg). unfold weight, upd, owed.
      cbn [signalled rest fst parent what]. lia.
    + done.
    + apply Forall_alter; [done|]. intros x Hx _. rewrite Hg in Hx.
      injection Hx as <-. done.
    + intros Hin. by destruct (Hnot' _ Hin).
  - (* go *)
    constructor; cbn [wg mainG pool history status].
    + rewrite Hwg, pending_app, weight_new, (pending_alter upd l i _ Hg).
      unfold weight, upd, owed. cbn [signalled rest fst parent what].
      change (match es with EvGo _ :: _ => 1%Z | _ => 0%Z end) with (owed (es, r)).
      rewrite (tailOk_not_owed es r Hok). lia.
    + done.
    + apply Forall_app. split; [|constructor; [apply goOk_new|constructor]].
      apply Forall_alter; [done|]. intros x Hx _. rewrite Hg in Hx.
      injection Hx as <-. unfold upd, goOk. cbn [signalled rest fst snd].
      by destruct es as [|[] ?].
    + intros Hin. by destruct (Hnot' _ Hin).
  - (* wg.Done() *)
    destruct Hok as [-> ->].
    pose proof (pending_lookup_le l i _ Hg) as Hle.
    unfold weight, owed in Hle. cbn [signalled rest fst] in Hle.
    destruct (Z.ltb_spec (n - 1) 0) as [Hneg|_]; [lia|].
    constructor; cbn [wg mainG pool history status mark].
    + rewrite alter_alter, Hwg, (pending_alter _ l i _ Hg).
      unfold weight, upd. cbn [signalled rest parent what compose].
      assert (owed ([], Ret tt) = 0%Z) as E0 by done.
      assert (owed ([EvDone], Ret tt) = 0%Z) as E1 by done.
      rewrite ?E0, ?E1. lia.
    + done.
    + rewrite alter_alter. apply Forall_alter; [done|]. intros x Hx _.
      rewrite Hg in Hx. by injection Hx as <-.
    + intros Hin. by destruct (Hnot' _ Hin).
  - (* wg.Wait() *)
    done.
Qed.

End Invariant.

Section Reachable.

Variable fsys : string → option node.
Variable path_Join : string → string → string.
Variables FgHiRed FgHiYellow FgHiMagenta : Color.

#[local] Abbreviation step' := (step fsys path_Join FgHiRed FgHiYellow FgHiMagenta).
#[local] Abbreviation run' := (run fsys path_Join FgHiRed FgHiYellow FgHiMagenta).

Lemma step_invariant who s s' : invariant s → step' who s = Some s' → invariant s'.
Proof.
  intros Hinv Hstep. unfold step in Hstep.
  destruct (status s); [done|].
  destruct (running s who) as [[[|ev es] r]|] eqn:Hrun; [| |done].
  - destruct r as [u|code|]; [|injection Hstep as <-; by apply preserve_exit|done].
    destruct who; [|done]. injection Hstep as <-. by apply preserve_exit.
  - assert (s' = perform fsys path_Join FgHiRed FgHiYellow FgHiMagenta who ev
                   (advance who (es, r) s)
            ∧ (ev = EvWait → wg s = 0%Z)) as [-> Hw].
    { destruct ev; try (by injection Hstep as <-).
      destruct (Z.eqb_spec (wg s) 0); [by injection Hstep as <-|done]. }
    destruct who as [|i]; cbn [running] in Hrun.
    + injection Hrun as Hm. by apply preserve_main.
    + destruct (pool s !! i) as [g|] eqn:Hg; [|done]. injection Hrun as Hr.
      by apply (preserve_pool _ _ _ _ _ _ i g).
Qed.

Lemma run_invariant schedule : ∀ s s',
  invariant s → run' schedule s = Some s' → invariant s'.
Proof.
  induction schedule as [|who schedule IH]; intros s s' Hinv Hrun.
  - by injection Hrun as <-.
  - simpl in Hrun. destruct (step' who s) as [s1|] eqn:Hstep; [|done].
    apply (IH s1 s'); [|done]. by apply (step_invariant who s).
Qed.

Lemma init_invariant help recursive args : invariant (init fsys help recursive args).
Proof.
  pose proof (mainTail_main fsys help recursive args) as H.
  unfold init. destruct (main fsys help recursive args) as [es r] eqn:E.
  cbn [events fst] in H. constructor; cbn [wg mainG pool history status].
  - by rewrite (mainTail_not_owed es r H).
  - unfold mainOk. cbn [fst]. by destruct es as [|[] ?].
  - constructor.
  - by intros ?%elem_of_nil.
Qed.

Lemma reachable_invariant help recursive args s :
  reachable fsys path_Join FgHiRed FgHiYellow FgHiMagenta help recursive args s →
  invariant s.
Proof.
  intros [schedule Hrun]. apply (run_invariant schedule _ _ (init_invariant _ _ _) Hrun).
Qed.

End Reachable.

(** C4, as the code has it. The wait group is one counter for the whole
    process. In every state the process can reach, the counter is the
    number of goroutines that have not called [wg.Done] yet, plus the
    [wg.Add(1)] whose [go] is still to come; it is never negative; a
    goroutine that has called [wg.Done] has nothing left to do; and once
    [main] has passed [wg.Wait], every goroutine ever started, at any depth,
    has finished. *)
Theorem wait_passes_after_every_task_is_done
    fsys path_Join FgHiRed FgHiYellow FgHiMagenta help recursive args s :
  reachable fsys path_Join FgHiRed FgHiYellow FgHiMagenta help recursive args s →
  wg s = (owed (mainG s) + pending (pool s))%Z
  ∧ (0 ≤ wg s)%Z
  ∧ (∀ g, g ∈ pool s → signalled g = true → rest g = ([], Ret tt))
  ∧ ((0, EvWait) ∈ history s → Forall finished (pool s)).
Proof.
  intros Hr. apply reachable_invariant in Hr as [Hwg Hmain Hpool Hwait].
  split_and!.
  - done.
  - rewrite Hwg. pose proof (pending_nonneg (pool s)).
    unfold owed. destruct (mainG s) as [[|[] ?] ?]; simpl; lia.
  - intros g Hg Hs. pose proof (proj1 (Forall_forall _ _) Hpool g Hg) as H.
    cbn beta in H. by rewrite Hs in H.
  - intros Hin. by destruct (Hwait Hin).
Qed.

(** A recursive run on the small tree, to its end: four goroutines, all
    finished when [main] returns. *)
Lemma wait_passes_after_every_task_is_done_witness :
  ∃ s, reachable demo_fs demo_Join noColor noColor noColor false true ["l"; "r"] s
       ∧ status s = Some 0%Z ∧ length (pool s) = 4
       ∧ Forall finished (pool s).
Proof.
  destruct (run demo_fs demo_Join noColor noColor noColor
              (replicate 4 0 ++ replicate 10 1 ++ replicate 8 2 ++ replicate 5 3
                 ++ replicate 8 4 ++ [0; 0])
              (init demo_fs false true ["l"; "r"])) as [s|] eqn:E;
    [|vm_compute in E; discriminate].
  exists s.
  assert (reachable demo_fs demo_Join noColor noColor noColor false true ["l"; "r"] s)
    as Hr by (by eexists).
  split; [done|].
  destruct (wait_passes_after_every_task_is_done _ _ _ _ _ _ _ _ s Hr) as (_ & _ & _ & Hw).
  vm_compute in E. injection E as <-.
  split; [reflexivity|]. split; [reflexivity|].
  apply Hw. apply (bool_decide_unpack _). vm_compute. exact I.
Defined.

(** C4, as the specification has it, fails. On the small tree the task for
    the two roots runs to its [wg.Done] before the comparison of [a.txt]
    that it started has taken a single step. *)
Lemma done_before_children :
  ¬ done_after_children demo_fs demo_Join noColor noColor noColor false false ["l"; "r"].
Proof.
  intros H.
  destruct (run demo_fs demo_Join noColor noColor noColor
              (replicate 4 0 ++ replicate 9 1)
              (init demo_fs false false ["l"; "r"])) as [s|] eqn:E;
    [|vm_compute in E; discriminate].
  assert (reachable demo_fs demo_Join noColor noColor noColor false false ["l"; "r"] s)
    as Hr by (by eexists).
  specialize (H s 0 (mkGoroutine 0 (DiffDirs "l" "r" false) ([], Ret tt) true) 1
                (mkGoroutine 1 (DiffFiles "l/a.txt" "r/a.txt")
                   (body demo_fs demo_Join noColor noColor noColor
                      (DiffFiles "l/a.txt" "r/a.txt")) false) Hr).
  vm_compute in E. injection E as <-.
  destruct H as [H _]; [reflexivity..|discriminate].
Qed.

(** ** The theorems at work on the small tree *)

Lemma cmpFiles_true_iff_identical_witness :
  demo_fs "l/a.txt" = Some (Regular [x01; x02; x03])
  ∧ demo_fs "r/a.txt" = Some (Regular [x01; x02; x04])
  ∧ outcome (cmpFiles demo_fs "l/a.txt" "r/a.txt") = Ret false.
Proof.
  split; [reflexivity|]. split; [reflexivity|].
  destruct (cmpFiles_true_iff_identical demo_fs "l/a.txt" "r/a.txt"
              [x01; x02; x03] [x01; x02; x04] eq_refl eq_refl) as (_ & Hfalse & _).
  apply Hfalse. intros [_ H]. specialize (H 2). discriminate H.
Defined.

Lemma cmpFiles_symmetric_witness :
  demo_fs "l/a.txt" = Some (Regular [x01; x02; x03])
  ∧ demo_fs "r/a.txt" = Some (Regular [x01; x02; x04])
  ∧ ∃ v : bool, outcome (cmpFiles demo_fs "l/a.txt" "r/a.txt") = Ret v
                ∧ outcome (cmpFiles demo_fs "r/a.txt" "l/a.txt") = Ret v.
Proof.
  split; [reflexivity|]. split; [reflexivity|].
  exact (cmpFiles_symmetric demo_fs "l/a.txt" "r/a.txt"
           [x01; x02; x03] [x01; x02; x04] eq_refl eq_refl).
Defined.

Lemma cmpFiles_short_circuit_witness :
  demo_fs "l/x" = Some (Regular [])
  ∧ demo_fs "r/y" = Some (Regular [x01])
  ∧ cmpFiles demo_fs "l/x" "r/y"
    = ([EvOpen "l/x"; EvOpen "r/y"; EvClose "r/y"; EvClose "l/x"], Ret false).
Proof.
  split; [reflexivity|]. split; [reflexivity|].
  apply (cmpFiles_short_circuit demo_fs "l/x" "r/y" [] [x01] eq_refl eq_refl).
  simpl. lia.
Defined.

Lemma cmpFiles_valid_prefix_decides_witness :
  length (make CHUNK_SIZE) = CHUNK_SIZE
  ∧ cmpLoop 3 (mkFile "l/a.txt" (Regular [x01; x02; x03]) 0)
      (mkFile "r/a.txt" (Regular [x01; x02; x04]) 0) (make CHUNK_SIZE) (make CHUNK_SIZE)
    = cmpLoop_validPrefix 3 (mkFile "l/a.txt" (Regular [x01; x02; x03]) 0)
        (mkFile "r/a.txt" (Regular [x01; x02; x04]) 0) (make CHUNK_SIZE) (make CHUNK_SIZE).
Proof.
  split; [apply length_make|].
  apply (cmpFiles_valid_prefix_decides 3 (mkFile "l/a.txt" (Regular [x01; x02; x03]) 0)
           (mkFile "r/a.txt" (Regular [x01; x02; x04]) 0) (make CHUNK_SIZE)
           (length_make CHUNK_SIZE)).
Defined.


Lemma type_mismatch_order_sensitive_witness :
  EvPrint "l/b is a directory while r/b is a file
"
  ∈ events (diffDirs demo_fs demo_Join noColor noColor "l" "r" true).
Proof.
  exact (proj1 (type_mismatch_order_sensitive demo_fs demo_Join noColor noColor
                  "l" "r" true 4096 _ 4096 _ (mkDirEntry "b" true) (mkDirEntry "b" false)
                  eq_refl eq_refl
                  (list_elem_of_further _ _ _ (list_elem_of_here _ _)) eq_refl)
           eq_refl eq_refl).
Defined.

Lemma wrong_argument_count_is_help_witness :
  length ["l"] ≠ 2
  ∧ main demo_fs false true ["l"]
    = ([EvPrint ("Usage: diff [flags] path1 path2" +:+ nl); EvPrintDefaults], Halt 0).
Proof.
  assert (length ["l"] ≠ 2) as H by (simpl; lia).
  split; [exact H|].
  exact (proj1 (wrong_argument_count_is_help demo_fs demo_Join noColor noColor noColor
                  false true ["l"] H)).
Defined.

Lemma file_against_directory_is_rejected_witness :
  main demo_fs false true ["l"; "r/a.txt"]
  = ([EvStat "l"; EvStat "r/a.txt";
      EvPrint ("Cannot compare between a file and a directory." +:+ nl)], Halt 1).
Proof.
  assert (Mode_IsDir (info (Directory 4096 [mkDirEntry "a.txt" false; mkDirEntry "b" true;
                                            mkDirEntry "sub" true; mkDirEntry "x" false]))
          ≠ Mode_IsDir (info (Regular [x01; x02; x04]))) as H by (simpl; discriminate).
  exact (proj1 (file_against_directory_is_rejected demo_fs demo_Join noColor noColor noColor
                  true "l" "r/a.txt" _ _ eq_refl eq_refl H)).
Defined.

(** ** What [cmpFiles] touches *)

Lemma allM_ret {A} P (a : A) : allM P (mret a).
Proof. constructor. Qed.

Lemma allM_emit (P : event → Prop) ev : P ev → allM P (emit ev).
Proof. intros H. by constructor. Qed.

Lemma allM_bind {A B} P (m : M A) (k : A → M B) :
  allM P m → (∀ a, allM P (k a)) → allM P (m ≫= k).
Proof.
  destruct m as [es [a| |]]; unfold allM; cbn [events fst]; intros Hm Hk; try done.
  rewrite bind_events. cbn [events fst]. apply Forall_app. split; [done|apply Hk].
Qed.

Lemma allM_checkErr {A} (P : event → Prop) (r : A + error) : P EvLog → allM P (checkErr r).
Proof. intros H. destruct r; [constructor|by constructor]. Qed.

Lemma allM_defer {A} (P : event → Prop) ev (m : M A) : P ev → allM P m → allM P (defer ev m).
Proof.
  intros Hev Hm. unfold defer. apply allM_bind; [done|]. intros a.
  apply allM_bind; [by apply allM_emit|]. intros _. apply allM_ret.
Qed.


Lemma cmpLoop_touches fuel : ∀ f1 f2 b1 b2,
  allM (touches (fname f1) (fname f2)) (cmpLoop fuel f1 f2 b1 b2).
Proof.
  induction fuel as [|fuel IH]; intros f1 f2 b1 b2; [constructor|].
  rewrite cmpLoop_S.
  pose proof (fname_Read f1 b1) as E1. pose proof (fname_Read f2 b2) as E2.
  destruct (Read f1 b1) as [[[n1 err1] b1'] f1'].
  destruct (Read f2 b2) as [[[n2 err2] b2'] f2']. cbn [snd] in E1, E2.
  apply allM_bind; [apply allM_emit; by left|]. intros _.
  apply allM_bind; [apply allM_emit; by right|]. intros _.
  destruct (cmpChunk n1 err1 n2 err2 b1' b2'); try constructor; try done.
  rewrite <- E1, <- E2. apply IH.
Qed.

Lemma allM_bind_ret {A B} P (m : M A) (k : A → M B) :
  allM P m → (∀ a, outcome m = Ret a → allM P (k a)) → allM P (m ≫= k).
Proof.
  destruct m as [es [a| |]]; unfold allM; cbn [events outcome fst snd]; intros Hm Hk;
    try done.
  rewrite bind_events. cbn [events fst]. apply Forall_app. split; [done|by apply Hk].
Qed.

Lemma os_Open_fname fsys name f : outcome (os_Open fsys name) = Ret f → fname f = name.
Proof. unfold os_Open. destruct (fsys name); cbn; [by intros [= <-]|done]. Qed.

Lemma cmpFiles_touches fsys file1 file2 :
  allM (touches file1 file2) (cmpFiles fsys file1 file2).
Proof.
  unfold cmpFiles.
  assert (∀ name, name = file1 ∨ name = file2 →
            allM (touches file1 file2) (os_Open fsys name)) as Hopen.
  { intros name Hn. unfold os_Open.
    apply allM_bind; [by apply allM_emit|]. intros _. by apply allM_checkErr. }
  apply allM_bind_ret; [apply Hopen; by left|]. intros f1 Hf1%os_Open_fname.
  apply allM_defer; [by left|].
  apply allM_bind; [by apply allM_checkErr|]. intros stat1.
  apply allM_bind_ret; [apply Hopen; by right|]. intros f2 Hf2%os_Open_fname.
  apply allM_defer; [by right|].
  apply allM_bind; [by apply allM_checkErr|]. intros stat2.
  destruct (negb _); [constructor|]. rewrite <- Hf1, <- Hf2. apply cmpLoop_touches.
Qed.

Lemma diffFiles_touches fsys FgHiRed file1 file2 ev :
  ev ∈ events (diffFiles fsys FgHiRed file1 file2) →
  match ev with
  | EvOpen path | EvRead path _ | EvClose path => path = file1 ∨ path = file2
  | EvLog | EvPrint _ | EvDone => True
  | _ => False
  end.
Proof.
  intros Hev.
  assert (allM (λ ev, match ev with
                      | EvOpen path | EvRead path _ | EvClose path =>
                          path = file1 ∨ path = file2
                      | EvLog | EvPrint _ | EvDone => True
                      | _ => False
                      end) (diffFiles fsys FgHiRed file1 file2)) as H.
  { unfold diffFiles. apply allM_bind.
    - eapply Forall_impl; [apply cmpFiles_touches|]. by intros [].
    - intros same. apply allM_bind; [|intros _; by apply allM_emit].
      destruct (negb same); [by apply allM_emit|apply allM_ret]. }
  by apply (proj1 (Forall_forall _ _) H).
Qed.

(** ** Where goroutines and events come from *)

Section ProvenanceFacts.

Variable fsys : string → option node.
Variable path_Join : string → string → string.
Variables FgHiRed FgHiYellow FgHiMagenta : Color.
Variable allowed : task → Prop.
Variable main0 : M unit.

#[local] Abbreviation body' := (body fsys path_Join FgHiRed FgHiYellow FgHiMagenta).
#[local] Abbreviation perform' := (perform fsys path_Join FgHiRed FgHiYellow FgHiMagenta).
#[local] Abbreviation step' := (step fsys path_Join FgHiRed FgHiYellow FgHiMagenta).
#[local] Abbreviation run' := (run fsys path_Join FgHiRed FgHiYellow FgHiMagenta).
#[local] Abbreviation provenance' :=
  (provenance fsys path_Join FgHiRed FgHiYellow FgHiMagenta allowed main0).

Hypothesis main_starts : ∀ t, starts main0 t → allowed t.
Hypothesis body_starts : ∀ t t', allowed t → starts (body' t) t' → allowed t'.

Lemma provenance_exit code s : provenance' s → provenance' (exit code s).
Proof. intros [? ? ?]. by constructor. Qed.

(** The pool after an event: the goroutine that moved has a new rest, a
    [go] adds a goroutine at the end, and [what] stays. *)
Lemma pool_perform who ev es r s :
  ∃ l' tl,
    pool (perform' who ev (advance who (es, r) s)) = l' ++ tl
    ∧ length l' = length (pool s)
    ∧ (tl = [] ∨ ∃ t, ev = EvGo t ∧ tl = [mkGoroutine who t (body' t) false])
    ∧ ∀ j g, pool s !! j = Some g →
        ∃ g', l' !! j = Some g' ∧ what g' = what g
              ∧ (rest g' = rest g ∨ (who = S j ∧ rest g' = (es, r))).
Proof.
  destruct s as [n m l h st].
  assert (∀ f : goroutine → goroutine,
            (∀ g, what (f g) = what g) →
            (∀ g, rest (f g) = rest g ∨ rest (f g) = (es, r)) →
            ∀ i j g, l !! j = Some g →
              ∃ g', alter f i l !! j = Some g' ∧ what g' = what g
                    ∧ (rest g' = rest g ∨ (S i = S j ∧ rest g' = (es, r)))) as Halter.
  { intros f Hw Hr i j g Hg. destruct (decide (i = j)) as [->|Hne].
    - exists (f g). rewrite list_lookup_alter_eq, Hg. split_and!; [done..|].
      destruct (Hr g); [by left|by right].
    - exists g. rewrite list_lookup_alter_ne by done. by split_and!; [..|left]. }
  destruct who as [|i]; unfold perform, advance; cbn [wg mainG pool history status].
  - destruct ev; cbn [wg mainG pool history status mark];
      try (exists l, []; rewrite app_nil_r; split_and!; [done|done|by left|];
           intros j g Hg; exists g; by split_and!; [..|left]).
    + exists l, [mkGoroutine 0 t (body' t) false]. split_and!; [done|done|right; by eexists|].
      intros j g Hg. exists g. by split_and!; [..|left].
    + destruct (n - 1 <? 0)%Z; cbn [pool];
        (exists l, []; rewrite app_nil_r; split_and!; [done|done|by left|];
         intros j g Hg; exists g; by split_and!; [..|left]).
  - set (upd := λ g : goroutine, mkGoroutine (parent g) (what g) (es, r) (signalled g)).
    destruct ev; cbn [wg mainG pool history status mark];
      try (eexists _, []; rewrite app_nil_r; split_and!;
           [done|apply length_alter|by left|];
           apply Halter; [done|intros; by right]).
    + eexists _, [mkGoroutine (S i) t (body' t) false].
      split_and!; [done|apply length_alter|right; by eexists|].
      apply Halter; [done|intros; by right].
    + destruct (n - 1 <? 0)%Z; cbn [pool].
      * eexists _, []. rewrite app_nil_r. split_and!; [done|apply length_alter|by left|].
        apply Halter; [done|intros; by right].
      * rewrite alter_alter. eexists _, []. rewrite app_nil_r.
        split_and!; [done|apply length_alter|by left|].
        apply Halter; [done|intros; by right].
Qed.

Lemma history_perform who ev s :
  history (perform' who ev s) = history s ++ [(who, ev)].
Proof. destruct ev; try done. unfold perform. by destruct (_ <? _)%Z. Qed.

Lemma mainG_perform who ev s : mainG (perform' who ev s) = mainG s.
Proof. destruct ev; try done. unfold perform. by destruct (_ <? _)%Z. Qed.

Lemma history_advance who m s : history (advance who m s) = history s.
Proof. by destruct who. Qed.

Lemma mainG_advance who m s :
  mainG (advance who m s) = match who with O => m | S _ => mainG s end.
Proof. by destruct who. Qed.

Lemma provenance_event who ev es r s :
  provenance' s → running s who = Some (ev :: es, r) →
  provenance' (perform' who ev (advance who (es, r) s)).
Proof.
  intros [Hmain Hpool Hhist] Hrun.
  destruct (pool_perform who ev es r s) as (l' & tl & Hp & Hlen & Htl & Hl').
  assert (ev ∈ match who with
               | O => events main0
               | S i => match pool s !! i with
                        | Some g => events (body' (what g))
                        | None => []
                        end
               end) as Hev.
  { destruct who as [|i]; cbn [running] in Hrun.
    - injection Hrun as Hm. destruct Hmain as [pre ->]. rewrite Hm.
      apply elem_of_app. right. left.
    - destruct (pool s !! i) as [g|] eqn:Hg; [|done]. injection Hrun as Hr.
      destruct (Forall_lookup_1 _ _ _ _ Hpool Hg) as [_ [pre ->]]. rewrite Hr.
      apply elem_of_app. right. left. }
  constructor.
  - rewrite mainG_perform, mainG_advance. destruct who as [|i]; [|done].
    cbn [running] in Hrun. injection Hrun as Hm. destruct Hmain as [pre Hpre].
    exists (pre ++ [ev]). rewrite Hpre, Hm. cbn [fst]. by rewrite <- app_assoc.
  - rewrite Hp. apply Forall_app. split.
    + apply Forall_lookup. intros j g' Hg'.
      assert (is_Some (pool s !! j)) as [g Hg].
      { apply lookup_lt_is_Some. rewrite <- Hlen. by apply lookup_lt_Some in Hg'. }
      destruct (Hl' j g Hg) as (g'' & Hg'' & Hw & Hr). rewrite Hg' in Hg''.
      injection Hg'' as <-.
      destruct (Forall_lookup_1 _ _ _ _ Hpool Hg) as [Ha [pre Hpre]].
      rewrite Hw. split; [done|].
      destruct Hr as [->|[-> ->]]; [by exists pre|].
      cbn [running] in Hrun. rewrite Hg in Hrun. injection Hrun as Hr.
      exists (pre ++ [ev]). rewrite Hpre, Hr. cbn [fst]. by rewrite <- app_assoc.
    + destruct Htl as [->|(t & -> & ->)]; [constructor|].
      constructor; [|constructor]. cbn [what rest]. split; [|by exists []].
      destruct who as [|i]; [by apply main_starts|].
      destruct (pool s !! i) as [g|] eqn:Hg; [|by apply elem_of_nil in Hev].
      destruct (Forall_lookup_1 _ _ _ _ Hpool Hg) as [Ha _].
      by apply (body_starts (what g)).
  - intros who' ev'. rewrite history_perform, history_advance.
    intros [Hin|Hin%list_elem_of_singleton]%elem_of_app.
    + specialize (Hhist who' ev' Hin). destruct who' as [|i]; [done|].
      destruct Hhist as (g & Hg & Hin'). destruct (Hl' i g Hg) as (g' & Hg' & Hw & _).
      exists g'. rewrite Hp, (lookup_app_l_Some _ _ _ _ Hg'), Hw. done.
    + injection Hin as -> ->. destruct who as [|i]; [done|].
      destruct (pool s !! i) as [g|] eqn:Hg; [|by apply elem_of_nil in Hev].
      destruct (Hl' i g Hg) as (g' & Hg' & Hw & _).
      exists g'. rewrite Hp, (lookup_app_l_Some _ _ _ _ Hg'), Hw. done.
Qed.

Lemma provenance_step who s s' : provenance' s → step' who s = Some s' → provenance' s'.
Proof.
  intros Hinv Hstep. unfold step in Hstep.
  destruct (status s); [done|].
  destruct (running s who) as [[[|ev es] r]|] eqn:Hrun; [| |done].
  - destruct r as [u|code|]; [|injection Hstep as <-; by apply provenance_exit|done].
    destruct who; [|done]. injection Hstep as <-. by apply provenance_exit.
  - assert (s' = perform' who ev (advance who (es, r) s)) as ->.
    { destruct ev; try (by injection Hstep as <-).
      destruct (wg s =? 0)%Z; [by injection Hstep as <-|done]. }
    by apply provenance_event.
Qed.

Lemma provenance_run schedule : ∀ s s',
  provenance' s → run' schedule s = Some s' → provenance' s'.
Proof.
  induction schedule as [|who schedule IH]; intros s s' Hinv Hrun.
  - by injection Hrun as <-.
  - simpl in Hrun. destruct (step' who s) as [s1|] eqn:Hstep; [|done].
    apply (IH s1 s'); [|done]. by apply (provenance_step who s).
Qed.

End ProvenanceFacts.

Lemma provenance_reachable fsys path_Join FgHiRed FgHiYellow FgHiMagenta
    (allowed : task → Prop) help recursive args s :
  (∀ t, starts (main fsys help recursive args) t → allowed t) →
  (∀ t t', allowed t →
     starts (body fsys path_Join FgHiRed FgHiYellow FgHiMagenta t) t' → allowed t') →
  reachable fsys path_Join FgHiRed FgHiYellow FgHiMagenta help recursive args s →
  provenance fsys path_Join FgHiRed FgHiYellow FgHiMagenta allowed
    (main fsys help recursive args) s.
Proof.
  intros Hmain Hbody [schedule Hrun].
  refine (provenance_run fsys path_Join FgHiRed FgHiYellow FgHiMagenta allowed
            (main fsys help recursive args) Hmain Hbody schedule _ _ _ Hrun).
  unfold init. constructor; cbn [mainG pool history].
  - by exists [].
  - constructor.
  - by intros ? ? ?%elem_of_nil.
Qed.

(** ** A run that is not recursive *)

Lemma act_no_descent path_Join FgHiYellow FgHiMagenta dir1 dir2 files1 files2 cl ev :
  cl ∈ reconcile files1 files2 →
  ev ∈ act path_Join FgHiYellow FgHiMagenta dir1 dir2 false cl →
  match ev with
  | EvGo (DiffDirs _ _ _) | EvOpen _ | EvRead _ _ | EvReadDir _ => False
  | EvGo (DiffFiles file1 file2) =>
      filePair path_Join dir1 dir2 files1 files2 (DiffFiles file1 file2)
  | _ => True
  end.
Proof.
  intros Hcl Hev. destruct cl as [n|n|n k]; simpl in Hev.
  - by apply list_elem_of_singleton in Hev as ->.
  - by apply list_elem_of_singleton in Hev as ->.
  - apply reconcile_Matched in Hcl as (f & f2 & Hf & <- & E & ->).
    apply entryOf_Some in E as [Hf2 HN].
    destruct (IsDir f) eqn:Ef, (IsDir f2) eqn:Ef2; simpl in Hev;
      repeat (apply elem_of_cons in Hev as [->|Hev]); try done;
      try (by apply elem_of_nil in Hev).
    by exists f, f2.
Qed.

Lemma diffDirs_no_descent fsys path_Join FgHiYellow FgHiMagenta
    dir1 dir2 sz1 files1 sz2 files2 ev :
  fsys dir1 = Some (Directory sz1 files1) →
  fsys dir2 = Some (Directory sz2 files2) →
  ev ∈ events (diffDirs fsys path_Join FgHiYellow FgHiMagenta dir1 dir2 false) →
  match ev with
  | EvGo (DiffDirs _ _ _) | EvOpen _ | EvRead _ _ => False
  | EvGo (DiffFiles file1 file2) =>
      filePair path_Join dir1 dir2 files1 files2 (DiffFiles file1 file2)
  | EvReadDir path => path = dir1 ∨ path = dir2
  | _ => True
  end.
Proof.
  intros H1 H2.
  rewrite (diffDirs_trace fsys path_Join FgHiYellow FgHiMagenta _ _ _ sz1 files1 sz2 files2)
    by done.
  cbn [events fst].
  intros [Hev|[Hev|Hev]%elem_of_app]%elem_of_app.
  - repeat (apply elem_of_cons in Hev as [->|Hev]); [by left|by right|].
    by apply elem_of_nil in Hev.
  - apply list_elem_of_bind in Hev as (cl & Hev & Hcl).
    pose proof (act_no_descent path_Join FgHiYellow FgHiMagenta dir1 dir2
                  files1 files2 cl ev Hcl Hev) as H.
    by destruct ev as [| | | | | | | | |[]| |].
  - by apply list_elem_of_singleton in Hev as ->.
Qed.

Lemma main_directories fsys (recursive : bool) dir1 dir2 sz1 files1 sz2 files2 :
  fsys dir1 = Some (Directory sz1 files1) →
  fsys dir2 = Some (Directory sz2 files2) →
  main fsys false recursive [dir1; dir2]
  = ([EvStat dir1; EvStat dir2; EvAdd; EvGo (DiffDirs dir1 dir2 recursive); EvWait],
     Ret tt).
Proof. intros H1 H2. unfold main, os_Stat. cbn. rewrite H1, H2. done. Qed.

(** C8. In a run that is not recursive, a name that is a directory in both
    listings gets one "Common subdirectories" line and nothing else: the
    events of [diffDirs] are that line between the events for the other
    names. No event of [diffDirs] starts the comparison of two directories,
    opens a file or reads one; the only goroutines it starts compare two
    entries that are files in both listings. In the whole process, whatever
    the schedule, the goroutines are the one for the two roots and such
    comparisons of file pairs, the only directories listed are the roots,
    and the only files opened or read are files of such pairs. *)
Theorem common_subdirectories_not_entered
    fsys path_Join FgHiRed FgHiYellow FgHiMagenta dir1 dir2 sz1 files1 sz2 files2 :
  fsys dir1 = Some (Directory sz1 files1) →
  fsys dir2 = Some (Directory sz2 files2) →
  NoDup (names files1) → NoDup (names files2) →
  (∀ f f2, f ∈ files1 → f2 ∈ files2 → Name f2 = Name f →
     IsDir f = true → IsDir f2 = true →
     ∃ before after,
       events (diffDirs fsys path_Join FgHiYellow FgHiMagenta dir1 dir2 false)
       = [EvReadDir dir1; EvReadDir dir2]
           ++ (before ≫= act path_Join FgHiYellow FgHiMagenta dir1 dir2 false)
           ++ [EvPrint ("Common subdirectories: " +:+ path_Join dir1 (Name f)
                        +:+ " and " +:+ path_Join dir2 (Name f) +:+ nl)]
           ++ (after ≫= act path_Join FgHiYellow FgHiMagenta dir1 dir2 false)
           ++ [EvDone]
       ∧ ¬ (Name f ∈ nameOf <$> before) ∧ ¬ (Name f ∈ nameOf <$> after))
  ∧ (∀ ev,
       ev ∈ events (diffDirs fsys path_Join FgHiYellow FgHiMagenta dir1 dir2 false) →
       match ev with
       | EvGo (DiffDirs _ _ _) | EvOpen _ | EvRead _ _ => False
       | EvGo (DiffFiles file1 file2) =>
           filePair path_Join dir1 dir2 files1 files2 (DiffFiles file1 file2)
       | EvReadDir path => path = dir1 ∨ path = dir2
       | _ => True
       end)
  ∧ (∀ s,
       reachable fsys path_Join FgHiRed FgHiYellow FgHiMagenta false false [dir1; dir2] s →
       (∀ g, g ∈ pool s →
          what g = DiffDirs dir1 dir2 false
          ∨ filePair path_Join dir1 dir2 files1 files2 (what g))
       ∧ (∀ who ev, (who, ev) ∈ history s →
            flat path_Join dir1 dir2 files1 files2 ev)).
Proof.
  intros H1 H2 Hnd1 Hnd2. split_and!.
  - intros f f2 Hf Hf2 HN Hd Hd2.
    rewrite (diffDirs_trace fsys path_Join FgHiYellow FgHiMagenta _ _ _ sz1 files1 sz2 files2)
      by done.
    cbn [events fst].
    pose proof (classify_in_reconcile files1 files2 f Hf) as Hcl.
    unfold classify in Hcl. rewrite <- HN, (entryOf_NoDup files2 f2), HN, Hd, Hd2 in Hcl by done.
    apply list_elem_of_split in Hcl as (before & after & Hsplit).
    pose proof (NoDup_reconcile files1 files2 Hnd1 Hnd2) as Hnd.
    rewrite Hsplit, fmap_app, fmap_cons in Hnd.
    apply NoDup_app in Hnd as (_ & Hb & [Ha _]%NoDup_cons).
    exists before, after. split_and!.
    + rewrite Hsplit, bind_app, bind_cons. cbn [act kindOf]. by rewrite <- !app_assoc.
    + intros Hin. apply (Hb _ Hin). left.
    + done.
  - intros ev. by apply (diffDirs_no_descent fsys _ _ _ _ _ sz1 _ sz2).
  - intros s Hr.
    apply (provenance_reachable _ _ _ _ _
             (λ t, t = DiffDirs dir1 dir2 false
                   ∨ filePair path_Join dir1 dir2 files1 files2 t)) in Hr
      as [_ Hpool Hhist].
    + split.
      * intros g Hg. by destruct (proj1 (Forall_forall _ _) Hpool g Hg) as [? _].
      * intros who ev Hin. specialize (Hhist who ev Hin). destruct who as [|i].
        { rewrite (main_directories fsys false dir1 dir2 sz1 files1 sz2 files2) in Hhist
            by done.
          cbn [events fst] in Hhist.
          repeat (apply elem_of_cons in Hhist as [->|Hhist]); try done.
          by apply elem_of_nil in Hhist. }
        destruct Hhist as (g & Hg & Hev).
        destruct (Forall_lookup_1 _ _ _ _ Hpool Hg) as [[Hroot|Hpair] _].
        { rewrite Hroot in Hev. cbn [body] in Hev.
          apply (diffDirs_no_descent fsys _ _ _ _ _ sz1 files1 sz2 files2) in Hev; [|done..].
          by destruct ev as [| | | | | | | | |[]| |]. }
        pose proof Hpair as (f & f2 & _ & _ & _ & _ & _ & Hw).
        rewrite Hw in Hev, Hpair. cbn [body] in Hev. apply diffFiles_touches in Hev.
        destruct ev; try done; cbn [flat]; eexists _, _; (split; [exact Hpair|done]).
    + intros t Ht. unfold starts in Ht.
      rewrite (main_directories fsys false dir1 dir2 sz1 files1 sz2 files2) in Ht by done.
      cbn [events fst] in Ht.
      repeat (apply elem_of_cons in Ht as [Ht|Ht]); try done; [|by apply elem_of_nil in Ht].
      injection Ht as ->. by left.
    + intros t t' [->|(f & f2 & _ & _ & _ & _ & _ & ->)] Ht; unfold starts in Ht;
        cbn [body] in Ht.
      * apply (diffDirs_no_descent fsys _ _ _ _ _ sz1 files1 sz2 files2) in Ht; [|done..].
        destruct t'; [by right|done].
      * by apply diffFiles_touches in Ht.
Qed.
Lemma common_subdirectories_not_entered_witness :
  ∃ before after,
    events (diffDirs demo_fs demo_Join noColor noColor "l" "r" false)
    = [EvReadDir "l"; EvReadDir "r"]
        ++ (before ≫= act demo_Join noColor noColor "l" "r" false)
        ++ [EvPrint ("Common subdirectories: " +:+ demo_Join "l" "sub"
                     +:+ " and " +:+ demo_Join "r" "sub" +:+ nl)]
        ++ (after ≫= act demo_Join noColor noColor "l" "r" false)
        ++ [EvDone]
    ∧ ¬ ("sub" ∈ nameOf <$> before) ∧ ¬ ("sub" ∈ nameOf <$> after).
Proof.
  assert (NoDup (names [mkDirEntry "a.txt" false; mkDirEntry "b" true;
                        mkDirEntry "sub" true; mkDirEntry "x" false])) as H1.
  { apply (bool_decide_unpack _). vm_compute. exact I. }
  assert (NoDup (names [mkDirEntry "a.txt" false; mkDirEntry "b" false;
                        mkDirEntry "sub" true; mkDirEntry "y" false])) as H2.
  { apply (bool_decide_unpack _). vm_compute. exact I. }
  exact (proj1 (common_subdirectories_not_entered demo_fs demo_Join noColor noColor noColor
                  "l" "r" 4096 _ 4096 _ eq_refl eq_refl H1 H2)
           (mkDirEntry "sub" true) (mkDirEntry "sub" true)
           (list_elem_of_further _ _ _ (list_elem_of_further _ _ _ (list_elem_of_here _ _)))
           (list_elem_of_further _ _ _ (list_elem_of_further _ _ _ (list_elem_of_here _ _)))
           eq_refl eq_refl eq_refl).
Defined.

(** * More of the program *)

(** ** [diffFiles] and the faults of [cmpFiles] *)

(** X1. On two regular files [diffFiles] opens, reads and closes them as
    [cmpFiles] does, then prints the line "Files ... differ" exactly when the
    contents differ, and calls [wg.Done] last. *)
Theorem diffFiles_reports_difference fsys FgHiRed file1 file2 A B :
  fsys file1 = Some (Regular A) → fsys file2 = Some (Regular B) →
  ∃ ns, diffFiles fsys FgHiRed file1 file2
        = ([EvOpen file1; EvOpen file2] ++ reads file1 file2 ns
             ++ [EvClose file2; EvClose file1]
             ++ (if bool_decide (A = B) then []
                 else [EvPrint ("Files " +:+ file1 +:+ " and " +:+ file2 +:+ " "
                                +:+ SprintFunc FgHiRed "differ" +:+ nl)])
             ++ [EvDone], Ret tt).
Proof.
  intros H1 H2.
  destruct (cmpFiles_regular fsys file1 file2 A B H1 H2) as (ns & Heq & _).
  exists ns. unfold diffFiles. rewrite Heq, bind_events.
  cbn [events outcome fst snd]. rewrite <- !app_assoc.
  case_bool_decide; cbn [negb].
  - by rewrite ret_then.
  - by rewrite emit_then.
Qed.

Lemma diffFiles_reports_difference_witness :
  demo_fs "l/a.txt" = Some (Regular [x01; x02; x03])
  ∧ demo_fs "r/a.txt" = Some (Regular [x01; x02; x04])
  ∧ ∃ ns, diffFiles demo_fs noColor "l/a.txt" "r/a.txt"
          = ([EvOpen "l/a.txt"; EvOpen "r/a.txt"] ++ reads "l/a.txt" "r/a.txt" ns
               ++ [EvClose "r/a.txt"; EvClose "l/a.txt"]
               ++ (if bool_decide ([x01; x02; x03] = [x01; x02; x04]) then []
                   else [EvPrint ("Files " +:+ "l/a.txt" +:+ " and " +:+ "r/a.txt" +:+ " "
                                  +:+ SprintFunc noColor "differ" +:+ nl)])
               ++ [EvDone], Ret tt).
Proof.
  split; [reflexivity|]. split; [reflexivity|].
  exact (diffFiles_reports_difference demo_fs noColor "l/a.txt" "r/a.txt"
           [x01; x02; x03] [x01; x02; x04] eq_refl eq_refl).
Defined.

Lemma cmpFiles_open_fails fsys file1 file2 :
  fsys file1 = None ∨ fsys file2 = None →
  cmpFiles fsys file1 file2
  = ([EvOpen file1]
       ++ match fsys file1 with Some _ => [EvOpen file2] | None => [] end
       ++ [EvLog], Halt 1).
Proof.
  intros H. unfold cmpFiles, os_Open.
  destruct (fsys file1) as [nd1|] eqn:E1; [|done].
  destruct H as [|E2]; [done|]. rewrite E2. done.
Qed.

(** What [cmpFiles] does once both paths are open. *)
Lemma cmpFiles_opened fsys file1 file2 nd1 nd2 :
  fsys file1 = Some nd1 → fsys file2 = Some nd2 →
  cmpFiles fsys file1 file2
  = if negb (Size (info nd1) =? Size (info nd2))
    then ([EvOpen file1; EvOpen file2; EvClose file2; EvClose file1], Ret false)
    else
      let m := cmpLoop (S (S (Size (info nd1) `div` CHUNK_SIZE)))
                 (mkFile file1 nd1 0) (mkFile file2 nd2 0)
                 (make CHUNK_SIZE) (make CHUNK_SIZE) in
      ([EvOpen file1; EvOpen file2] ++ events m
         ++ match outcome m with
            | Ret _ => [EvClose file2; EvClose file1]
            | _ => []
            end, outcome m).
Proof.
  intros H1 H2. unfold cmpFiles.
  rewrite (os_Open_some _ _ _ H1), bind_events.
  rewrite (os_Open_some _ _ _ H2). cbn [File_Stat checkErr inode].
  rewrite ret_then, bind_events. cbn [File_Stat checkErr inode].
  rewrite ret_then.
  destruct (negb _).
  - unfold ret. by repeat (rewrite defer_ret; cbn [events outcome fst snd]).
  - cbv zeta. destruct (cmpLoop _ _ _ _ _) as [evs [w| |]].
    + repeat (rewrite defer_ret; cbn [events outcome fst snd]).
      cbn [app]. by rewrite <- !app_assoc.
    + cbn. by rewrite app_nil_r.
    + cbn. by rewrite app_nil_r.
Qed.

(** X2. A path that cannot be opened is fatal: [cmpFiles] logs the fault and
    ends the process with status 1. A second path is not even tried once the
    first has failed, nothing is read, and the deferred [Close] of a file
    already open does not run. *)
Theorem cmpFiles_missing_file_is_fatal fsys file1 file2 :
  fsys file1 = None ∨ fsys file2 = None →
  cmpFiles fsys file1 file2
  = ([EvOpen file1]
       ++ match fsys file1 with Some _ => [EvOpen file2] | None => [] end
       ++ [EvLog], Halt 1).
Proof. apply cmpFiles_open_fails. Qed.

Lemma cmpFiles_missing_file_is_fatal_witness :
  cmpFiles demo_fs "l/a.txt" "nowhere"
  = ([EvOpen "l/a.txt"; EvOpen "nowhere"; EvLog], Halt 1).
Proof.
  exact (cmpFiles_missing_file_is_fatal demo_fs "l/a.txt" "nowhere" (or_intror eq_refl)).
Defined.

Lemma cmpLoop_reads fuel : ∀ f1 f2 b1 b2 v,
  outcome (cmpLoop fuel f1 f2 b1 b2) = Ret v →
  Forall (isRead (fname f1) (fname f2)) (events (cmpLoop fuel f1 f2 b1 b2)).
Proof.
  induction fuel as [|fuel IH]; intros f1 f2 b1 b2 v; [done|].
  rewrite cmpLoop_S.
  pose proof (fname_Read f1 b1) as E1. pose proof (fname_Read f2 b2) as E2.
  destruct (Read f1 b1) as [[[n1 err1] b1'] f1'].
  destruct (Read f2 b2) as [[[n2 err2] b2'] f2']. cbn [snd] in E1, E2.
  rewrite !emit_then. cbn [events outcome fst snd]. rewrite E1, E2. intros Hv.
  constructor; [exists n1; by left|]. constructor; [exists n2; by right|].
  destruct (cmpChunk n1 err1 n2 err2 b1' b2'); try done; try constructor.
  rewrite <- E1, <- E2. by apply (IH _ _ _ _ v).
Qed.

(** X3. Whenever [cmpFiles] returns, whatever the two paths lead to, it has
    opened the first path, then the second, has done nothing but read these
    two in between, and has closed the second, then the first. *)
Theorem cmpFiles_closes_what_it_opened fsys file1 file2 (v : bool) :
  outcome (cmpFiles fsys file1 file2) = Ret v →
  ∃ mid, events (cmpFiles fsys file1 file2)
         = [EvOpen file1; EvOpen file2] ++ mid ++ [EvClose file2; EvClose file1]
       ∧ Forall (isRead file1 file2) mid.
Proof.
  intros Hv.
  destruct (fsys file1) as [nd1|] eqn:E1;
    [|by rewrite cmpFiles_open_fails in Hv by (by left)].
  destruct (fsys file2) as [nd2|] eqn:E2;
    [|by rewrite cmpFiles_open_fails in Hv by (by right)].
  rewrite (cmpFiles_opened fsys file1 file2 nd1 nd2 E1 E2) in Hv |- *.
  destruct (negb _).
  - exists []. split; [done|constructor].
  - cbv zeta in Hv |- *.
    pose proof (cmpLoop_reads (S (S (Size (info nd1) `div` CHUNK_SIZE)))
                  (mkFile file1 nd1 0) (mkFile file2 nd2 0)
                  (make CHUNK_SIZE) (make CHUNK_SIZE)) as Hr.
    destruct (cmpLoop _ _ _ _ _) as [evs [w| |]]; cbn [events outcome fst snd] in *;
      try done.
    exists evs. split; [done|]. by apply (Hr w).
Qed.

Lemma cmpFiles_closes_what_it_opened_witness :
  ∃ mid, events (cmpFiles demo_fs "l/a.txt" "r/a.txt")
         = [EvOpen "l/a.txt"; EvOpen "r/a.txt"] ++ mid
             ++ [EvClose "r/a.txt"; EvClose "l/a.txt"]
       ∧ Forall (isRead "l/a.txt" "r/a.txt") mid.
Proof.
  assert (outcome (cmpFiles demo_fs "l/a.txt" "r/a.txt") = Ret false) as H
    by (vm_compute; reflexivity).
  exact (cmpFiles_closes_what_it_opened demo_fs "l/a.txt" "r/a.txt" false H).
Defined.

Lemma cmpLoop_halts_one fuel : ∀ f1 f2 b1 b2 code,
  outcome (cmpLoop fuel f1 f2 b1 b2) = Halt code → code = 1%Z.
Proof.
  induction fuel as [|fuel IH]; intros f1 f2 b1 b2 code; [done|].
  rewrite cmpLoop_S.
  destruct (Read f1 b1) as [[[n1 err1] b1'] f1'].
  destruct (Read f2 b2) as [[[n2 err2] b2'] f2'].
  rewrite !emit_then. cbn [outcome snd].
  destruct (cmpChunk n1 err1 n2 err2 b1' b2'); try done.
  - by intros [= <-].
  - apply IH.
Qed.

Lemma fatalOnly_cmpFiles fsys file1 file2 : fatalOnly (cmpFiles fsys file1 file2).
Proof.
  unfold fatalOnly.
  pose proof (cmpFiles_no_spin fsys file1 file2) as Hspin.
  destruct (outcome (cmpFiles fsys file1 file2)) as [v|code|] eqn:E; [done| |done].
  destruct (fsys file1) as [nd1|] eqn:E1;
    [|rewrite cmpFiles_open_fails in E by (by left); by injection E as <-].
  destruct (fsys file2) as [nd2|] eqn:E2;
    [|rewrite cmpFiles_open_fails in E by (by right); by injection E as <-].
  rewrite (cmpFiles_opened fsys file1 file2 nd1 nd2 E1 E2) in E.
  destruct (negb _); [done|]. cbv zeta in E. cbn [outcome snd] in E.
  by apply cmpLoop_halts_one in E.
Qed.

(** X4. The loop of [cmpFiles] ends, whatever the two paths lead to:
    [cmpFiles] returns a boolean, or a fault ends the process with status 1.
    The bound the model puts on the loop is never what stops it. *)
Theorem cmpFiles_terminates fsys file1 file2 :
  (∃ v, outcome (cmpFiles fsys file1 file2) = Ret v)
  ∨ outcome (cmpFiles fsys file1 file2) = Halt 1.
Proof.
  pose proof (fatalOnly_cmpFiles fsys file1 file2) as H. unfold fatalOnly in H.
  destruct (outcome (cmpFiles fsys file1 file2)) as [v|code|]; [left; by exists v| |done].
  right. by rewrite H.
Qed.

Lemma cmpChunk_sym n1 err1 n2 err2 (b1 b2 : list byte) :
  cmpChunk n1 err1 n2 err2 b1 b2 = cmpChunk n2 err2 n1 err1 b2 b1.
Proof.
  unfold cmpChunk. destruct err1 as [[]|], err2 as [[]|]; try done.
  rewrite (Nat.eqb_sym n2 n1).
  destruct (Nat.eqb_spec n1 n2) as [->|]; [|done]. cbn [negb].
  by rewrite bytes_Equal_sym.
Qed.

Lemma cmpLoop_outcome_sym fuel : ∀ f1 f2 b1 b2,
  outcome (cmpLoop fuel f1 f2 b1 b2) = outcome (cmpLoop fuel f2 f1 b2 b1).
Proof.
  induction fuel as [|fuel IH]; intros f1 f2 b1 b2; [done|].
  rewrite !cmpLoop_S.
  destruct (Read f1 b1) as [[[n1 err1] b1'] f1'].
  destruct (Read f2 b2) as [[[n2 err2] b2'] f2'].
  rewrite !emit_then. cbn [outcome snd]. rewrite (cmpChunk_sym n2 err2 n1 err1).
  destruct (cmpChunk n1 err1 n2 err2 b1' b2'); first [done|apply IH].
Qed.

(** X5. The order of the two paths never matters to what [cmpFiles] comes
    to, faults included: the same boolean, or the same fatal end. *)
Theorem cmpFiles_outcome_symmetric fsys file1 file2 :
  outcome (cmpFiles fsys file1 file2) = outcome (cmpFiles fsys file2 file1).
Proof.
  destruct (fsys file1) as [nd1|] eqn:E1, (fsys file2) as [nd2|] eqn:E2.
  - rewrite (cmpFiles_opened fsys file1 file2 nd1 nd2 E1 E2),
      (cmpFiles_opened fsys file2 file1 nd2 nd1 E2 E1).
    rewrite (Nat.eqb_sym (Size (info nd2))).
    destruct (Nat.eqb_spec (Size (info nd1)) (Size (info nd2))) as [Hs|]; [|done].
    cbn [negb]. cbv zeta. cbn [outcome snd]. rewrite Hs. apply cmpLoop_outcome_sym.
  - by rewrite !cmpFiles_open_fails by tauto.
  - by rewrite !cmpFiles_open_fails by tauto.
  - by rewrite !cmpFiles_open_fails by tauto.
Qed.

(** ** The map of [diffDirs] and its faults *)

(** X6. The map built from a listing holds exactly the names of the
    listing, each with its entry and not checked; where the listing repeats
    a name, the last entry is the one kept. *)
Theorem fileSet_holds_last_entries (files : list DirEntry) (name : string) :
  fileSet files !! name
  = (λ f, mkd f false) <$> last (filter (λ f, Name f = name) files)
  ∧ (is_Some (fileSet files !! name) ↔ name ∈ names files)
  ∧ dom (fileSet files) =@{gset string} list_to_set (names files).
Proof.
  split_and!.
  - apply fileSet_lookup.
  - rewrite fileSet_lookup, fmap_is_Some. apply entryOf_is_Some.
  - apply set_eq. intros n.
    rewrite elem_of_dom, elem_of_list_to_set, fileSet_lookup, fmap_is_Some.
    apply entryOf_is_Some.
Qed.

(** X7. The first loop of [diffDirs] always runs to its end, and what it
    does to the map is this only: it marks as checked the names of the first
    listing that the map holds. It adds no key, drops none, changes no
    entry and never takes a mark back. *)
Theorem first_loop_only_checks path_Join FgHiYellow FgHiMagenta
    dir1 dir2 recursive (files1 : list DirEntry) (m : gmap string d) :
  ∃ evs m',
    range (inFirst path_Join FgHiYellow FgHiMagenta dir1 dir2 recursive) files1 m
    = (evs, Ret m')
    ∧ dom m' = dom m
    ∧ ∀ name,
        m' !! name
        = (λ x, mkd (e x) (c x || bool_decide (name ∈ names files1))) <$> m !! name.
Proof.
  destruct (range_inFirst path_Join FgHiYellow FgHiMagenta dir1 dir2 recursive files1 m)
    as (m' & Heq & Hm').
  eexists _, m'. split_and!; [exact Heq| |exact Hm'].
  apply set_eq. intros n. rewrite !elem_of_dom, Hm'. unfold checked.
  by rewrite fmap_is_Some.
Qed.

Lemma diffDirs_ReadDir_fails fsys path_Join FgHiYellow FgHiMagenta dir1 dir2 recursive :
  isDirectory (fsys dir1) = false ∨ isDirectory (fsys dir2) = false →
  diffDirs fsys path_Join FgHiYellow FgHiMagenta dir1 dir2 recursive
  = ([EvReadDir dir1]
       ++ (if isDirectory (fsys dir1) then [EvReadDir dir2] else [])
       ++ [EvLog], Halt 1).
Proof.
  intros H. unfold diffDirs, os_ReadDir.
  destruct (fsys dir1) as [[A|sz1 files1]|] eqn:E1; try done.
  destruct H as [|H]; [done|].
  destruct (fsys dir2) as [[B|sz2 files2]|] eqn:E2; done.
Qed.

(** X8. A directory that cannot be listed is fatal for [diffDirs]: it logs
    the fault and ends the process with status 1, having printed nothing,
    started nothing and not called [wg.Done]; the second directory is not
    tried once the first has failed. *)
Theorem diffDirs_unreadable_directory_is_fatal
    fsys path_Join FgHiYellow FgHiMagenta dir1 dir2 recursive :
  isDirectory (fsys dir1) = false ∨ isDirectory (fsys dir2) = false →
  diffDirs fsys path_Join FgHiYellow FgHiMagenta dir1 dir2 recursive
  = ([EvReadDir dir1]
       ++ (if isDirectory (fsys dir1) then [EvReadDir dir2] else [])
       ++ [EvLog], Halt 1).
Proof. apply diffDirs_ReadDir_fails. Qed.

Lemma diffDirs_unreadable_directory_is_fatal_witness :
  diffDirs demo_fs demo_Join noColor noColor "l" "l/a.txt" true
  = ([EvReadDir "l"; EvReadDir "l/a.txt"; EvLog], Halt 1).
Proof.
  exact (diffDirs_unreadable_directory_is_fatal demo_fs demo_Join noColor noColor
           "l" "l/a.txt" true (or_intror eq_refl)).
Defined.

(** ** What the bodies start and how they end *)

Lemma fatalOnly_ret {A} (a : A) : fatalOnly (mret a).
Proof. done. Qed.

Lemma fatalOnly_emit ev : fatalOnly (emit ev).
Proof. done. Qed.

Lemma fatalOnly_checkErr {A} (r : A + error) : fatalOnly (checkErr r).
Proof. by destruct r. Qed.

Lemma fatalOnly_bind {A B} (m : M A) (k : A → M B) :
  fatalOnly m → (∀ a, fatalOnly (k a)) → fatalOnly (m ≫= k).
Proof.
  unfold fatalOnly. rewrite outcome_bind. destruct (outcome m); [|done..].
  intros _ Hk. apply Hk.
Qed.

Lemma fatalOnly_range {A S} (body : S → A → M S) (l : list A) :
  (∀ s x, fatalOnly (body s x)) → ∀ s, fatalOnly (range body l s).
Proof.
  intros Hbody. induction l as [|x l IH]; intros s; [done|].
  cbn [range]. apply fatalOnly_bind; [apply Hbody|apply IH].
Qed.

Lemma fatalOnly_body fsys path_Join FgHiRed FgHiYellow FgHiMagenta t :
  fatalOnly (body fsys path_Join FgHiRed FgHiYellow FgHiMagenta t).
Proof.
  destruct t as [file1 file2|dir1 dir2 recursive]; cbn [body].
  - unfold diffFiles. apply fatalOnly_bind; [apply fatalOnly_cmpFiles|]. intros same.
    apply fatalOnly_bind; [|intros _; apply fatalOnly_emit].
    destruct (negb same); [apply fatalOnly_emit|apply fatalOnly_ret].
  - unfold diffDirs.
    assert (∀ name, fatalOnly (os_ReadDir fsys name)) as Hrd.
    { intros name. unfold os_ReadDir. apply fatalOnly_bind; [apply fatalOnly_emit|].
      intros _. apply fatalOnly_checkErr. }
    apply fatalOnly_bind; [apply Hrd|]. intros files1.
    apply fatalOnly_bind; [apply Hrd|]. intros files2.
    apply fatalOnly_bind.
    { apply fatalOnly_range. intros m f. by rewrite inFirst_eq. }
    intros m'. apply fatalOnly_bind; [|intros _; apply fatalOnly_emit].
    apply fatalOnly_range. intros m f. by rewrite inSecond_eq.
Qed.

Lemma tailOk_split_both (a : list event) r :
  (tailOk a r →
   ∃ q, paired q = true ∧ ((a = q ++ [EvDone] ∧ r = Ret tt) ∨ (a = q ∧ r ≠ Ret tt)))
  ∧ (∀ ev, tailOk (ev :: a) r →
     ∃ q, paired q = true
          ∧ ((ev :: a = q ++ [EvDone] ∧ r = Ret tt) ∨ (ev :: a = q ∧ r ≠ Ret tt))).
Proof.
  induction a as [|x a [IH1 IH2]].
  - split.
    + intros H. exists []. split; [done|]. by right.
    + intros ev H. destruct ev; simpl in H; try done;
        first [ destruct H as [_ ->]; exists []; split; [done|by left]
              | match goal with
                | |- ∃ q, _ ∧ ((?l = _ ∧ _) ∨ _) => exists l; split; [done|by right]
                end ].
  - split; [apply IH2|]. intros ev H.
    assert (∀ ev', plain ev' = true → tailOk (x :: a) r →
              ∃ q, paired q = true
                   ∧ ((ev' :: x :: a = q ++ [EvDone] ∧ r = Ret tt)
                      ∨ (ev' :: x :: a = q ∧ r ≠ Ret tt))) as Hplain.
    { intros ev' Hp Hx. destruct (IH2 x Hx) as (q & Hq & Hcase).
      exists (ev' :: q). split; [by destruct ev'|].
      destruct Hcase as [[-> ->]|[-> ?]]; [by left|by right]. }
    destruct ev; try (by apply Hplain); try done.
    + destruct x; try done. simpl in H. destruct (IH1 H) as (q & Hq & Hcase).
      exists (EvAdd :: EvGo t :: q). split; [done|].
      destruct Hcase as [[-> ->]|[-> ?]]; [by left|by right].
    + by destruct H as [? _].
Qed.

(** X9. The body of every task keeps the discipline of the wait group, on
    every path and whatever the paths lead to: a [go] comes directly after
    its [wg.Add(1)] and an [wg.Add(1)] directly before its [go]; a body that
    returns calls [wg.Done] once, as its last action; a body stopped by a
    fault ends the process with status 1 and never calls [wg.Done]; no body
    calls [wg.Wait]. *)
Theorem bodies_keep_the_discipline fsys path_Join FgHiRed FgHiYellow FgHiMagenta t :
  ∃ q, paired q = true
       ∧ ((events (body fsys path_Join FgHiRed FgHiYellow FgHiMagenta t) = q ++ [EvDone]
           ∧ outcome (body fsys path_Join FgHiRed FgHiYellow FgHiMagenta t) = Ret tt)
          ∨ (events (body fsys path_Join FgHiRed FgHiYellow FgHiMagenta t) = q
             ∧ outcome (body fsys path_Join FgHiRed FgHiYellow FgHiMagenta t) = Halt 1)).
Proof.
  pose proof (bodyOk_body fsys path_Join FgHiRed FgHiYellow FgHiMagenta t) as Hok.
  pose proof (fatalOnly_body fsys path_Join FgHiRed FgHiYellow FgHiMagenta t) as Hf.
  unfold bodyOk in Hok. unfold fatalOnly in Hf.
  destruct (proj1 (tailOk_split_both _ _) Hok) as (q & Hq & Hcase).
  exists q. split; [done|]. destruct Hcase as [[? ?]|[? Hr]]; [by left|right].
  split; [done|].
  destruct (outcome _) as [[]|code|]; [done|by rewrite Hf|done].
Qed.

(** ** The dispatch of [main] *)

Lemma main_Stat_fails fsys (recursive : bool) path1 path2 :
  fsys path1 = None ∨ fsys path2 = None →
  main fsys false recursive [path1; path2]
  = ([EvStat path1]
       ++ match fsys path1 with Some _ => [EvStat path2] | None => [] end
       ++ [EvLog], Halt 1).
Proof.
  intros H. unfold main, os_Stat. cbn.
  destruct (fsys path1) as [nd1|] eqn:E1; [|done]. cbn.
  destruct H as [|E2]; [done|]. rewrite E2. done.
Qed.

(** X10. A root path that cannot be examined is fatal for [main]: it logs
    the fault and exits with status 1 (the second path is not examined once
    the first has failed). The process starts no goroutine, prints nothing,
    and can only end with status 1. *)
Theorem main_missing_path_is_fatal fsys path_Join FgHiRed FgHiYellow FgHiMagenta
    (recursive : bool) path1 path2 :
  fsys path1 = None ∨ fsys path2 = None →
  main fsys false recursive [path1; path2]
  = ([EvStat path1]
       ++ match fsys path1 with Some _ => [EvStat path2] | None => [] end
       ++ [EvLog], Halt 1)
  ∧ (∀ s, reachable fsys path_Join FgHiRed FgHiYellow FgHiMagenta
            false recursive [path1; path2] s →
       pool s = []
       ∧ (status s = None ∨ status s = Some 1%Z)
       ∧ ∀ who ev, (who, ev) ∈ history s →
           ev = EvStat path1 ∨ ev = EvStat path2 ∨ ev = EvLog).
Proof.
  intros H. pose proof (main_Stat_fails fsys recursive path1 path2 H) as Hmain.
  split; [done|].
  intros s [schedule Hrun]. unfold init in Hrun. rewrite Hmain in Hrun.
  apply run_alone in Hrun as (Hp & _ & es1 & es2 & Hes & Hh & _ & Hs);
    [|by destruct (fsys path1)].
  split_and!; [done| |].
  - destruct Hs as [?|[_ ?]]; [by left|by right].
  - intros who ev Hin. rewrite Hh in Hin. cbn in Hin.
    apply list_elem_of_fmap in Hin as (ev' & [= -> ->] & Hin).
    assert (ev' ∈ es1 ++ es2) as Hin' by (apply elem_of_app; by left).
    rewrite <- Hes in Hin'. destruct (fsys path1); cbn in Hin';
      repeat (apply elem_of_cons in Hin' as [->|Hin']); try tauto;
      by apply elem_of_nil in Hin'.
Qed.

Lemma main_missing_path_is_fatal_witness :
  main demo_fs false true ["l"; "nowhere"]
  = ([EvStat "l"; EvStat "nowhere"; EvLog], Halt 1).
Proof.
  exact (proj1 (main_missing_path_is_fatal demo_fs demo_Join noColor noColor noColor
                  true "l" "nowhere" (or_intror eq_refl))).
Defined.

(** What [main] can start: one task, on the two positional arguments, with
    the flag of the command line. *)
Lemma main_starts_roots fsys help recursive args t :
  starts (main fsys help recursive args) t →
  ∃ path1 path2, args = [path1; path2]
    ∧ (t = DiffFiles path1 path2 ∨ t = DiffDirs path1 path2 recursive).
Proof.
  unfold starts. intros Ht.
  destruct (decide (help = true ∨ length args ≠ 2)) as [H|H].
  { rewrite main_usage in Ht by done. cbn in Ht.
    repeat (apply elem_of_cons in Ht as [Ht|Ht]); try done. by apply elem_of_nil in Ht. }
  assert (help = false) as -> by (destruct help; tauto).
  destruct args as [|path1 [|path2 [|? ?]]]; try (simpl in H; destruct H; right; lia).
  exists path1, path2. split; [done|].
  unfold main, os_Stat in Ht. cbn in Ht.
  destruct (fsys path1) as [nd1|]; cbn in Ht;
    [|repeat (apply elem_of_cons in Ht as [Ht|Ht]); try done; by apply elem_of_nil in Ht].
  destruct (fsys path2) as [nd2|]; cbn in Ht;
    [|repeat (apply elem_of_cons in Ht as [Ht|Ht]); try done; by apply elem_of_nil in Ht].
  destruct (Mode_IsDir (info nd1)), (Mode_IsDir (info nd2)); cbn in Ht;
    repeat (apply elem_of_cons in Ht as [Ht|Ht]); try done;
    try (by apply elem_of_nil in Ht); injection Ht as ->; tauto.
Qed.

(** What [main] does with two positional arguments. *)
Lemma main_event fsys help recursive path1 path2 ev :
  ev ∈ events (main fsys help recursive [path1; path2]) →
  match ev with
  | EvStat path => path = path1 ∨ path = path2
  | EvGo t => t = DiffFiles path1 path2 ∨ t = DiffDirs path1 path2 recursive
  | EvOpen _ | EvRead _ _ | EvClose _ | EvReadDir _ | EvDone => False
  | _ => True
  end.
Proof.
  intros Hev. destruct help.
  { rewrite main_usage in Hev by (by left). cbn in Hev.
    repeat (apply elem_of_cons in Hev as [->|Hev]); try done. by apply elem_of_nil in Hev. }
  unfold main, os_Stat in Hev. cbn in Hev.
  destruct (fsys path1) as [nd1|]; cbn in Hev;
    [|repeat (apply elem_of_cons in Hev as [->|Hev]); try tauto;
      by apply elem_of_nil in Hev].
  destruct (fsys path2) as [nd2|]; cbn in Hev;
    [|repeat (apply elem_of_cons in Hev as [->|Hev]); try tauto;
      by apply elem_of_nil in Hev].
  destruct (Mode_IsDir (info nd1)), (Mode_IsDir (info nd2)); cbn in Hev;
    repeat (apply elem_of_cons in Hev as [->|Hev]); try tauto;
    by apply elem_of_nil in Hev.
Qed.

(** What [diffDirs] does, whatever the paths lead to: it lists its two
    directories, prints, and starts comparisons of the two children of one
    name, of directories only when it is recursive, recursive in turn. *)
Lemma diffDirs_event fsys path_Join FgHiYellow FgHiMagenta dir1 dir2 recursive ev :
  ev ∈ events (diffDirs fsys path_Join FgHiYellow FgHiMagenta dir1 dir2 recursive) →
  match ev with
  | EvReadDir path => path = dir1 ∨ path = dir2
  | EvGo t =>
      ∃ name, t = DiffFiles (path_Join dir1 name) (path_Join dir2 name)
              ∨ (recursive = true
                 ∧ t = DiffDirs (path_Join dir1 name) (path_Join dir2 name) true)
  | EvOpen _ | EvRead _ _ | EvClose _ | EvStat _ | EvWait | EvPrintDefaults => False
  | _ => True
  end.
Proof.
  intros Hev.
  destruct (isDirectory (fsys dir1) && isDirectory (fsys dir2)) eqn:E.
  - apply andb_true_iff in E as [E1 E2].
    destruct (fsys dir1) as [[|sz1 files1]|] eqn:H1; try done.
    destruct (fsys dir2) as [[|sz2 files2]|] eqn:H2; try done.
    rewrite (diffDirs_trace fsys path_Join FgHiYellow FgHiMagenta _ _ _
               sz1 files1 sz2 files2 H1 H2) in Hev.
    cbn [events fst] in Hev.
    apply elem_of_app in Hev as [Hev|[Hev|Hev]%elem_of_app].
    + repeat (apply elem_of_cons in Hev as [->|Hev]); try tauto.
      by apply elem_of_nil in Hev.
    + apply list_elem_of_bind in Hev as (cl & Hev & _).
      destruct cl as [n|n|n []]; cbn in Hev; try destruct recursive;
        repeat (apply elem_of_cons in Hev as [->|Hev]); try done;
        try (by apply elem_of_nil in Hev); exists n; tauto.
    + by apply list_elem_of_singleton in Hev as ->.
  - apply andb_false_iff in E.
    rewrite diffDirs_ReadDir_fails in Hev by done.
    destruct (isDirectory (fsys dir1)); cbn in Hev;
      repeat (apply elem_of_cons in Hev as [->|Hev]); try tauto;
      by apply elem_of_nil in Hev.
Qed.

(** X11. The comparison never leaves the two trees out of step. Whatever
    the schedule and whatever the paths lead to, every task of the process
    compares two paths reached from the two roots by the same names, every
    directory task has the recursive flag of the command line, and every
    file or directory that is opened, read, closed or listed is on such a
    path. *)
Theorem tasks_stay_aligned fsys path_Join FgHiRed FgHiYellow FgHiMagenta
    help recursive root1 root2 s :
  reachable fsys path_Join FgHiRed FgHiYellow FgHiMagenta help recursive [root1; root2] s →
  (∀ g, g ∈ pool s → alignedTask path_Join root1 root2 recursive (what g))
  ∧ (∀ who ev, (who, ev) ∈ history s →
       match ev with
       | EvOpen path | EvRead path _ | EvClose path | EvReadDir path =>
           alignedPath path_Join root1 root2 path
       | EvStat path => path = root1 ∨ path = root2
       | EvGo t => alignedTask path_Join root1 root2 recursive t
       | _ => True
       end).
Proof.
  intros Hr.
  assert (∀ t, t = DiffFiles root1 root2 ∨ t = DiffDirs root1 root2 recursive →
            alignedTask path_Join root1 root2 recursive t) as Hroot.
  { intros t [->| ->]; cbn; [constructor|split; [constructor|done]]. }
  assert (∀ dir1 dir2 r t,
            alignedTask path_Join root1 root2 recursive (DiffDirs dir1 dir2 r) →
            (∃ name, t = DiffFiles (path_Join dir1 name) (path_Join dir2 name)
                     ∨ (r = true
                        ∧ t = DiffDirs (path_Join dir1 name) (path_Join dir2 name) true)) →
            alignedTask path_Join root1 root2 recursive t) as Hchild.
  { intros dir1 dir2 r t [Ha ->] [name [->|[-> ->]]]; cbn;
      [by constructor|split; [by constructor|done]]. }
  apply (provenance_reachable _ _ _ _ _
           (alignedTask path_Join root1 root2 recursive)) in Hr as [_ Hpool Hhist].
  - split.
    + intros g Hg. by destruct (proj1 (Forall_forall _ _) Hpool g Hg) as [? _].
    + intros who ev Hin. specialize (Hhist who ev Hin). destruct who as [|i].
      { apply main_event in Hhist. destruct ev; try done. by apply Hroot. }
      destruct Hhist as (g & Hg & Hev).
      destruct (Forall_lookup_1 _ _ _ _ Hpool Hg) as [Ha _].
      destruct (what g) as [file1 file2|dir1 dir2 r]; cbn [body] in Hev.
      * apply diffFiles_touches in Hev. cbn in Ha.
        destruct ev; try done; by exists file1, file2.
      * apply diffDirs_event in Hev. destruct ev; try done.
        -- destruct Ha as [Ha _]. by exists dir1, dir2.
        -- by apply (Hchild dir1 dir2 r).
  - intros t (path1 & path2 & [= <- <-] & Ht)%main_starts_roots. by apply Hroot.
  - intros t t' Ha Ht. unfold starts in Ht.
    destruct t as [file1 file2|dir1 dir2 r]; cbn [body] in Ht.
    + by apply diffFiles_touches in Ht.
    + apply diffDirs_event in Ht. by apply (Hchild dir1 dir2 r).
Qed.

Lemma tasks_stay_aligned_witness :
  ∃ s, reachable demo_fs demo_Join noColor noColor noColor false true ["l"; "r"] s
       ∧ length (pool s) = 4
       ∧ ∀ g, g ∈ pool s → alignedTask demo_Join "l" "r" true (what g).
Proof.
  destruct (run demo_fs demo_Join noColor noColor noColor
              (replicate 4 0 ++ replicate 10 1 ++ replicate 8 2 ++ replicate 5 3)
              (init demo_fs false true ["l"; "r"])) as [s|] eqn:E;
    [|vm_compute in E; discriminate].
  exists s.
  assert (reachable demo_fs demo_Join noColor noColor noColor false true ["l"; "r"] s)
    as Hr by (by eexists).
  split; [done|].
  destruct (tasks_stay_aligned _ _ _ _ _ _ _ _ _ s Hr) as [Hpool _].
  split; [|exact Hpool].
  vm_compute in E. injection E as <-. reflexivity.
Defined.

(** ** The history, goroutine by goroutine *)

Lemma projection_snoc who who' ev h :
  projection who (h ++ [(who', ev)])
  = projection who h ++ (if decide (who' = who) then [ev] else []).
Proof.
  unfold projection. rewrite filter_app, fmap_app, filter_cons, filter_nil.
  cbn [fst]. by case_decide.
Qed.

Lemma projection_nil who h :
  (∀ who' ev, (who', ev) ∈ h → who' ≠ who) → projection who h = [].
Proof.
  intros H. unfold projection.
  induction h as [|[w ev] h IH]; [done|].
  rewrite filter_cons. cbn [fst]. case_decide as E.
  - destruct (H w ev); [left|done].
  - apply IH. intros who' ev' Hin. apply (H who' ev'). by right.
Qed.

Lemma started_snoc who ev h :
  started (h ++ [(who, ev)])
  = started h ++ match ev with EvGo t => [t] | _ => [] end.
Proof.
  unfold started, goes. rewrite fmap_app, omap_app. f_equal. by destruct ev.
Qed.

Section TrackingFacts.

Variable fsys : string → option node.
Variable path_Join : string → string → string.
Variables FgHiRed FgHiYellow FgHiMagenta : Color.
Variable main0 : M unit.

#[local] Abbreviation body' := (body fsys path_Join FgHiRed FgHiYellow FgHiMagenta).
#[local] Abbreviation perform' := (perform fsys path_Join FgHiRed FgHiYellow FgHiMagenta).
#[local] Abbreviation step' := (step fsys path_Join FgHiRed FgHiYellow FgHiMagenta).
#[local] Abbreviation run' := (run fsys path_Join FgHiRed FgHiYellow FgHiMagenta).
#[local] Abbreviation tracked' :=
  (tracked fsys path_Join FgHiRed FgHiYellow FgHiMagenta main0).

(** The pool after an event, place by place. *)
Lemma pool_perform_exact who ev es r s :
  ∃ l',
    pool (perform' who ev (advance who (es, r) s))
    = l' ++ match ev with
            | EvGo t => [mkGoroutine who t (body' t) false]
            | _ => []
            end
    ∧ length l' = length (pool s)
    ∧ ∀ j g, pool s !! j = Some g →
        ∃ g', l' !! j = Some g' ∧ what g' = what g
              ∧ rest g' = if decide (who = S j) then (es, r) else rest g.
Proof.
  destruct s as [n m l h st].
  assert (∀ f : goroutine → goroutine,
            (∀ g, what (f g) = what g) → (∀ g, rest (f g) = (es, r)) →
            ∀ i j g, l !! j = Some g →
              ∃ g', alter f i l !! j = Some g' ∧ what g' = what g
                    ∧ rest g' = if decide (S i = S j) then (es, r) else rest g)
    as Halter.
  { intros f Hw Hr i j g Hg. destruct (decide (i = j)) as [->|Hne].
    - exists (f g). rewrite list_lookup_alter_eq, Hg, decide_True by done. by split_and!.
    - exists g. rewrite list_lookup_alter_ne, decide_False by congruence. by split_and!. }
  destruct who as [|i]; unfold perform, advance; cbn [wg mainG pool history status].
  - exists l. split_and!; [|done|].
    + destruct ev; cbn [pool mark]; rewrite ?app_nil_r; try done.
      by destruct (n - 1 <? 0)%Z.
    + intros j g Hg. exists g. by split_and!.
  - set (upd := λ g : goroutine, mkGoroutine (parent g) (what g) (es, r) (signalled g)).
    destruct ev; cbn [wg mainG pool history status mark];
      try (eexists; rewrite ?app_nil_r; split_and!; [done|apply length_alter|];
           apply Halter; [done|done]).
    destruct (n - 1 <? 0)%Z; cbn [pool].
    + eexists. rewrite app_nil_r. split_and!; [done|apply length_alter|].
      by apply Halter.
    + rewrite alter_alter. eexists. rewrite app_nil_r.
      split_and!; [done|apply length_alter|]. by apply Halter.
Qed.

Lemma status_perform who ev s :
  status (perform' who ev s)
  = match ev with
    | EvDone => if (wg s - 1 <? 0)%Z then Some 2%Z else status s
    | _ => status s
    end.
Proof. destruct ev; try done. unfold perform. by destruct (_ <? _)%Z. Qed.

Lemma wg_perform_Done who s : wg (perform' who EvDone s) = (wg s - 1)%Z.
Proof. unfold perform. by destruct (_ <? _)%Z. Qed.

Lemma tracked_exit code s :
  tracked' s →
  (mainG s = ([], Ret tt) ∧ code = 0%Z) ∨ mainG s = ([], Halt code)
  ∨ (∃ i g, pool s !! i = Some g ∧ rest g = ([], Halt code)) →
  tracked' (exit code s).
Proof.
  intros [? ? ? ? ?] H. constructor; try done.
  cbn [status exit]. intros code' [= <-]. cbn [mainG pool wg]. tauto.
Qed.

Lemma tracked_event who ev es r s :
  tracked' s → status s = None → running s who = Some (ev :: es, r) →
  tracked' (perform' who ev (advance who (es, r) s)).
Proof.
  intros [Hmain Hpool Hbound Hstarted Hstatus] Hst Hrun.
  destruct (pool_perform_exact who ev es r s) as (l' & Hp & Hlen & Hl').
  assert (who ≤ length (pool s)) as Hwho.
  { destruct who as [|i]; [lia|]. cbn [running] in Hrun.
    destruct (pool s !! i) as [g|] eqn:Hg; [|done]. apply lookup_lt_Some in Hg. lia. }
  assert (∀ j g', l' !! j = Some g' →
            ∃ g, pool s !! j = Some g ∧ what g' = what g
                 ∧ rest g' = if decide (who = S j) then (es, r) else rest g) as Hback.
  { intros j g' Hg'.
    assert (is_Some (pool s !! j)) as [g Hg].
    { apply lookup_lt_is_Some. rewrite <- Hlen. by apply lookup_lt_Some in Hg'. }
    destruct (Hl' j g Hg) as (g'' & Hg'' & Hw & Hr). rewrite Hg' in Hg''.
    injection Hg'' as <-. by exists g. }
  constructor.
  - rewrite history_perform, history_advance, mainG_perform, mainG_advance, projection_snoc.
    destruct who as [|i].
    + cbn [running] in Hrun. injection Hrun as Hm. rewrite decide_True by done.
      rewrite Hmain, Hm. cbn [fst snd]. by rewrite <- app_assoc.
    + rewrite decide_False by done. by rewrite app_nil_r.
  - intros j g' Hg'. rewrite history_perform, history_advance, projection_snoc.
    rewrite Hp in Hg'. apply lookup_app_Some in Hg' as [Hg'|[Hge Hg']].
    + destruct (Hback j g' Hg') as (g & Hg & Hw & Hr).
      rewrite Hw, Hr, (Hpool j g Hg). case_decide as E.
      * subst who. cbn [running] in Hrun. rewrite Hg in Hrun. injection Hrun as ->.
        cbn [fst snd]. by rewrite <- app_assoc.
      * by rewrite app_nil_r.
    + destruct ev; try by rewrite lookup_nil in Hg'.
      rewrite Hlen in Hge, Hg'.
      destruct (j - length (pool s)) as [|k] eqn:Hk; [|by rewrite lookup_cons, lookup_nil in Hg'].
      injection Hg' as <-. cbn [what rest].
      assert (j = length (pool s)) as -> by lia.
      rewrite decide_False, app_nil_r by lia.
      rewrite projection_nil; [by destruct (body' t)|].
      intros who' ev' Hin. apply Hbound in Hin. lia.
  - intros who' ev'. rewrite history_perform, history_advance, Hp, length_app, Hlen.
    intros [Hin|Hin%list_elem_of_singleton]%elem_of_app.
    + apply Hbound in Hin. lia.
    + injection Hin as -> ->. lia.
  - rewrite history_perform, history_advance, started_snoc, Hp, fmap_app, <- Hstarted.
    f_equal; [|by destruct ev].
    apply list_eq. intros j. rewrite !list_lookup_fmap.
    destruct (l' !! j) as [g'|] eqn:Hg'.
    + destruct (Hback j g' Hg') as (g & Hg & Hw & _). rewrite Hg. cbn. by rewrite Hw.
    + apply lookup_ge_None in Hg'. rewrite Hlen in Hg'.
      apply lookup_ge_None in Hg'. by rewrite Hg'.
  - intros code. rewrite status_perform.
    assert (status (advance who (es, r) s) = None) as -> by (by destruct who).
    destruct ev; try done.
    destruct (Z.ltb_spec (wg (advance who (es, r) s) - 1) 0) as [Hneg|]; [|done].
    intros [= <-]. right. right. right. split; [done|].
    by rewrite wg_perform_Done.
Qed.

Lemma tracked_step who s s' : tracked' s → step' who s = Some s' → tracked' s'.
Proof.
  intros Hinv Hstep. unfold step in Hstep.
  destruct (status s) eqn:Hst; [done|].
  destruct (running s who) as [[[|ev es] r]|] eqn:Hrun; [| |done].
  - destruct r as [[]|code|]; [| |done].
    + destruct who; [|done]. injection Hstep as <-. apply tracked_exit; [done|].
      left. cbn [running] in Hrun. by injection Hrun as ->.
    + injection Hstep as <-. apply tracked_exit; [done|]. right.
      destruct who as [|i]; cbn [running] in Hrun.
      * left. by injection Hrun as ->.
      * right. destruct (pool s !! i) as [g|] eqn:Hg; [|done].
        injection Hrun as Hr. by exists i, g.
  - assert (s' = perform' who ev (advance who (es, r) s)) as ->.
    { destruct ev; try (by injection Hstep as <-).
      destruct (wg s =? 0)%Z; [by injection Hstep as <-|done]. }
    by apply tracked_event.
Qed.

Lemma tracked_run schedule : ∀ s s',
  tracked' s → run' schedule s = Some s' → tracked' s'.
Proof.
  induction schedule as [|who schedule IH]; intros s s' Hinv Hrun.
  - by injection Hrun as <-.
  - simpl in Hrun. destruct (step' who s) as [s1|] eqn:Hstep; [|done].
    apply (IH s1 s'); [|done]. by apply (tracked_step who s).
Qed.

End TrackingFacts.

Lemma tracked_reachable fsys path_Join FgHiRed FgHiYellow FgHiMagenta
    help recursive args s :
  reachable fsys path_Join FgHiRed FgHiYellow FgHiMagenta help recursive args s →
  tracked fsys path_Join FgHiRed FgHiYellow FgHiMagenta
    (main fsys help recursive args) s.
Proof.
  intros [schedule Hrun].
  refine (tracked_run fsys path_Join FgHiRed FgHiYellow FgHiMagenta
            (main fsys help recursive args) schedule _ _ _ Hrun).
  unfold init. constructor; cbn [mainG pool history status wg]; try done.
  - by destruct (main fsys help recursive args).
  - by intros ? ? ?%elem_of_nil.
Qed.

(** ** How a process ends *)

(** [main] returns, shows the usage, or fails. *)
Lemma main_outcome fsys help recursive args :
  outcome (main fsys help recursive args) = Ret tt
  ∨ outcome (main fsys help recursive args) = Halt 0
  ∨ outcome (main fsys help recursive args) = Halt 1.
Proof.
  destruct (decide (help = true ∨ length args ≠ 2)) as [H|H].
  { rewrite main_usage by done. right. by left. }
  assert (help = false) as -> by (destruct help; tauto).
  destruct args as [|path1 [|path2 [|? ?]]]; try (cbn in H; lia).
  unfold main, os_Stat. cbn [orb length Nat.eqb negb].
  rewrite ret_then. cbn [index lookup list_lookup]. rewrite !ret_then.
  destruct (fsys path1) as [nd1|]; [|right; right; done].
  destruct (fsys path2) as [nd2|]; [|right; right; done].
  destruct nd1, nd2; cbn; first [by left | by right; left | by right; right].
Qed.

(** A [main] that compares ends by returning after [wg.Wait], or fails. *)
Lemma main_compares fsys recursive path1 path2 :
  (outcome (main fsys false recursive [path1; path2]) = Ret tt
   ∧ EvWait ∈ events (main fsys false recursive [path1; path2]))
  ∨ outcome (main fsys false recursive [path1; path2]) = Halt 1.
Proof.
  unfold main, os_Stat. cbn [orb length Nat.eqb negb].
  rewrite ret_then. cbn [index lookup list_lookup]. rewrite !ret_then.
  destruct (fsys path1) as [nd1|]; [|right; done].
  destruct (fsys path2) as [nd2|]; [|right; done].
  destruct nd1, nd2; cbn;
    first [by right | left; split; [done|]; repeat (first [by left | right])].
Qed.

(** X12. Whatever the command line, the tree and the schedule, a process
    that ends does so with status 0 or 1: the counter of the wait group
    never goes below zero and no index of the arguments is out of range, so
    the runtime never panics (status 2). *)
Theorem exit_status_is_0_or_1 fsys path_Join FgHiRed FgHiYellow FgHiMagenta
    help recursive args s code :
  reachable fsys path_Join FgHiRed FgHiYellow FgHiMagenta help recursive args s →
  status s = Some code →
  code = 0%Z ∨ code = 1%Z.
Proof.
  intros Hr Hst.
  pose proof (reachable_invariant _ _ _ _ _ _ _ _ _ Hr) as [Hwg _ _ _].
  pose proof (tracked_reachable _ _ _ _ _ _ _ _ _ Hr) as [Hmain Hpool _ _ Hstatus].
  destruct (Hstatus code Hst) as [[_ ->]|[Hm|[(i & g & Hg & Hrest)|[_ Hneg]]]].
  - by left.
  - rewrite Hm in Hmain. cbn [fst snd] in Hmain.
    destruct (main_outcome fsys help recursive args) as [H|[H|H]];
      rewrite Hmain in H; cbn in H; [done|injection H as ->; by left|injection H as ->; by right].
  - pose proof (fatalOnly_body fsys path_Join FgHiRed FgHiYellow FgHiMagenta (what g)) as Hf.
    unfold fatalOnly in Hf. rewrite (Hpool i g Hg), Hrest in Hf. cbn in Hf. by right.
  - pose proof (pending_nonneg (pool s)).
    assert (0 ≤ owed (mainG s))%Z by (unfold owed; destruct (mainG s) as [[|[] ?] ?]; simpl; lia).
    lia.
Qed.

(** The recursive run on the small tree ends with status 0. *)
Lemma exit_status_is_0_or_1_witness :
  ∃ s, reachable demo_fs demo_Join noColor noColor noColor false true ["l"; "r"] s
       ∧ status s = Some 0%Z ∧ (0 = 0 ∨ 0 = 1)%Z.
Proof.
  destruct (run demo_fs demo_Join noColor noColor noColor
              (replicate 4 0 ++ replicate 10 1 ++ replicate 8 2 ++ replicate 5 3
                 ++ replicate 8 4 ++ [0; 0])
              (init demo_fs false true ["l"; "r"])) as [s|] eqn:E;
    [|vm_compute in E; discriminate].
  exists s.
  assert (reachable demo_fs demo_Join noColor noColor noColor false true ["l"; "r"] s)
    as Hr by (by eexists).
  assert (status s = Some 0%Z) as Hst by (vm_compute in E; by injection E as <-).
  split; [done|]. split; [done|].
  exact (exit_status_is_0_or_1 _ _ _ _ _ _ _ _ s 0%Z Hr Hst).
Defined.

(** X13. The process never hangs: in every state it can reach and has not
    ended in, some goroutine can take a step. [main] waits at [wg.Wait] only
    while a goroutine that has yet to call [wg.Done] can go on. *)
Theorem no_deadlock fsys path_Join FgHiRed FgHiYellow FgHiMagenta
    help recursive args s :
  reachable fsys path_Join FgHiRed FgHiYellow FgHiMagenta help recursive args s →
  status s = None →
  ∃ who s', step fsys path_Join FgHiRed FgHiYellow FgHiMagenta who s = Some s'.
Proof.
  intros Hr Hst.
  pose proof (reachable_invariant _ _ _ _ _ _ _ _ _ Hr) as [Hwg _ Hinv _].
  pose proof (tracked_reachable _ _ _ _ _ _ _ _ _ Hr) as [Hmain Hpool _ _ _].
  assert (∀ who ev es r, running s who = Some (ev :: es, r) → ev ≠ EvWait →
            ∃ s', step fsys path_Join FgHiRed FgHiYellow FgHiMagenta who s = Some s')
    as Hgo.
  { intros who ev es r Hrun Hev. unfold step. rewrite Hst, Hrun.
    destruct ev; try done; by eexists. }
  destruct (mainG s) as [[|ev es] r] eqn:Hm.
  - exists 0. unfold step. rewrite Hst. cbn [running]. rewrite Hm.
    destruct r as [[]|code|]; [by eexists|by eexists|].
    cbn [fst snd] in Hmain.
    destruct (main_outcome fsys help recursive args) as [H|[H|H]];
      by rewrite Hmain in H.
  - destruct (decide (ev = EvWait)) as [->|Hev];
      [|exists 0; apply (Hgo 0 ev es r); [cbn [running]; by rewrite Hm|done]].
    destruct (decide (wg s = 0%Z)) as [Hz|Hnz].
    { exists 0. unfold step. rewrite Hst. cbn [running]. rewrite Hm, Hz. by eexists. }
    assert (pending (pool s) ≠ 0%Z) as Hp by (cbn [owed fst] in Hwg; lia).
    assert (∃ i g, pool s !! i = Some g ∧ weight g ≠ 0%Z) as (i & g & Hg & Hw).
    { clear -Hp. induction (pool s) as [|g l IH]; [done|].
      destruct (decide (weight g = 0%Z)) as [E|E].
      - cbn [pending foldr] in Hp. fold (pending l) in Hp.
        destruct IH as (i & g' & ? & ?); [lia|]. by exists (S i), g'.
      - by exists 0, g. }
    pose proof (proj1 (Forall_lookup _ _) Hinv i g Hg) as Hok. cbn beta in Hok.
    unfold weight in Hw.
    destruct (signalled g); [rewrite Hok in Hw; by cbn in Hw|].
    exists (S i).
    destruct (rest g) as [[|ev' es'] r'] eqn:Hrest.
    + unfold step. rewrite Hst. cbn [running]. rewrite Hg. cbn [fmap option_fmap option_map].
      rewrite Hrest. unfold goOk in Hok. cbn [fst snd tailOk] in Hok.
      pose proof (fatalOnly_body fsys path_Join FgHiRed FgHiYellow FgHiMagenta (what g)) as Hf.
      unfold fatalOnly in Hf. rewrite (Hpool i g Hg), Hrest in Hf. cbn in Hf.
      destruct r' as [[]|code|]; [done|by eexists|done].
    + apply (Hgo (S i) ev' es' r').
      * cbn [running]. rewrite Hg. cbn. by rewrite Hrest.
      * intros ->. unfold goOk in Hok. by cbn in Hok.
Qed.

(** On the small tree, with [main] at [wg.Wait] and the first goroutine
    started but yet to run, that goroutine can take a step. *)
Lemma no_deadlock_witness :
  ∃ s, reachable demo_fs demo_Join noColor noColor noColor false true ["l"; "r"] s
       ∧ status s = None
       ∧ step demo_fs demo_Join noColor noColor noColor 0 s = None
       ∧ ∃ who s', step demo_fs demo_Join noColor noColor noColor who s = Some s'.
Proof.
  destruct (run demo_fs demo_Join noColor noColor noColor (replicate 4 0)
              (init demo_fs false true ["l"; "r"])) as [s|] eqn:E;
    [|vm_compute in E; discriminate].
  exists s.
  assert (reachable demo_fs demo_Join noColor noColor noColor false true ["l"; "r"] s)
    as Hr by (by eexists).
  assert (status s = None) as Hst by (vm_compute in E; by injection E as <-).
  split; [done|]. split; [done|]. split.
  - vm_compute in E. injection E as <-. reflexivity.
  - exact (no_deadlock _ _ _ _ _ _ _ _ s Hr Hst).
Defined.

Lemma elem_of_projection who ev h : ev ∈ projection who h → (who, ev) ∈ h.
Proof.
  unfold projection. intros ([w e'] & -> & [Hw Hin]%list_elem_of_filter)%list_elem_of_fmap.
  cbn in Hw. by subst.
Qed.

(** A comparison that ends with status 0 has passed [wg.Wait]. *)
Lemma waited_at_status_0 fsys path_Join FgHiRed FgHiYellow FgHiMagenta
    recursive path1 path2 s :
  reachable fsys path_Join FgHiRed FgHiYellow FgHiMagenta false recursive [path1; path2] s →
  status s = Some 0%Z →
  (0, EvWait) ∈ history s.
Proof.
  intros Hr Hst.
  pose proof (tracked_reachable _ _ _ _ _ _ _ _ _ Hr) as [Hmain Hpool _ _ Hstatus].
  destruct (Hstatus _ Hst) as [[Hm _]|[Hm|[(i & g & Hg & Hrest)|[? _]]]]; [| | |done].
  - rewrite Hm in Hmain. cbn [fst snd] in Hmain. rewrite app_nil_r in Hmain.
    destruct (main_compares fsys recursive path1 path2) as [[_ H]|H];
      rewrite Hmain in H; [|done].
    by apply elem_of_projection.
  - rewrite Hm in Hmain. cbn [fst snd] in Hmain.
    destruct (main_compares fsys recursive path1 path2) as [[H _]|H];
      by rewrite Hmain in H.
  - pose proof (fatalOnly_body fsys path_Join FgHiRed FgHiYellow FgHiMagenta (what g)) as Hf.
    unfold fatalOnly in Hf. rewrite (Hpool i g Hg), Hrest in Hf. by cbn in Hf.
Qed.

(** X14. Status 0 after a comparison means that the whole comparison was
    made: with two arguments and no [--help], a process that ends with
    status 0 has run every goroutine it started to the end of its body, none
    of them failed, and all have called [wg.Done]. *)
Theorem status_0_means_complete fsys path_Join FgHiRed FgHiYellow FgHiMagenta
    recursive path1 path2 s :
  reachable fsys path_Join FgHiRed FgHiYellow FgHiMagenta false recursive [path1; path2] s →
  status s = Some 0%Z →
  (0, EvWait) ∈ history s
  ∧ ∀ i g, pool s !! i = Some g →
      signalled g = true
      ∧ body fsys path_Join FgHiRed FgHiYellow FgHiMagenta (what g)
        = (projection (S i) (history s), Ret tt).
Proof.
  intros Hr Hst.
  pose proof (waited_at_status_0 _ _ _ _ _ _ _ _ _ Hr Hst) as Hin.
  pose proof (reachable_invariant _ _ _ _ _ _ _ _ _ Hr) as [_ _ _ Hwait].
  pose proof (tracked_reachable _ _ _ _ _ _ _ _ _ Hr) as [_ Hpool _ _ _].
  split; [done|]. intros i g Hg.
  destruct (Hwait Hin) as [_ Hfin].
  destruct (proj1 (Forall_lookup _ _) Hfin i g Hg) as [Hs Hrest].
  split; [done|]. rewrite (Hpool i g Hg), Hrest. cbn [fst snd]. by rewrite app_nil_r.
Qed.

(** The recursive run on the small tree: the goroutine of the two roots has
    made its whole comparison. *)
Lemma status_0_means_complete_witness :
  ∃ s, reachable demo_fs demo_Join noColor noColor noColor false true ["l"; "r"] s
       ∧ status s = Some 0%Z
       ∧ body demo_fs demo_Join noColor noColor noColor (DiffDirs "l" "r" true)
         = (projection 1 (history s), Ret tt).
Proof.
  destruct (run demo_fs demo_Join noColor noColor noColor
              (replicate 4 0 ++ replicate 10 1 ++ replicate 8 2 ++ replicate 5 3
                 ++ replicate 8 4 ++ [0; 0])
              (init demo_fs false true ["l"; "r"])) as [s|] eqn:E;
    [|vm_compute in E; discriminate].
  exists s.
  assert (reachable demo_fs demo_Join noColor noColor noColor false true ["l"; "r"] s)
    as Hr by (by eexists).
  assert (status s = Some 0%Z) as Hst by (vm_compute in E; by injection E as <-).
  split; [done|]. split; [done|].
  destruct (status_0_means_complete _ _ _ _ _ _ _ _ s Hr Hst) as [_ H].
  assert (∃ g, pool s !! 0 = Some g ∧ what g = DiffDirs "l" "r" true) as (g & Hg & Hw).
  { vm_compute in E. injection E as <-. eexists. split; reflexivity. }
  destruct (H 0 g Hg) as [_ Hb]. by rewrite Hw in Hb.
Defined.

(** ** The history as the merge of what each goroutine did *)

Lemma projection_cons who w ev h :
  projection who ((w, ev) :: h)
  = if decide (w = who) then ev :: projection who h else projection who h.
Proof. unfold projection. rewrite filter_cons. cbn [fst]. by case_decide. Qed.

Lemma bind_untouched {A} (l : list nat) (F : nat → list A) w ev :
  w ∉ l →
  l ≫= (λ w', if decide (w = w') then ev :: F w' else F w') = l ≫= F.
Proof.
  induction l as [|a l IH]; [done|]. intros [Ha Hl]%not_elem_of_cons.
  cbn [mbind list_bind]. rewrite decide_False by done. f_equal. by apply IH.
Qed.

Lemma bind_insert_one {A} (l : list nat) (F : nat → list A) w ev :
  NoDup l → w ∈ l →
  l ≫= (λ w', if decide (w = w') then ev :: F w' else F w') ≡ₚ ev :: (l ≫= F).
Proof.
  induction l as [|a l IH]; [by intros _ ?%elem_of_nil|].
  intros [Ha Hnd]%NoDup_cons Hw. cbn [mbind list_bind].
  destruct (decide (w = a)) as [->|Hne].
  - by rewrite bind_untouched.
  - apply elem_of_cons in Hw as [?|Hw]; [done|].
    rewrite (IH Hnd Hw). by rewrite Permutation_middle.
Qed.

Lemma bind_all_nil {A B} (l : list A) (F : A → list B) :
  (∀ x, x ∈ l → F x = []) → l ≫= F = [].
Proof.
  induction l as [|a l IH]; [done|]. intros H. cbn [mbind list_bind].
  rewrite (H a) by left. apply IH. intros x Hx. apply H. by right.
Qed.

(** What the process did is what its goroutines did, put together. *)
Lemma history_merge n h :
  (∀ who ev, (who, ev) ∈ h → who < n) →
  snd <$> h ≡ₚ seq 0 n ≫= (λ w, projection w h).
Proof.
  induction h as [|[w ev] h IH]; intros Hb.
  - cbn [fmap list_fmap]. symmetry. rewrite bind_all_nil; [done|]. by intros.
  - cbn [fmap list_fmap snd].
    assert (seq 0 n ≫= (λ w', projection w' ((w, ev) :: h))
            = seq 0 n ≫= (λ w', if decide (w = w') then ev :: projection w' h
                                else projection w' h)) as ->.
    { clear. induction (seq 0 n) as [|a l IHl]; [done|].
      cbn [mbind list_bind]. by rewrite projection_cons, IHl. }
    rewrite bind_insert_one.
    + constructor. apply IH. intros who ev' Hin. apply (Hb who ev'). by right.
    + apply NoDup_seq.
    + apply elem_of_seq. assert (w < n) by (apply (Hb w ev); left). lia.
Qed.

Lemma omap_bind {A B C} (f : B → option C) (g : A → list B) (l : list A) :
  omap f (l ≫= g) = l ≫= (λ x, omap f (g x)).
Proof.
  induction l as [|a l IH]; [done|]. cbn [mbind list_bind].
  by rewrite omap_app, IH.
Qed.

(** ** Two regular files, from the command line to the exit status *)

Lemma main_files fsys (recursive : bool) file1 file2 A B :
  fsys file1 = Some (Regular A) → fsys file2 = Some (Regular B) →
  main fsys false recursive [file1; file2]
  = ([EvStat file1; EvStat file2; EvAdd; EvGo (DiffFiles file1 file2); EvWait], Ret tt).
Proof. intros H1 H2. unfold main, os_Stat. cbn. rewrite H1, H2. done. Qed.

Lemma reads_plain file1 file2 ns :
  forallb plain (reads file1 file2 ns) = true
  ∧ goes (reads file1 file2 ns) = [] ∧ lines (reads file1 file2 ns) = [].
Proof.
  unfold reads. induction ns as [|n ns (IH1 & IH2 & IH3)]; [done|].
  cbn [mbind list_bind]. unfold goes, lines in *.
  by rewrite forallb_app, !omap_app, IH1, IH2, IH3.
Qed.

(** [diffFiles] on two regular files: plain events, then the line if the
    contents differ, then [wg.Done]. *)
Lemma diffFiles_regular fsys FgHiRed file1 file2 A B :
  fsys file1 = Some (Regular A) → fsys file2 = Some (Regular B) →
  ∃ es, forallb plain es = true ∧ goes es = [] ∧ lines es = []
    ∧ diffFiles fsys FgHiRed file1 file2
      = (es ++ (if bool_decide (A = B) then []
                else [EvPrint ("Files " +:+ file1 +:+ " and " +:+ file2 +:+ " "
                               +:+ SprintFunc FgHiRed "differ" +:+ nl)])
            ++ [EvDone], Ret tt).
Proof.
  intros H1 H2.
  destruct (cmpFiles_regular fsys file1 file2 A B H1 H2) as (ns & Heq & _).
  destruct (reads_plain file1 file2 ns) as (Hp & Hg & Hl).
  exists ([EvOpen file1; EvOpen file2] ++ reads file1 file2 ns
            ++ [EvClose file2; EvClose file1]).
  split_and!.
  - by rewrite !forallb_app, Hp.
  - unfold goes in *. by rewrite !omap_app, Hg.
  - unfold lines in *. by rewrite !omap_app, Hl.
  - unfold diffFiles. rewrite Heq, bind_events.
    cbn [events outcome fst snd]. rewrite <- !app_assoc.
    case_bool_decide; cbn [negb].
    + by rewrite ret_then.
    + by rewrite emit_then.
Qed.

Section OneGoroutine.

Variable fsys : string → option node.
Variable path_Join : string → string → string.
Variables FgHiRed FgHiYellow FgHiMagenta : Color.

#[local] Abbreviation step' := (step fsys path_Join FgHiRed FgHiYellow FgHiMagenta).
#[local] Abbreviation run' := (run fsys path_Join FgHiRed FgHiYellow FgHiMagenta).

(** The only goroutine of the pool runs through plain events. *)
Lemma run_single es : ∀ es' r n m p t sg h,
  forallb plain es = true →
  run' (replicate (length es) 1)
    (mkState n m [mkGoroutine p t (es ++ es', r) sg] h None)
  = Some (mkState n m [mkGoroutine p t (es', r) sg]
            (h ++ ((λ ev, (1, ev)) <$> es)) None).
Proof.
  induction es as [|ev es IH]; intros es' r n m p t sg h Hplain.
  - cbn. by rewrite app_nil_r.
  - cbn in Hplain. apply andb_true_iff in Hplain as [Hev Hplain].
    assert (step' 1 (mkState n m [mkGoroutine p t ((ev :: es) ++ es', r) sg] h None)
            = Some (mkState n m [mkGoroutine p t (es ++ es', r) sg]
                      (h ++ [(1, ev)]) None)) as Hstep
      by (by destruct ev).
    cbn [length replicate]. change (run' (1 :: ?l) ?s) with (step' 1 s ≫= run' l).
    rewrite Hstep. cbn [mbind option_bind]. rewrite IH by done.
    by rewrite <- app_assoc.
Qed.

End OneGoroutine.

(** X15. [diff file1 file2] on two regular files, under every schedule: a
    process that has ended has status 0 and has printed the line "Files ...
    differ" once if the contents differ and nothing if they are the same;
    and the process can end. *)
Theorem two_files_end_to_end fsys path_Join FgHiRed FgHiYellow FgHiMagenta
    recursive file1 file2 A B :
  fsys file1 = Some (Regular A) → fsys file2 = Some (Regular B) →
  (∀ s code,
     reachable fsys path_Join FgHiRed FgHiYellow FgHiMagenta false recursive
       [file1; file2] s →
     status s = Some code →
     code = 0%Z
     ∧ printed (history s)
       = if bool_decide (A = B) then []
         else ["Files " +:+ file1 +:+ " and " +:+ file2 +:+ " "
               +:+ SprintFunc FgHiRed "differ" +:+ nl])
  ∧ ∃ s, reachable fsys path_Join FgHiRed FgHiYellow FgHiMagenta false recursive
           [file1; file2] s
         ∧ status s = Some 0%Z.
Proof.
  intros H1 H2.
  pose proof (main_files fsys recursive file1 file2 A B H1 H2) as Hmain0.
  destruct (diffFiles_regular fsys FgHiRed file1 file2 A B H1 H2)
    as (es & Hplain & Hgoes & Hlines & Hbody).
  set (line := "Files " +:+ file1 +:+ " and " +:+ file2 +:+ " "
               +:+ SprintFunc FgHiRed "differ" +:+ nl) in *.
  set (out := if bool_decide (A = B) then [] else [EvPrint line]) in *.
  assert (goes out = [] ∧ forallb plain out = true
          ∧ lines out = if bool_decide (A = B) then [] else [line]) as (Hgo & Hpo & Hlo).
  { unfold out. by case_bool_decide. }
  split.
  - intros s code Hr Hst.
    pose proof (reachable_invariant _ _ _ _ _ _ _ _ _ Hr) as [Hwg _ _ Hwait].
    pose proof (tracked_reachable _ _ _ _ _ _ _ _ _ Hr)
      as [Hmain Hpool Hbound Hstarted Hstatus].
    assert (provenance fsys path_Join FgHiRed FgHiYellow FgHiMagenta
              (λ t, t = DiffFiles file1 file2)
              (main fsys false recursive [file1; file2]) s) as [_ Hwhat _].
    { apply provenance_reachable; [| |done].
      - intros t. unfold starts. rewrite Hmain0. cbn [events fst].
        intros Ht. repeat (apply elem_of_cons in Ht as [Ht|Ht]); try done.
        + by injection Ht.
        + by apply elem_of_nil in Ht.
      - intros t t' -> Ht'. by apply diffFiles_touches in Ht'. }
    rewrite Hmain0 in Hmain.
    assert (∀ i g, pool s !! i = Some g →
              (es ++ out ++ [EvDone], Ret tt)
              = (projection (S i) (history s) ++ (rest g).1, (rest g).2)) as Hpool'.
    { intros i g Hg. rewrite <- (Hpool i g Hg).
      destruct (proj1 (Forall_lookup _ _) Hwhat i g Hg) as [-> _]. by rewrite <- Hbody. }
    assert (mainG s = ([], Ret tt) ∧ code = 0%Z) as [Hm ->].
    { destruct (Hstatus code Hst) as [?|[Hm|[(i & g & Hg & Hrest)|[_ Hneg]]]]; [done| | |].
      - by rewrite Hm in Hmain.
      - specialize (Hpool' i g Hg). by rewrite Hrest in Hpool'.
      - pose proof (pending_nonneg (pool s)).
        assert (0 ≤ owed (mainG s))%Z
          by (unfold owed; destruct (mainG s) as [[|[] ?] ?]; simpl; lia).
        lia. }
    split; [done|].
    rewrite Hm in Hmain. cbn [fst snd] in Hmain. rewrite app_nil_r in Hmain.
    injection Hmain as Hp0.
    assert ((0, EvWait) ∈ history s) as Hin.
    { apply elem_of_projection. rewrite <- Hp0. repeat (first [by left|right]). }
    destruct (Hwait Hin) as [_ Hfin].
    assert (∀ w, w ∈ seq 1 (length (pool s)) →
              projection w (history s) = es ++ out ++ [EvDone]) as Hproj.
    { intros w [Hw1 Hw2]%elem_of_seq. destruct w as [|i]; [lia|].
      assert (is_Some (pool s !! i)) as [g Hg] by (apply lookup_lt_is_Some; lia).
      destruct (proj1 (Forall_lookup _ _) Hfin i g Hg) as [_ Hrest].
      specialize (Hpool' i g Hg). rewrite Hrest in Hpool'. cbn [fst snd] in Hpool'.
      rewrite app_nil_r in Hpool'. by injection Hpool'. }
    assert (snd <$> history s
            ≡ₚ seq 0 (S (length (pool s))) ≫= (λ w, projection w (history s))) as Hmerge.
    { apply history_merge. intros who ev Hev. apply Hbound in Hev. lia. }
    cbn [seq mbind list_bind] in Hmerge. rewrite <- Hp0 in Hmerge.
    assert (length (pool s) = 1) as Hlen.
    { rewrite <- (length_fmap what), Hstarted. unfold started, goes in *.
      rewrite Hmerge. rewrite omap_app, omap_bind.
      rewrite bind_all_nil; [done|].
      intros w Hw. rewrite (Hproj w Hw). by rewrite !omap_app, Hgoes, Hgo. }
    rewrite Hlen in Hmerge, Hproj. cbn [seq mbind list_bind] in Hmerge.
    rewrite (Hproj 1) in Hmerge by (rewrite elem_of_seq; lia).
    assert (printed (history s) ≡ₚ if bool_decide (A = B) then [] else [line]) as Hperm.
    { unfold printed, lines in *. rewrite Hmerge.
      rewrite !omap_app, Hlines, Hlo. cbn. by rewrite !app_nil_r. }
    destruct (bool_decide (A = B)).
    + by apply Permutation_nil_r.
    + by apply Permutation_singleton_r.
  - eexists. split.
    + exists (replicate 4 0 ++ replicate (length (es ++ out)) 1 ++ [1; 0; 0]).
      unfold init. rewrite Hmain0. rewrite run_app.
      cbn [replicate run mbind option_bind step status running mainG perform advance
             wg pool history fst snd app Z.add].
      cbn [body]. rewrite Hbody. rewrite app_assoc.
      rewrite run_app, run_single by (by rewrite forallb_app, Hplain, Hpo).
      cbn. reflexivity.
    + reflexivity.
Qed.

(** Two files of the small tree that differ in their third byte. *)
Lemma two_files_end_to_end_witness :
  demo_fs "l/a.txt" = Some (Regular [x01; x02; x03])
  ∧ demo_fs "r/a.txt" = Some (Regular [x01; x02; x04])
  ∧ ∃ s, reachable demo_fs demo_Join noColor noColor noColor false false
           ["l/a.txt"; "r/a.txt"] s
         ∧ status s = Some 0%Z
         ∧ printed (history s)
           = ["Files " +:+ "l/a.txt" +:+ " and " +:+ "r/a.txt" +:+ " "
              +:+ SprintFunc noColor "differ" +:+ nl].
Proof.
  split; [reflexivity|]. split; [reflexivity|].
  destruct (two_files_end_to_end demo_fs demo_Join noColor noColor noColor false
              "l/a.txt" "r/a.txt" [x01; x02; x03] [x01; x02; x04] eq_refl eq_refl)
    as [Hall (s & Hr & Hst)].
  exists s. split; [done|]. split; [done|].
  by destruct (Hall s 0%Z Hr Hst) as [_ ->].
Defined.

(** ** A tree compared with itself *)

Lemma cmpChunk_same n err b : cmpChunk n err n err b b ≠ Differ.
Proof.
  unfold cmpChunk. destruct err as [[]|]; try done.
  rewrite Nat.eqb_refl. cbn [negb]. by rewrite bytes_Equal_refl.
Qed.

Lemma cmpLoop_same fuel : ∀ f b, outcome (cmpLoop fuel f f b b) ≠ Ret false.
Proof.
  induction fuel as [|fuel IH]; intros f b; [done|].
  cbn [cmpLoop]. destruct (Read f b) as [[[n err] b'] f'].
  rewrite !emit_then. cbn [outcome snd].
  pose proof (cmpChunk_same n err b') as Hc.
  destruct (cmpChunk n err n err b' b'); [done|done|done|apply IH].
Qed.

(** A path compared with itself is never found to differ. *)
Lemma cmpFiles_same fsys path : outcome (cmpFiles fsys path path) ≠ Ret false.
Proof.
  destruct (fsys path) as [nd|] eqn:E.
  - rewrite (cmpFiles_opened fsys path path nd nd E E), Nat.eqb_refl.
    cbn [negb outcome snd]. apply cmpLoop_same.
  - by rewrite cmpFiles_open_fails by (by left).
Qed.

Lemma lines_nil es :
  lines es = [] ↔ ∀ ev, ev ∈ es → match ev with EvPrint _ => False | _ => True end.
Proof.
  unfold lines. induction es as [|ev es IH]; [by split; [intros _ ? ?%elem_of_nil|]|].
  split.
  - intros H ev' [->|Hin]%elem_of_cons.
    + by destruct ev.
    + apply IH; [|done]. by destruct ev.
  - intros H. pose proof (H ev (list_elem_of_here _ _)) as Hev.
    destruct ev; try done; cbn [omap]; apply IH; intros ? ?; apply H; by right.
Qed.

Lemma diffFiles_same fsys FgHiRed path :
  lines (events (diffFiles fsys FgHiRed path path)) = [].
Proof.
  apply lines_nil. intros ev Hev. unfold diffFiles in Hev.
  pose proof (cmpFiles_same fsys path) as Hsame.
  pose proof (cmpFiles_touches fsys path path) as Ht. unfold allM in Ht.
  destruct (cmpFiles fsys path path) as [es [[]| |]]; cbn [events outcome fst snd] in *;
    [|done|..].
  - rewrite bind_events in Hev. cbn [negb] in Hev. rewrite ret_then in Hev.
    cbn [events emit fst] in Hev.
    apply elem_of_app in Hev as [Hev|Hev].
    + pose proof (proj1 (Forall_forall _ _) Ht ev Hev). by destruct ev.
    + apply list_elem_of_singleton in Hev as ->. done.
  - pose proof (proj1 (Forall_forall _ _) Ht ev Hev). by destruct ev.
  - pose proof (proj1 (Forall_forall _ _) Ht ev Hev). by destruct ev.
Qed.

Lemma reconcile_same files cl :
  NoDup (names files) → cl ∈ reconcile files files →
  ∃ name, cl = Matched name BothFiles ∨ cl = Matched name BothDirectories.
Proof.
  intros Hnd. destruct cl as [name|name|name k].
  - intros [? ?]%reconcile_OnlyInLeft. done.
  - intros [? ?]%reconcile_OnlyInRight. done.
  - intros (f & f2 & Hf & <- & E & ->)%reconcile_Matched.
    rewrite (entryOf_NoDup files f Hnd Hf) in E. injection E as <-.
    exists (Name f). destruct (IsDir f); [by right|by left].
Qed.

Lemma diffDirs_same fsys path_Join FgHiYellow FgHiMagenta path :
  (∀ p sz files, fsys p = Some (Directory sz files) → NoDup (names files)) →
  lines (events (diffDirs fsys path_Join FgHiYellow FgHiMagenta path path true)) = [].
Proof.
  intros Hnd. apply lines_nil. intros ev Hev.
  destruct (fsys path) as [[A|sz files]|] eqn:E.
  - rewrite diffDirs_ReadDir_fails in Hev by (rewrite E; by left).
    rewrite E in Hev. cbn in Hev.
    repeat (apply elem_of_cons in Hev as [->|Hev]; [done|]). by apply elem_of_nil in Hev.
  - rewrite (diffDirs_trace _ _ _ _ _ _ _ _ _ _ _ E E) in Hev. cbn [events fst] in Hev.
    apply elem_of_app in Hev as [Hev|[Hev|Hev]%elem_of_app].
    + repeat (apply elem_of_cons in Hev as [->|Hev]; [done|]). by apply elem_of_nil in Hev.
    + apply list_elem_of_bind in Hev as (cl & Hev & Hcl).
      destruct (reconcile_same files cl (Hnd _ _ _ E) Hcl) as [name [-> | ->]];
        cbn [act] in Hev;
        repeat (apply elem_of_cons in Hev as [->|Hev]; [done|]); by apply elem_of_nil in Hev.
    + by apply list_elem_of_singleton in Hev as ->.
  - rewrite diffDirs_ReadDir_fails in Hev by (rewrite E; by left).
    rewrite E in Hev. cbn in Hev.
    repeat (apply elem_of_cons in Hev as [->|Hev]; [done|]). by apply elem_of_nil in Hev.
Qed.

Lemma main_same fsys recursive path :
  lines (events (main fsys false recursive [path; path])) = [].
Proof.
  unfold main, os_Stat. cbn [orb length Nat.eqb negb].
  rewrite ret_then. cbn [index lookup list_lookup]. rewrite !ret_then.
  destruct (fsys path) as [[A|sz files]|]; done.
Qed.

(** X16. A tree compared with itself in recursive mode: where no listing
    names an entry twice, nothing is ever printed, under any schedule,
    whether [path] is a file, a directory or missing. *)
Theorem tree_against_itself_prints_nothing
    fsys path_Join FgHiRed FgHiYellow FgHiMagenta path s :
  (∀ p sz files, fsys p = Some (Directory sz files) → NoDup (names files)) →
  reachable fsys path_Join FgHiRed FgHiYellow FgHiMagenta false true [path; path] s →
  printed (history s) = [].
Proof.
  intros Hnd Hr.
  assert (provenance fsys path_Join FgHiRed FgHiYellow FgHiMagenta
            (λ t, ∃ p, t = DiffFiles p p ∨ t = DiffDirs p p true)
            (main fsys false true [path; path]) s) as [_ Hpool Hhist].
  { apply provenance_reachable; [| |done].
    - intros t (path1 & path2 & [= <- <-] & Ht)%main_starts_roots. by exists path.
    - intros t t' (p & [-> | ->]) Ht'.
      + by apply diffFiles_touches in Ht'.
      + apply diffDirs_event in Ht' as (name & [-> | [_ ->]]); eexists; [by left|by right]. }
  unfold printed. apply lines_nil. intros ev ([who ev'] & -> & Hin)%list_elem_of_fmap.
  cbn [snd]. specialize (Hhist who ev' Hin). destruct who as [|i].
  - pose proof (main_same fsys true path) as Hm.
    by apply (proj1 (lines_nil _) Hm).
  - destruct Hhist as (g & Hg & Hev).
    destruct (proj1 (Forall_lookup _ _) Hpool i g Hg) as [(p & [Hw|Hw]) _];
      rewrite Hw in Hev; cbn [body] in Hev.
    + by apply (proj1 (lines_nil _) (diffFiles_same fsys FgHiRed p)).
    + by apply (proj1 (lines_nil _)
                  (diffDirs_same fsys path_Join FgHiYellow FgHiMagenta p Hnd)).
Qed.

Lemma demo_fs_NoDup p sz files :
  demo_fs p = Some (Directory sz files) → NoDup (names files).
Proof.
  unfold demo_fs. repeat case_decide; intros [= <- <-] || intros [=];
    apply (bool_decide_unpack _); vm_compute; exact I.
Qed.

(** The left side of the small tree against itself, run to the end. *)
Lemma tree_against_itself_prints_nothing_witness :
  ∃ s, reachable demo_fs demo_Join noColor noColor noColor false true ["l"; "l"] s
       ∧ status s = Some 0%Z ∧ length (history s) = 49
       ∧ printed (history s) = [].
Proof.
  destruct (run demo_fs demo_Join noColor noColor noColor
              (replicate 4 0 ++ replicate 11 1 ++ replicate 9 2 ++ replicate 3 3
                 ++ replicate 5 4 ++ replicate 7 5 ++ replicate 9 6 ++ [0; 0])
              (init demo_fs false true ["l"; "l"])) as [s|] eqn:E;
    [|vm_compute in E; discriminate].
  exists s.
  assert (reachable demo_fs demo_Join noColor noColor noColor false true ["l"; "l"] s)
    as Hr by (by eexists).
  split; [done|].
  pose proof (tree_against_itself_prints_nothing demo_fs demo_Join noColor noColor noColor
                "l" s demo_fs_NoDup Hr) as Hp.
  vm_compute in E. injection E as <-.
  split; [reflexivity|]. split; [reflexivity|]. exact Hp.
Defined.

(** ** The output of a comparison, task by task *)

Lemma bind_seq_lookup {A B} (P : nat → list B) (G : A → list B) (l : list A) : ∀ k,
  (∀ i x, l !! i = Some x → P (k + i) = G x) →
  seq k (length l) ≫= P = l ≫= G.
Proof.
  induction l as [|x l IH]; intros k H; [done|].
  cbn [length seq mbind list_bind]. f_equal.
  - rewrite <- (H 0 x); [by rewrite Nat.add_0_r|done].
  - apply IH. intros i y Hy. rewrite <- (H (S i) y Hy). f_equal. lia.
Qed.

Lemma bind_fmap {A B C} (f : A → B) (g : B → list C) (l : list A) :
  (f <$> l) ≫= g = l ≫= (λ x, g (f x)).
Proof.
  induction l as [|x l IH]; [done|]. cbn [fmap list_fmap mbind list_bind]. by rewrite <- IH.
Qed.

(** A [main] that gets to [wg.Wait] has printed nothing. *)
Lemma main_waits fsys recursive path1 path2 :
  EvWait ∈ events (main fsys false recursive [path1; path2]) →
  lines (events (main fsys false recursive [path1; path2])) = [].
Proof.
  unfold main, os_Stat. cbn [orb length Nat.eqb negb].
  rewrite ret_then. cbn [index lookup list_lookup]. rewrite !ret_then.
  destruct (fsys path1) as [nd1|], (fsys path2) as [nd2|];
    try destruct nd1; try destruct nd2; cbn; try done;
    intros H; repeat (apply elem_of_cons in H as [H|H]; [done|]); by apply elem_of_nil in H.
Qed.

(** X17. What a comparison that ends with status 0 has printed is what
    the tasks it started print, each task once: no line is lost and none is
    doubled, whatever the schedule. And the tasks started are the one that
    [main] starts and those that the tasks started start. *)
Theorem output_is_the_sum_of_the_tasks fsys path_Join FgHiRed FgHiYellow FgHiMagenta
    recursive path1 path2 s :
  reachable fsys path_Join FgHiRed FgHiYellow FgHiMagenta false recursive [path1; path2] s →
  status s = Some 0%Z →
  printed (history s)
  ≡ₚ started (history s)
       ≫= (λ t, lines (events (body fsys path_Join FgHiRed FgHiYellow FgHiMagenta t)))
  ∧ started (history s)
    ≡ₚ goes (events (main fsys false recursive [path1; path2]))
       ++ (started (history s)
             ≫= (λ t, goes (events (body fsys path_Join FgHiRed FgHiYellow FgHiMagenta t)))).
Proof.
  intros Hr Hst.
  pose proof (waited_at_status_0 _ _ _ _ _ _ _ _ _ Hr Hst) as Hin.
  pose proof (reachable_invariant _ _ _ _ _ _ _ _ _ Hr) as [_ _ _ Hwait].
  pose proof (tracked_reachable _ _ _ _ _ _ _ _ _ Hr) as [Hmain Hpool Hbound Hstarted _].
  destruct (Hwait Hin) as [Hnil Hfin].
  rewrite Hnil, app_nil_r in Hmain.
  assert (events (main fsys false recursive [path1; path2]) = projection 0 (history s))
    as Hp0 by (by rewrite Hmain).
  assert (lines (projection 0 (history s)) = []) as Hquiet.
  { rewrite <- Hp0. apply main_waits. rewrite Hp0.
    unfold projection. apply list_elem_of_fmap. exists (0, EvWait). split; [done|].
    by apply list_elem_of_filter. }
  assert (snd <$> history s
          ≡ₚ projection 0 (history s)
             ++ (pool s ≫= λ g, events (body fsys path_Join FgHiRed FgHiYellow FgHiMagenta
                                          (what g)))) as Hmerge.
  { rewrite (history_merge (S (length (pool s))) (history s))
      by (intros who ev Hev; apply Hbound in Hev; lia).
    cbn [seq mbind list_bind].
    rewrite (bind_seq_lookup (λ w, projection w (history s))
               (λ g, events (body fsys path_Join FgHiRed FgHiYellow FgHiMagenta (what g)))
               (pool s) 1); [done|].
    intros i g Hg. destruct (proj1 (Forall_lookup _ _) Hfin i g Hg) as [_ Hrest].
    rewrite (Hpool i g Hg), Hrest. cbn [events fst snd]. by rewrite app_nil_r. }
  rewrite <- Hstarted, !bind_fmap, Hp0. split.
  - unfold printed, lines in *. rewrite Hmerge, omap_app, Hquiet, omap_bind. done.
  - rewrite Hstarted. unfold started, goes in *. rewrite Hmerge at 1.
    by rewrite omap_app, omap_bind.
Qed.

(** The recursive run on the small tree, with its four tasks. *)
Lemma output_is_the_sum_of_the_tasks_witness :
  ∃ s, reachable demo_fs demo_Join noColor noColor noColor false true ["l"; "r"] s
       ∧ status s = Some 0%Z
       ∧ length (started (history s)) = 4
       ∧ printed (history s)
         ≡ₚ started (history s)
              ≫= (λ t, lines (events (body demo_fs demo_Join noColor noColor noColor t))).
Proof.
  destruct (run demo_fs demo_Join noColor noColor noColor
              (replicate 4 0 ++ replicate 10 1 ++ replicate 8 2 ++ replicate 5 3
                 ++ replicate 8 4 ++ [0; 0])
              (init demo_fs false true ["l"; "r"])) as [s|] eqn:E;
    [|vm_compute in E; discriminate].
  exists s.
  assert (reachable demo_fs demo_Join noColor noColor noColor false true ["l"; "r"] s)
    as Hr by (by eexists).
  assert (status s = Some 0%Z) as Hst by (vm_compute in E; by injection E as <-).
  split; [done|]. split; [done|].
  destruct (output_is_the_sum_of_the_tasks _ _ _ _ _ _ _ _ s Hr Hst) as [H _].
  split; [|exact H].
  vm_compute in E. injection E as <-. reflexivity.
Defined.
